(** * Grid locking data structures of CGAL's concurrent Mesh_3

    Shallow embedding of [Mesh_3/include/CGAL/Mesh_3/Locking_data_structures.h]:
    the three classes [Simple_grid_locking_ds] (one atomic boolean per cell),
    [Simple_grid_locking_ds_with_thread_ids] (one atomic owner id per cell)
    and [Simple_grid_locking_ds_with_mutex] (one recursive mutex per cell).

    Threads are natural numbers.  Every member function takes the calling
    thread as an explicit argument and returns the new state of the manager;
    a call by another thread is a call with another thread argument, so an
    interleaving of whole calls is a sequence of calls. *)

From Stdlib Require Import ZArith Bool List Lia.
From Stdlib Require Import Floats.SpecFloat.
From stdpp Require Import base option list gmap.

Local Open Scope Z_scope.

(** ** Outcomes of a call

    [Done v]: the call returns [v].  [Throw]: the call leaves by a C++
    exception ([std::bad_array_new_length] of an array [new]).  [Undefined]:
    the call has undefined behaviour (an array read or written outside its
    bounds, a floating-point value converted to an [int] that cannot hold
    it, a mutex unlocked by a thread that does not own it).  [Spins]: the
    call never returns (a retry loop that no other thread will ever end). *)

Inductive result (A : Type) : Type :=
  | Done (a : A)
  | Throw
  | Undefined
  | Spins.

Arguments Done {A} a.
Arguments Throw {A}.
Arguments Undefined {A}.
Arguments Spins {A}.

#[global] Instance result_ret : MRet result := @Done.

#[global] Instance result_bind : MBind result := fun A B f m =>
  match m with
  | Done a => f a
  | Throw => Throw
  | Undefined => Undefined
  | Spins => Spins
  end.

(** ** [int] and [unsigned int] *)

Definition INT_MIN : Z := - 2 ^ 31.
Definition INT_MAX : Z := 2 ^ 31 - 1.

(** Two's complement wrap-around of a mathematical integer into [int]. *)
Definition wrap_int (v : Z) : Z := (v + 2 ^ 31) mod 2 ^ 32 - 2 ^ 31.

Definition int_add (a b : Z) : Z := wrap_int (a + b).
Definition int_sub (a b : Z) : Z := wrap_int (a - b).
Definition int_mul (a b : Z) : Z := wrap_int (a * b).

(** [++last_id] on an [unsigned int]. *)
Definition uint_incr (a : Z) : Z := (a + 1) mod 2 ^ 32.

(** ** [double]: IEEE 754 binary64, round to nearest even *)

Definition double : Type := spec_float.

Definition d_prec : Z := 53.
Definition d_emax : Z := 1024.

Definition d_sub : double -> double -> double := SFsub d_prec d_emax.
Definition d_mul : double -> double -> double := SFmul d_prec d_emax.
Definition d_div : double -> double -> double := SFdiv d_prec d_emax.

(** The double [m * 2^e]. *)
Definition d_make (m e : Z) : double := binary_normalize d_prec d_emax m e false.

(** [static_cast<double>(n)] for an [int] [n] (exact). *)
Definition double_of_int (n : Z) : double := d_make n 0.

(** The integer part of a double, rounded toward zero; none for an
    infinity or a NaN. *)
Definition d_trunc (d : double) : option Z :=
  match d with
  | S754_zero _ => Some 0
  | S754_finite s m e =>
      let mag := match e with
                 | Zneg k => Z.shiftr (Zpos m) (Zpos k)
                 | _ => Z.shiftl (Zpos m) e
                 end in
      Some (if s then - mag else mag)
  | S754_infinity _ | S754_nan => None
  end.

(** [static_cast<int>(d)]: truncation; undefined when the truncated value
    is not an [int]. *)
Definition static_cast_int (d : double) : result Z :=
  match d_trunc d with
  | Some v => if (INT_MIN <=? v) && (v <=? INT_MAX) then Done v else Undefined
  | None => Undefined
  end.

(** ** Arrays indexed by an [int] *)

Definition array_get {A : Type} (a : list A) (i : Z) : result A :=
  if i <? 0 then Undefined
  else match a !! Z.to_nat i with
       | Some v => Done v
       | None => Undefined
       end.

Definition array_set {A : Type} (a : list A) (i : Z) (v : A) : result (list A) :=
  if i <? 0 then Undefined
  else match a !! Z.to_nat i with
       | Some _ => Done (<[Z.to_nat i := v]> a)
       | None => Undefined
       end.

(** ** Points and bounding boxes *)

Record Bbox_3 : Type := Build_Bbox_3 {
  xmin : double; ymin : double; zmin : double;
  xmax : double; ymax : double; zmax : double
}.

(** A point type [P3] provides [x()], [y()] and [z()]; [to_double] is the
    identity on doubles. *)
Record P3 : Type := Build_P3 { p_x : double; p_y : double; p_z : double }.

(** ** The state of a manager

    The three classes have the same members but for the type of a slot of
    [m_grid]; the owner-id class has one more thread-local member and a
    function-local static, kept in [m_extra].  A thread-specific member
    ([tbb::enumerable_thread_specific]) is a finite map from threads to
    values: [local()] of a thread without an entry yields the value of the
    initializer, which is what a lookup defaults to below. *)

Record locking_ds {cell extra : Type} : Type := Build_locking_ds {
  m_num_grid_cells_per_axis : Z;
  m_xmin : double;
  m_ymin : double;
  m_zmin : double;
  m_resolution_x : double;
  m_resolution_y : double;
  m_resolution_z : double;
  m_grid : list cell;
  m_tls_grids : gmap nat (list bool);
  m_tls_locked_cells : gmap nat (list Z);
  m_extra : extra
}.

Arguments locking_ds : clear implicits.
Arguments Build_locking_ds {cell extra}.

Section Manager.
Context {cell extra : Type}.
Abbreviation ds := (locking_ds cell extra).

Definition set_grid (s : ds) (g : list cell) : ds :=
  Build_locking_ds (m_num_grid_cells_per_axis s)
    (m_xmin s) (m_ymin s) (m_zmin s)
    (m_resolution_x s) (m_resolution_y s) (m_resolution_z s)
    g (m_tls_grids s) (m_tls_locked_cells s) (m_extra s).

Definition set_tls_grids (s : ds) (m : gmap nat (list bool)) : ds :=
  Build_locking_ds (m_num_grid_cells_per_axis s)
    (m_xmin s) (m_ymin s) (m_zmin s)
    (m_resolution_x s) (m_resolution_y s) (m_resolution_z s)
    (m_grid s) m (m_tls_locked_cells s) (m_extra s).

Definition set_tls_locked_cells (s : ds) (m : gmap nat (list Z)) : ds :=
  Build_locking_ds (m_num_grid_cells_per_axis s)
    (m_xmin s) (m_ymin s) (m_zmin s)
    (m_resolution_x s) (m_resolution_y s) (m_resolution_z s)
    (m_grid s) (m_tls_grids s) m (m_extra s).

Definition set_extra (s : ds) (e : extra) : ds :=
  Build_locking_ds (m_num_grid_cells_per_axis s)
    (m_xmin s) (m_ymin s) (m_zmin s)
    (m_resolution_x s) (m_resolution_y s) (m_resolution_z s)
    (m_grid s) (m_tls_grids s) (m_tls_locked_cells s) e.

(** [num_grid_cells_per_axis * num_grid_cells_per_axis * num_grid_cells_per_axis] *)
Definition num_cells_of (n : Z) : Z := int_mul (int_mul n n) n.

Definition num_cells (s : ds) : Z := num_cells_of (m_num_grid_cells_per_axis s).

(** [m_tls_grids.local()]: the thread's bitmap, all [false] at first. *)
Definition local_grid (s : ds) (t : nat) : list bool :=
  default (replicate (Z.to_nat (num_cells s)) false) (m_tls_grids s !! t).

(** [m_tls_locked_cells.local()]: the thread's vector, empty at first. *)
Definition local_locked_cells (s : ds) (t : nat) : list Z :=
  default [] (m_tls_locked_cells s !! t).

(** *** Constructor

    [new T[num_cells]] throws for a negative length; the slots are then
    initialized to [free] (the loop of the two atomic classes, the default
    constructor of the mutex). *)
Definition construct (free : cell) (e : extra)
    (bbox : Bbox_3) (num_grid_cells_per_axis : Z) : result ds :=
  let num_cells := num_cells_of num_grid_cells_per_axis in
  if num_cells <? 0 then Throw
  else
    let n := double_of_int num_grid_cells_per_axis in
    Done (Build_locking_ds num_grid_cells_per_axis
            (xmin bbox) (ymin bbox) (zmin bbox)
            (d_div n (d_sub (xmax bbox) (xmin bbox)))
            (d_div n (d_sub (ymax bbox) (ymin bbox)))
            (d_div n (d_sub (zmax bbox) (zmin bbox)))
            (replicate (Z.to_nat num_cells) free) ∅ ∅ e).

(** *** Indices on the grid *)

(** [static_cast<int>((to_double(c) - min) * resolution)], then
    [std::max(0, std::min(index, m_num_grid_cells_per_axis - 1))]. *)
Definition axis_index (n : Z) (c min resolution : double) : result Z :=
  index ← static_cast_int (d_mul (d_sub c min) resolution);
  mret (Z.max 0 (Z.min index (int_sub n 1))).

(** [index_z*n*n + index_y*n + index_x] *)
Definition cell_index (n index_x index_y index_z : Z) : Z :=
  int_add (int_add (int_mul (int_mul index_z n) n) (int_mul index_y n)) index_x.

Definition point_indices (s : ds) (point : P3) : result (Z * Z * Z) :=
  let n := m_num_grid_cells_per_axis s in
  index_x ← axis_index n (p_x point) (m_xmin s) (m_resolution_x s);
  index_y ← axis_index n (p_y point) (m_ymin s) (m_resolution_y s);
  index_z ← axis_index n (p_z point) (m_zmin s) (m_resolution_z s);
  mret (index_x, index_y, index_z).

(** The index computed at the head of [try_lock(point, r)] and of
    [unlock(point)]. *)
Definition point_index (s : ds) (point : P3) : result Z :=
  '(index_x, index_y, index_z) ← point_indices s point;
  mret (cell_index (m_num_grid_cells_per_axis s) index_x index_y index_z).

(** *** What the three classes share

    The three classes differ in [try_lock(int)] and in what [unlock(int)]
    does to the slot ([release]); the other member functions are the same
    text in each class. *)

Variable release : nat -> cell -> result cell.
Variable try_lock : ds -> nat -> Z -> result (bool * ds).

(** The two statements that follow a successful acquisition:
    [m_tls_grids.local()[cell_index] = true;
     m_tls_locked_cells.local().push_back(cell_index);] *)
Definition record_lock (s : ds) (t : nat) (cell_index : Z) : result ds :=
  local ← array_set (local_grid s t) cell_index true;
  mret (set_tls_locked_cells
          (set_tls_grids s (<[t := local]> (m_tls_grids s)))
          (<[t := local_locked_cells s t ++ [cell_index]]> (m_tls_locked_cells s))).

(** [unlock(int cell_index)] *)
Definition unlock (s : ds) (t : nat) (cell_index : Z) : result ds :=
  slot ← array_get (m_grid s) cell_index;
  slot' ← release t slot;
  grid ← array_set (m_grid s) cell_index slot';
  local ← array_set (local_grid s t) cell_index false;
  mret (set_tls_grids (set_grid s grid) (<[t := local]> (m_tls_grids s))).

(** The rollback loop over [locked_cells_tmp]. *)
Fixpoint unlock_each (cells : list Z) (s : ds) (t : nat) : result ds :=
  match cells with
  | [] => mret s
  | c :: rest => s' ← unlock s t c; unlock_each rest s' t
  end.

(** The values [i] of [for (int i = max(0, index - r); i <= min(n - 1, index + r); ++i)].
    The two bounds are computed in [int]; the properties of regions below
    either bound the radius so that neither overflows, or hold whatever
    cells are visited. *)
Definition axis_range (n index lock_radius : Z) : list Z :=
  let first := Z.max 0 (int_sub index lock_radius) in
  let last := Z.min (int_sub n 1) (int_add index lock_radius) in
  seqZ first (last - first + 1).

(** The values of [index_to_lock] in the order of the three nested loops:
    [i] (x) outermost, [k] (z) innermost, [index_to_lock = k*n*n + j*n + i]. *)
Definition region_cells (n index_x index_y index_z lock_radius : Z) : list Z :=
  i ← axis_range n index_x lock_radius;
  j ← axis_range n index_y lock_radius;
  k ← axis_range n index_z lock_radius;
  [cell_index n i j k].

(** The body of the nested loops, over the cells still to visit. *)
Fixpoint lock_cells (cells locked_cells_tmp : list Z) (s : ds) (t : nat)
    : result (bool * ds) :=
  match cells with
  | [] => mret (true, s)
  | index_to_lock :: rest =>
      '(locked, s1) ← try_lock s t index_to_lock;
      if locked : bool
      then lock_cells rest (locked_cells_tmp ++ [index_to_lock]) s1 t
      else s2 ← unlock_each locked_cells_tmp s1 t; mret (false, s2)
  end.

(** [try_lock(const P3 &point, int lock_radius)] *)
Definition try_lock_point (s : ds) (t : nat) (point : P3) (lock_radius : Z)
    : result ((bool * Z) * ds) :=
  '(index_x, index_y, index_z) ← point_indices s point;
  let index := cell_index (m_num_grid_cells_per_axis s) index_x index_y index_z in
  if lock_radius =? 0 then
    '(locked, s') ← try_lock s t index;
    mret ((locked, index), s')
  else
    '(locked, s') ← lock_cells
       (region_cells (m_num_grid_cells_per_axis s) index_x index_y index_z lock_radius)
       [] s t;
    mret ((locked, index), s').

(** [unlock(const P3 &point)] *)
Definition unlock_point (s : ds) (t : nat) (point : P3) : result ds :=
  index ← point_index s point;
  unlock s t index.

(** The loop of [unlock_all_tls_locked_cells]. *)
Fixpoint unlock_owned (cells : list Z) (s : ds) (t : nat) : result ds :=
  match cells with
  | [] => mret s
  | cell_index :: rest =>
      owned ← array_get (local_grid s t) cell_index;
      s' ← (if owned : bool then unlock s t cell_index else mret s);
      unlock_owned rest s' t
  end.

(** [unlock_all_tls_locked_cells()] *)
Definition unlock_all_tls_locked_cells (s : ds) (t : nat) : result ds :=
  s' ← unlock_owned (local_locked_cells s t) s t;
  mret (set_tls_locked_cells s' (<[t := []]> (m_tls_locked_cells s'))).

(** The loop of [check_if_all_tls_cells_are_unlocked], which stops at the
    first set bit. *)
Fixpoint all_unlocked (indices : list Z) (local : list bool) : result bool :=
  match indices with
  | [] => mret true
  | i :: rest =>
      b ← array_get local i;
      if b : bool then mret false else all_unlocked rest local
  end.

(** [check_if_all_tls_cells_are_unlocked()] *)
Definition check_if_all_tls_cells_are_unlocked (s : ds) (t : nat) : result bool :=
  all_unlocked (seqZ 0 (num_cells s)) (local_grid s t).

(** *** Calls of one thread

    A client thread is a sequence of calls of the public member functions;
    [run] is that thread running them one after the other and collecting
    what they return. *)

Inductive call : Type :=
  | Call_try_lock (cell_index : Z)
  | Call_try_lock_point (point : P3) (lock_radius : Z)
  | Call_unlock (cell_index : Z)
  | Call_unlock_point (point : P3)
  | Call_unlock_all_tls_locked_cells
  | Call_check_if_all_tls_cells_are_unlocked.

Inductive returned : Type :=
  | Ret_bool (b : bool)
  | Ret_pair (b : bool) (index : Z)
  | Ret_void.

Definition do_call (s : ds) (t : nat) (c : call) : result (returned * ds) :=
  match c with
  | Call_try_lock cell_index =>
      '(b, s') ← try_lock s t cell_index; mret (Ret_bool b, s')
  | Call_try_lock_point point lock_radius =>
      '(r, s') ← try_lock_point s t point lock_radius;
      mret (Ret_pair r.1 r.2, s')
  | Call_unlock cell_index =>
      s' ← unlock s t cell_index; mret (Ret_void, s')
  | Call_unlock_point point =>
      s' ← unlock_point s t point; mret (Ret_void, s')
  | Call_unlock_all_tls_locked_cells =>
      s' ← unlock_all_tls_locked_cells s t; mret (Ret_void, s')
  | Call_check_if_all_tls_cells_are_unlocked =>
      b ← check_if_all_tls_cells_are_unlocked s t; mret (Ret_bool b, s)
  end.

Fixpoint run (calls : list call) (s : ds) (t : nat)
    : result (list returned * ds) :=
  match calls with
  | [] => mret ([], s)
  | c :: rest =>
      '(r, s1) ← do_call s t c;
      '(rs, s2) ← run rest s1 t;
      mret (r :: rs, s2)
  end.

End Manager.

(** ** [class Simple_grid_locking_ds]: [tbb::atomic<bool>] slots *)

Module Simple_grid_locking_ds.

Definition t : Type := locking_ds bool unit.

Definition Simple_grid_locking_ds (bbox : Bbox_3) (num_grid_cells_per_axis : Z)
    : result t :=
  construct false tt bbox num_grid_cells_per_axis.

(** [try_lock(int cell_index)].  [compare_and_swap(true, false)] writes
    [true] when the slot holds [false] and returns what the slot held. *)
Definition try_lock (s : t) (th : nat) (cell_index : Z) : result (bool * t) :=
  held ← array_get (local_grid s th) cell_index;
  if held : bool then mret (true, s)
  else
    old_value ← array_get (m_grid s) cell_index;
    if old_value : bool then mret (false, s)
    else
      grid ← array_set (m_grid s) cell_index true;
      s' ← record_lock (set_grid s grid) th cell_index;
      mret (true, s').

(** [m_grid[cell_index] = false] *)
Definition release (th : nat) (slot : bool) : result bool := mret false.

Definition unlock : t -> nat -> Z -> result t := unlock release.
Definition try_lock_point : t -> nat -> P3 -> Z -> result ((bool * Z) * t) :=
  try_lock_point release try_lock.
Definition unlock_point : t -> nat -> P3 -> result t := unlock_point release.
Definition unlock_all_tls_locked_cells : t -> nat -> result t :=
  unlock_all_tls_locked_cells release.
Definition check_if_all_tls_cells_are_unlocked : t -> nat -> result bool :=
  check_if_all_tls_cells_are_unlocked.
Definition do_call : t -> nat -> call -> result (returned * t) :=
  do_call release try_lock.
Definition run : list call -> t -> nat -> result (list returned * t) :=
  run release try_lock.

End Simple_grid_locking_ds.

(** ** [class Simple_grid_locking_ds_with_thread_ids]: [tbb::atomic<unsigned int>] slots *)

Module Simple_grid_locking_ds_with_thread_ids.

(** Besides the members shared by the three classes: [m_tls_thread_ids],
    the function-local static [last_id] of its initializer, and what the
    other threads write to [m_grid] while this one is in
    [std::this_thread::yield()], one batch of (cell, value) writes for each
    yield to come.  Once the batches are used up no other thread runs
    any more. *)
Record extra : Type := Build_extra {
  m_tls_thread_ids : gmap nat Z;
  last_id : Z;
  other_threads : list (list (nat * Z))
}.

Definition t : Type := locking_ds Z extra.

Definition Simple_grid_locking_ds_with_thread_ids
    (static_last_id : Z) (others : list (list (nat * Z)))
    (bbox : Bbox_3) (num_grid_cells_per_axis : Z) : result t :=
  construct 0 (Build_extra ∅ static_last_id others) bbox num_grid_cells_per_axis.

(** [m_tls_thread_ids.local()]: on first use the initializer returns
    [++last_id]. *)
Definition local_thread_id (s : t) (th : nat) : Z * t :=
  match m_tls_thread_ids (m_extra s) !! th with
  | Some id => (id, s)
  | None =>
      let id := uint_incr (last_id (m_extra s)) in
      (id, set_extra s (Build_extra (<[th := id]> (m_tls_thread_ids (m_extra s)))
                          id (other_threads (m_extra s))))
  end.

Definition write_all (writes : list (nat * Z)) (grid : list Z) : list Z :=
  foldl (fun g w => <[w.1 := w.2]> g) grid writes.

(** [std::this_thread::yield()] with the batch [writes] of the other threads. *)
Definition yield (writes : list (nat * Z)) (rest : list (list (nat * Z))) (s : t) : t :=
  set_extra (set_grid s (write_all writes (m_grid s)))
    (Build_extra (m_tls_thread_ids (m_extra s)) (last_id (m_extra s)) rest).

(** The [do ... while (ret == false && old_value < this_thread_id)] loop.
    [compare_and_swap(this_thread_id, 0)] writes [this_thread_id] when the
    slot holds [0] and returns what the slot held. *)
Fixpoint try_lock_loop (pending : list (list (nat * Z))) (s : t) (th : nat)
    (cell_index this_thread_id : Z) : result (bool * t) :=
  old_value ← array_get (m_grid s) cell_index;
  if old_value =? 0 then
    grid ← array_set (m_grid s) cell_index this_thread_id;
    s' ← record_lock (set_grid s grid) th cell_index;
    mret (true, s')
  else
    match pending with
    | [] => if old_value <? this_thread_id then Spins else mret (false, s)
    | writes :: rest =>
        if old_value <? this_thread_id
        then try_lock_loop rest (yield writes rest s) th cell_index this_thread_id
        else mret (false, yield writes rest s)
    end.

(** [try_lock(int cell_index)] *)
Definition try_lock (s : t) (th : nat) (cell_index : Z) : result (bool * t) :=
  held ← array_get (local_grid s th) cell_index;
  if held : bool then mret (true, s)
  else
    let '(this_thread_id, s1) := local_thread_id s th in
    try_lock_loop (other_threads (m_extra s1)) s1 th cell_index this_thread_id.

(** [m_grid[cell_index] = 0] *)
Definition release (th : nat) (slot : Z) : result Z := mret 0.

Definition unlock : t -> nat -> Z -> result t := unlock release.
Definition try_lock_point : t -> nat -> P3 -> Z -> result ((bool * Z) * t) :=
  try_lock_point release try_lock.
Definition unlock_point : t -> nat -> P3 -> result t := unlock_point release.
Definition unlock_all_tls_locked_cells : t -> nat -> result t :=
  unlock_all_tls_locked_cells release.
Definition check_if_all_tls_cells_are_unlocked : t -> nat -> result bool :=
  check_if_all_tls_cells_are_unlocked.
Definition do_call : t -> nat -> call -> result (returned * t) :=
  do_call release try_lock.
Definition run : list call -> t -> nat -> result (list returned * t) :=
  run release try_lock.

End Simple_grid_locking_ds_with_thread_ids.

(** ** [class Simple_grid_locking_ds_with_mutex]: [tbb::recursive_mutex] slots *)

Module Simple_grid_locking_ds_with_mutex.

(** [tbb::recursive_mutex] is TBB's, not this repository's; it is modelled
    by its documented contract: free, or held by one thread that acquired
    it [depth] times; [try_lock] never blocks; [unlock] requires that the
    calling thread holds the mutex. *)
Inductive recursive_mutex : Type :=
  | Mutex_free
  | Mutex_held (owner : nat) (depth : nat).

Definition mutex_try_lock (th : nat) (m : recursive_mutex) : bool * recursive_mutex :=
  match m with
  | Mutex_free => (true, Mutex_held th 1)
  | Mutex_held owner depth =>
      if decide (owner = th) then (true, Mutex_held owner (S depth)) else (false, m)
  end.

Definition mutex_unlock (th : nat) (m : recursive_mutex) : result recursive_mutex :=
  match m with
  | Mutex_free => Undefined
  | Mutex_held owner depth =>
      if decide (owner = th)
      then mret (match depth with
                 | S (S d) => Mutex_held owner (S d)
                 | _ => Mutex_free
                 end)
      else Undefined
  end.

Definition t : Type := locking_ds recursive_mutex unit.

Definition Simple_grid_locking_ds_with_mutex
    (bbox : Bbox_3) (num_grid_cells_per_axis : Z) : result t :=
  construct Mutex_free tt bbox num_grid_cells_per_axis.

(** [try_lock(int cell_index)] *)
Definition try_lock (s : t) (th : nat) (cell_index : Z) : result (bool * t) :=
  held ← array_get (local_grid s th) cell_index;
  if held : bool then mret (true, s)
  else
    slot ← array_get (m_grid s) cell_index;
    let '(locked, slot') := mutex_try_lock th slot in
    if locked : bool then
      grid ← array_set (m_grid s) cell_index slot';
      s' ← record_lock (set_grid s grid) th cell_index;
      mret (true, s')
    else mret (false, s).

(** [m_grid[cell_index].unlock()] *)
Definition release (th : nat) (slot : recursive_mutex) : result recursive_mutex :=
  mutex_unlock th slot.

Definition unlock : t -> nat -> Z -> result t := unlock release.
Definition try_lock_point : t -> nat -> P3 -> Z -> result ((bool * Z) * t) :=
  try_lock_point release try_lock.
Definition unlock_point : t -> nat -> P3 -> result t := unlock_point release.
Definition unlock_all_tls_locked_cells : t -> nat -> result t :=
  unlock_all_tls_locked_cells release.
Definition check_if_all_tls_cells_are_unlocked : t -> nat -> result bool :=
  check_if_all_tls_cells_are_unlocked.
Definition do_call : t -> nat -> call -> result (returned * t) :=
  do_call release try_lock.
Definition run : list call -> t -> nat -> result (list returned * t) :=
  run release try_lock.

End Simple_grid_locking_ds_with_mutex.

(** ** Managers and points of the examples *)

Module B := Simple_grid_locking_ds.
Module I := Simple_grid_locking_ds_with_thread_ids.
Module M := Simple_grid_locking_ds_with_mutex.

(** The box [0,1]^3 and the box [0,10]^3. *)
Definition unit_box : Bbox_3 :=
  Build_Bbox_3 (d_make 0 0) (d_make 0 0) (d_make 0 0)
               (d_make 1 0) (d_make 1 0) (d_make 1 0).

Definition box_10 : Bbox_3 :=
  Build_Bbox_3 (d_make 0 0) (d_make 0 0) (d_make 0 0)
               (d_make 10 0) (d_make 10 0) (d_make 10 0).

(** The points (5.5, 5.5, 5.5) and (5.5, 5.5, 6.5). *)
Definition point_555 : P3 :=
  Build_P3 (d_make 11 (-1)) (d_make 11 (-1)) (d_make 11 (-1)).

Definition point_655 : P3 :=
  Build_P3 (d_make 11 (-1)) (d_make 11 (-1)) (d_make 13 (-1)).

(** The manager of [unit_box] with one cell per axis, after thread [th]
    locked its only cell. *)
Definition one_cell_held_by (th : nat) : B.t :=
  Build_locking_ds 1 (d_make 0 0) (d_make 0 0) (d_make 0 0)
    (d_make 1 0) (d_make 1 0) (d_make 1 0)
    [true] {[th := [true]]} {[th := [0]]} tt.

(** The final state of a run, [d] when the run does not return. *)
Definition state_after {A S : Type} (r : result (A * S)) (d : S) : S :=
  match r with
  | Done (_, s) => s
  | _ => d
  end.

(** The manager of [box_10] with ten cells per axis, as constructed. *)
Definition fresh_10 : B.t :=
  Build_locking_ds 10 (d_make 0 0) (d_make 0 0) (d_make 0 0)
    (d_make 1 0) (d_make 1 0) (d_make 1 0)
    (replicate 1000 false) ∅ ∅ tt.

(** [fresh_10] after thread 0 locked the 27 cells around (5.5, 5.5, 5.5). *)
Definition region_555_held_by_0 : B.t :=
  state_after (B.try_lock_point fresh_10 0%nat point_555 1) fresh_10.

(** A box without extent along x. *)
Definition flat_box : Bbox_3 :=
  Build_Bbox_3 (d_make 0 0) (d_make 0 0) (d_make 0 0)
               (d_make 0 0) (d_make 10 0) (d_make 10 0).

Definition is_zero (d : double) : bool :=
  match d with
  | S754_zero _ => true
  | _ => false
  end.

(** Some axis of the box has zero extent. *)
Definition zero_extent (bbox : Bbox_3) : bool :=
  is_zero (d_sub (xmax bbox) (xmin bbox))
  || is_zero (d_sub (ymax bbox) (ymin bbox))
  || is_zero (d_sub (zmax bbox) (zmin bbox)).

(** The owner-id manager of [unit_box] with one cell per axis, created
    when no thread has an id yet and no other thread will write the table
    during a yield; then thread 0 locks the cell (and gets id 1). *)
Definition ids_fresh_1 : I.t :=
  state_after
    (s ← I.Simple_grid_locking_ds_with_thread_ids 0 [] unit_box 1; mret (tt, s))
    (Build_locking_ds 0 S754_nan S754_nan S754_nan S754_nan S754_nan S754_nan
       [] ∅ ∅ (I.Build_extra ∅ 0 [])).

Definition ids_held_by_first : I.t :=
  state_after (I.try_lock ids_fresh_1 0%nat 0) ids_fresh_1.

(** Thread 0 locks and unlocks the cell (id 1), then thread 1 locks it
    (id 2). *)
Definition ids_held_by_second : I.t :=
  state_after
    (s1 ← I.unlock ids_held_by_first 0%nat 0; I.try_lock s1 1%nat 0)
    ids_fresh_1.

(** ** The ledger of a thread

    What the bitmap and the vector of thread [th] satisfy between calls:
    both arrays have one entry per cell, every recorded cell is a cell of
    the grid, and every cell whose bit is set is recorded in the vector. *)
Definition ledger_inv {cell extra : Type} (s : locking_ds cell extra) (th : nat) : Prop :=
  length (local_grid s th) = length (m_grid s)
  /\ length (m_grid s) = Z.to_nat (num_cells s)
  /\ (forall c, c ∈ local_locked_cells s th ->
                0 <= c /\ (Z.to_nat c < length (m_grid s))%nat)
  /\ (forall i, local_grid s th !! i = Some true ->
                Z.of_nat i ∈ local_locked_cells s th).

(** ** Comparing the three classes

    [common s] keeps the members that the three classes declare alike: the
    grid parameters and the two thread-local members; the table and the
    owner-id members are dropped. *)
Definition common {cell extra : Type} (s : locking_ds cell extra) : locking_ds unit unit :=
  Build_locking_ds (m_num_grid_cells_per_axis s)
    (m_xmin s) (m_ymin s) (m_zmin s)
    (m_resolution_x s) (m_resolution_y s) (m_resolution_z s)
    [] (m_tls_grids s) (m_tls_locked_cells s) tt.

(** What a client sees of a run: how it ends, what the calls returned and
    the members of [common] (so the cells each thread holds). *)
Definition observe {cell extra : Type}
    (r : result (list returned * locking_ds cell extra))
    : result (list returned * locking_ds unit unit) :=
  '(rets, s) ← r; mret (rets, common s).

(** The precondition of [unlock]: in the run of [calls] by thread [th] from
    [s], no [unlock] is called for a cell whose bit in the caller's bitmap
    is clear. *)
Definition unlock_allowed (s : B.t) (th : nat) (c : call) : bool :=
  match c with
  | Call_unlock cell_index =>
      match array_get (local_grid s th) cell_index with
      | Done false => false
      | _ => true
      end
  | Call_unlock_point point =>
      match point_index s point with
      | Done cell_index =>
          match array_get (local_grid s th) cell_index with
          | Done false => false
          | _ => true
          end
      | _ => true
      end
  | _ => true
  end.

Fixpoint unlocks_held_cells (calls : list call) (s : B.t) (th : nat) : bool :=
  match calls with
  | [] => true
  | c :: rest =>
      unlock_allowed s th c
      && match B.do_call s th c with
         | Done (_, s') => unlocks_held_cells rest s' th
         | _ => true
         end
  end.

(** The states of [Simple_grid_locking_ds] and of another class correspond
    when only thread [th] has used the managers: the common members are
    equal, a slot of the boolean table is set exactly when the bit of [th]
    is, and the other table holds [enc b] where the boolean table holds [b]. *)
Definition corresponds {cell extra : Type} (enc : bool -> cell) (Q : extra -> Prop)
    (th : nat) (sb : B.t) (sx : locking_ds cell extra) : Prop :=
  common sb = common sx
  /\ m_grid sb = local_grid sb th
  /\ m_grid sx = enc <$> m_grid sb
  /\ Q (m_extra sx).

Definition corresponds_result {cell extra : Type} {A : Type}
    (enc : bool -> cell) (Q : extra -> Prop) (th : nat)
    (rb : result (A * B.t)) (rx : result (A * locking_ds cell extra)) : Prop :=
  match rb, rx with
  | Done (a, sb), Done (a', sx) => a = a' /\ corresponds enc Q th sb sx
  | Undefined, Undefined => True
  | _, _ => False
  end.

Definition corresponds_state {cell extra : Type}
    (enc : bool -> cell) (Q : extra -> Prop) (th : nat)
    (rb : result B.t) (rx : result (locking_ds cell extra)) : Prop :=
  match rb, rx with
  | Done sb, Done sx => corresponds enc Q th sb sx
  | Undefined, Undefined => True
  | _, _ => False
  end.

(** The slot of the owner-id class for a boolean slot, [me] the owner. *)
Definition owner_slot (me : Z) (b : bool) : Z := if b then me else 0.

(** The slot of the mutex class for a boolean slot, [th] the owner. *)
Definition mutex_slot (th : nat) (b : bool) : M.recursive_mutex :=
  if b then M.Mutex_held th 1 else M.Mutex_free.

(** Thread [th] has, or will get at its first use, the id [me]. *)
Definition has_id (me : Z) (th : nat) (e : I.extra) : Prop :=
  match I.m_tls_thread_ids e !! th with
  | Some id => id = me
  | None => uint_incr (I.last_id e) = me
  end.

(** The owner-id manager and the mutex manager of [box_10] with ten cells
    per axis, as constructed (no id given out yet, no other thread). *)
Definition fresh_ids_10 : I.t :=
  Build_locking_ds 10 (d_make 0 0) (d_make 0 0) (d_make 0 0)
    (d_make 1 0) (d_make 1 0) (d_make 1 0)
    (replicate 1000 0) ∅ ∅ (I.Build_extra ∅ 0 []).

Definition fresh_mutex_10 : M.t :=
  Build_locking_ds 10 (d_make 0 0) (d_make 0 0) (d_make 0 0)
    (d_make 1 0) (d_make 1 0) (d_make 1 0)
    (replicate 1000 M.Mutex_free) ∅ ∅ tt.

(** A client: lock a cell, lock a region, lock the cell again, unlock it,
    check, release everything, check again. *)
Definition example_calls : list call :=
  [Call_try_lock 5; Call_try_lock_point point_555 1; Call_try_lock 5;
   Call_unlock 5; Call_check_if_all_tls_cells_are_unlocked;
   Call_unlock_all_tls_locked_cells; Call_check_if_all_tls_cells_are_unlocked].

(** A manager on which region locking stays within the arrays: between 1
    and 1290 cells per axis (so that [n^3] is an [int]), a table of [n^3]
    slots and a bitmap of thread [th] of the same length. *)
Definition well_formed {cell extra : Type} (s : locking_ds cell extra) (th : nat) : Prop :=
  1 <= m_num_grid_cells_per_axis s <= 1290
  /\ length (m_grid s)
     = Z.to_nat (m_num_grid_cells_per_axis s * m_num_grid_cells_per_axis s
                 * m_num_grid_cells_per_axis s)
  /\ length (local_grid s th) = length (m_grid s).

(** ** Several threads

    An interleaving of whole calls: each call is run by the thread it is
    paired with. *)
Fixpoint run_threads {cell extra : Type}
    (release : nat -> cell -> result cell)
    (try_lock : locking_ds cell extra -> nat -> Z -> result (bool * locking_ds cell extra))
    (calls : list (nat * call)) (s : locking_ds cell extra)
    : result (list returned * locking_ds cell extra) :=
  match calls with
  | [] => mret ([], s)
  | (th, c) :: rest =>
      '(r, s1) ← do_call release try_lock s th c;
      '(rs, s2) ← run_threads release try_lock rest s1;
      mret (r :: rs, s2)
  end.

(** In the interleaving [calls] from [s], no thread calls [unlock] for a
    cell whose bit in its own bitmap is clear. *)
Fixpoint threads_unlock_held (calls : list (nat * call)) (s : B.t) : bool :=
  match calls with
  | [] => true
  | (th, c) :: rest =>
      unlock_allowed s th c
      && match B.do_call s th c with
         | Done (_, s') => threads_unlock_held rest s'
         | _ => true
         end
  end.

(** Thread [th] holds the cell of index [i]: its bit is set. *)
Definition holds {cell extra : Type} (s : locking_ds cell extra) (th i : nat) : Prop :=
  local_grid s th !! i = Some true.

(** Mutual exclusion on the boolean table: the slot of a held cell is set,
    and no cell is held by two threads. *)
Definition exclusive (s : B.t) : Prop :=
  (forall th i, holds s th i -> m_grid s !! i = Some true)
  /\ (forall th u i, holds s th i -> holds s u i -> th = u).

(** What a call of thread [th] may change: neither the number of cells per
    axis nor the length of an array, and no thread-local member of another
    thread. *)
Definition evolves {cell extra : Type} (th : nat) (s s' : locking_ds cell extra) : Prop :=
  m_num_grid_cells_per_axis s' = m_num_grid_cells_per_axis s
  /\ length (m_grid s') = length (m_grid s)
  /\ (forall u, length (local_grid s' u) = length (local_grid s u))
  /\ (forall u, u <> th ->
        local_grid s' u = local_grid s u
        /\ local_locked_cells s' u = local_locked_cells s u).

(** The manager after thread [th] acquired the free cell [c]. *)
Definition acquired (s : B.t) (th : nat) (c : Z) : B.t :=
  set_tls_locked_cells
    (set_tls_grids (set_grid s (<[Z.to_nat c := true]> (m_grid s)))
       (<[th := <[Z.to_nat c := true]> (local_grid s th)]> (m_tls_grids s)))
    (<[th := local_locked_cells s th ++ [c]]> (m_tls_locked_cells s)).

(** The manager after thread [th] called [unlock] for the cell [c]. *)
Definition unlocked (s : B.t) (th : nat) (c : Z) : B.t :=
  set_tls_grids (set_grid s (<[Z.to_nat c := false]> (m_grid s)))
    (<[th := <[Z.to_nat c := false]> (local_grid s th)]> (m_tls_grids s)).

(** The arrays of a manager have one entry per cell. *)
Definition sized {cell extra : Type} (s : locking_ds cell extra) : Prop :=
  length (m_grid s) = Z.to_nat (num_cells s)
  /\ forall u, length (local_grid s u) = Z.to_nat (num_cells s).

(** Two threads on [fresh_10]: thread 0 locks the region around
    (5.5, 5.5, 5.5), thread 1 fails on the overlapping region around
    (5.5, 5.5, 6.5), thread 0 releases everything, thread 1 tries again,
    unlocks the cell of its point, and thread 0 checks. *)
Definition two_thread_calls : list (nat * call) :=
  [(0%nat, Call_try_lock_point point_555 1);
   (1%nat, Call_try_lock_point point_655 1);
   (0%nat, Call_unlock_all_tls_locked_cells);
   (1%nat, Call_try_lock_point point_655 1);
   (1%nat, Call_unlock 655);
   (0%nat, Call_check_if_all_tls_cells_are_unlocked)].

(** The same for the owner-id class, where a thread never fails on a
    holder of a lower id: thread 1 makes the first call and gets the lower
    id, so that its region call fails on the cells of thread 0. *)
Definition ids_thread_calls : list (nat * call) :=
  (1%nat, Call_try_lock 0) :: two_thread_calls.

(** Thread 0 locks and unlocks cell 5, which leaves the index 5 in its
    vector; then thread 1 locks cell 5. *)
Definition stale_index_calls : list (nat * call) :=
  [(0%nat, Call_try_lock 5); (0%nat, Call_unlock 5); (1%nat, Call_try_lock 5)].

(** The precondition of [unlock] for any of the three classes, as a
    test on the caller's bitmap ([unlock_allowed] for [Simple_grid_locking_ds]). *)
Definition may_unlock {cell extra : Type} (s : locking_ds cell extra)
    (th : nat) (c : call) : bool :=
  match c with
  | Call_unlock cell_index =>
      match array_get (local_grid s th) cell_index with
      | Done false => false
      | _ => true
      end
  | Call_unlock_point point =>
      match point_index s point with
      | Done cell_index =>
          match array_get (local_grid s th) cell_index with
          | Done false => false
          | _ => true
          end
      | _ => true
      end
  | _ => true
  end.

Fixpoint unlock_held_only {cell extra : Type}
    (release : nat -> cell -> result cell)
    (try_lock : locking_ds cell extra -> nat -> Z -> result (bool * locking_ds cell extra))
    (calls : list (nat * call)) (s : locking_ds cell extra) : bool :=
  match calls with
  | [] => true
  | (th, c) :: rest =>
      may_unlock s th c
      && match do_call release try_lock s th c with
         | Done (_, s') => unlock_held_only release try_lock rest s'
         | _ => true
         end
  end.

(** The caller holds the cell that the call unlocks. *)
Definition unlocks_own_cell {cell extra : Type} (s : locking_ds cell extra)
    (th : nat) (c : call) : Prop :=
  match c with
  | Call_unlock cell_index => holds s th (Z.to_nat cell_index)
  | Call_unlock_point point =>
      forall cell_index, point_index s point = Done cell_index ->
                         holds s th (Z.to_nat cell_index)
  | _ => True
  end.

(** Mutual exclusion on the owner-id table, when every thread that uses the
    manager is a thread of the interleaving (no write of another thread
    during a yield) and [base] was the last id given out before the
    manager was made: the ids given out are [base + 1 .. last_id], no two
    threads have the same one, the slot of a held cell is the id of its
    holder, and a slot that is not [0] is the id of a thread that holds the
    cell. *)
Definition ids_exclusive (base : Z) (s : I.t) : Prop :=
  I.other_threads (m_extra s) = []
  /\ I.last_id (m_extra s) = base + Z.of_nat (size (I.m_tls_thread_ids (m_extra s)))
  /\ (forall th id, I.m_tls_thread_ids (m_extra s) !! th = Some id ->
                    base < id <= I.last_id (m_extra s))
  /\ (forall th u id, I.m_tls_thread_ids (m_extra s) !! th = Some id ->
                      I.m_tls_thread_ids (m_extra s) !! u = Some id -> th = u)
  /\ (forall th i, holds s th i ->
         exists id, I.m_tls_thread_ids (m_extra s) !! th = Some id
                    /\ m_grid s !! i = Some id)
  /\ (forall i id, m_grid s !! i = Some id -> id <> 0 ->
         exists th, I.m_tls_thread_ids (m_extra s) !! th = Some id /\ holds s th i).

(** The counter of thread ids has not wrapped around. *)
Definition ids_not_wrapped (base : Z) (s : I.t) : Prop :=
  base + Z.of_nat (size (I.m_tls_thread_ids (m_extra s))) < 2 ^ 32.

(** ** Threads of [Simple_grid_locking_ds_with_thread_ids] that wait

    [run_threads] runs every call as a whole, so a call that has to wait
    for another thread never returns in it.  Here the threads take turns
    at the calls and at [std::this_thread::yield()]: a thread that yields
    stays in the loop of [try_lock(int)] with its locals, the other threads
    go on, and when its turn comes again it runs the loop test and, if the
    loop goes on, the body once more.  All the threads that use the manager
    are threads of the system. *)

(** Who called [try_lock(int)]: a client; [try_lock(point, 0)], which
    returns [make_pair(try_lock(index), index)]; or the loops of
    [try_lock(point, lock_radius)], with the cells still to visit,
    [locked_cells_tmp] and [index]. *)
Inductive caller : Type :=
  | From_client
  | From_point (index : Z)
  | From_region (rest locked_cells_tmp : list Z) (index : Z).

(** A thread in [yield()]: the locals of [try_lock(int)] and its caller. *)
Record waiting : Type := Build_waiting {
  w_cell_index : Z;
  w_this_thread_id : Z;
  w_old_value : Z;
  w_caller : caller
}.

Inductive outcome : Type :=
  | Returned (r : returned)
  | Yielded (w : waiting).

(** The body of the [do ... while] loop up to the call of [yield()]:
    [None] when the cell was acquired, the value read otherwise. *)
Definition try_lock_pass (s : I.t) (th : nat) (cell_index this_thread_id : Z)
    : result (option Z * I.t) :=
  old_value ← array_get (m_grid s) cell_index;
  if old_value =? 0 then
    grid ← array_set (m_grid s) cell_index this_thread_id;
    s' ← record_lock (set_grid s grid) th cell_index;
    mret (None, s')
  else mret (Some old_value, s).

(** [try_lock(int)] up to its return ([None], it returns [true]) or to its
    first [yield()] (the thread's id and the value read). *)
Definition try_lock_enter (s : I.t) (th : nat) (cell_index : Z)
    : result (option (Z * Z) * I.t) :=
  held ← array_get (local_grid s th) cell_index;
  if held : bool then mret (None, s)
  else
    let '(this_thread_id, s1) := I.local_thread_id s th in
    '(old_value, s2) ← try_lock_pass s1 th cell_index this_thread_id;
    mret (pair this_thread_id <$> old_value, s2).

(** The body of the nested loops of [try_lock(point, lock_radius)], over
    the cells still to visit, up to the return or to the next [yield()]. *)
Fixpoint lock_cells_from (cells locked_cells_tmp : list Z) (index : Z)
    (s : I.t) (th : nat) : result (outcome * I.t) :=
  match cells with
  | [] => mret (Returned (Ret_pair true index), s)
  | index_to_lock :: rest =>
      '(r, s1) ← try_lock_enter s th index_to_lock;
      match r with
      | None => lock_cells_from rest (locked_cells_tmp ++ [index_to_lock]) index s1 th
      | Some (this_thread_id, old_value) =>
          mret (Yielded (Build_waiting index_to_lock this_thread_id old_value
                           (From_region rest locked_cells_tmp index)), s1)
      end
  end.

(** [try_lock(cell_index)] returns [ret] to its caller. *)
Definition try_lock_returns (ret : bool) (from : caller) (cell_index : Z)
    (s : I.t) (th : nat) : result (outcome * I.t) :=
  match from with
  | From_client => mret (Returned (Ret_bool ret), s)
  | From_point index => mret (Returned (Ret_pair ret index), s)
  | From_region rest locked_cells_tmp index =>
      if ret
      then lock_cells_from rest (locked_cells_tmp ++ [cell_index]) index s th
      else s' ← unlock_each I.release locked_cells_tmp s th;
           mret (Returned (Ret_pair false index), s')
  end.

(** The thread comes back from [yield()]: the loop test
    [ret == false && old_value < this_thread_id] ([ret] is [false] in a
    thread that yielded), then the body or the return of [false]. *)
Definition resume (s : I.t) (th : nat) (w : waiting) : result (outcome * I.t) :=
  if w_old_value w <? w_this_thread_id w then
    '(old_value, s1) ← try_lock_pass s th (w_cell_index w) (w_this_thread_id w);
    match old_value with
    | None => try_lock_returns true (w_caller w) (w_cell_index w) s1 th
    | Some v =>
        mret (Yielded (Build_waiting (w_cell_index w) (w_this_thread_id w) v
                         (w_caller w)), s1)
    end
  else try_lock_returns false (w_caller w) (w_cell_index w) s th.

(** A call, up to its return or to its first [yield()].  The calls other
    than the two [try_lock] never yield. *)
Definition begin_call (s : I.t) (th : nat) (c : call) : result (outcome * I.t) :=
  match c with
  | Call_try_lock cell_index =>
      '(r, s1) ← try_lock_enter s th cell_index;
      mret (match r with
            | None => Returned (Ret_bool true)
            | Some (this_thread_id, old_value) =>
                Yielded (Build_waiting cell_index this_thread_id old_value From_client)
            end, s1)
  | Call_try_lock_point point lock_radius =>
      '(index_x, index_y, index_z) ← point_indices s point;
      let index := cell_index (m_num_grid_cells_per_axis s) index_x index_y index_z in
      if lock_radius =? 0 then
        '(r, s1) ← try_lock_enter s th index;
        mret (match r with
              | None => Returned (Ret_pair true index)
              | Some (this_thread_id, old_value) =>
                  Yielded (Build_waiting index this_thread_id old_value (From_point index))
              end, s1)
      else
        lock_cells_from
          (region_cells (m_num_grid_cells_per_axis s) index_x index_y index_z lock_radius)
          [] index s th
  | _ => '(r, s') ← I.do_call s th c; mret (Returned r, s')
  end.

(** The manager, the threads that are in [yield()], the calls each thread
    has still to make, and what the calls returned so far, to whom. *)
Record system : Type := Build_system {
  shared : I.t;
  waiting_threads : gmap nat waiting;
  programs : gmap nat (list call);
  returns : list (nat * returned)
}.

Definition settle (th : nat) (o : outcome) (s : I.t) (w : gmap nat waiting)
    (p : gmap nat (list call)) (r : list (nat * returned)) : system :=
  match o with
  | Returned v => Build_system s (delete th w) p (r ++ [(th, v)])
  | Yielded y => Build_system s (<[th := y]> w) p r
  end.

(** A turn of thread [th]: it comes back from [yield()], or makes its next
    call, or has nothing left to do. *)
Definition turn (th : nat) (sys : system) : result system :=
  match waiting_threads sys !! th with
  | Some w =>
      '(o, s) ← resume (shared sys) th w;
      mret (settle th o s (waiting_threads sys) (programs sys) (returns sys))
  | None =>
      match programs sys !! th with
      | Some (c :: rest) =>
          '(o, s) ← begin_call (shared sys) th c;
          mret (settle th o s (waiting_threads sys) (<[th := rest]> (programs sys))
                  (returns sys))
      | _ => mret sys
      end
  end.

Fixpoint run_schedule (schedule : list nat) (sys : system) : result system :=
  match schedule with
  | [] => mret sys
  | th :: rest => sys' ← turn th sys; run_schedule rest sys'
  end.

(** The precondition of [unlock] along a schedule: no thread calls
    [unlock] for a cell whose bit in its own bitmap is clear. *)
Definition turn_allowed (th : nat) (sys : system) : bool :=
  match waiting_threads sys !! th, programs sys !! th with
  | None, Some (c :: _) => may_unlock (shared sys) th c
  | _, _ => true
  end.

Fixpoint schedule_unlocks_held (schedule : list nat) (sys : system) : bool :=
  match schedule with
  | [] => true
  | th :: rest =>
      turn_allowed th sys
      && match turn th sys with
         | Done sys' => schedule_unlocks_held rest sys'
         | _ => true
         end
  end.

Definition system_after (r : result system) (d : system) : system :=
  match r with
  | Done sys => sys
  | _ => d
  end.

(** What a turn of thread [th] leaves as it is: the bitmaps of the other
    threads and the ids given out. *)
Definition keeps_others (th : nat) (s s' : I.t) : Prop :=
  (forall u, u <> th -> local_grid s' u = local_grid s u)
  /\ I.m_tls_thread_ids (m_extra s) ⊆ I.m_tls_thread_ids (m_extra s').

(** A thread in [yield()] knows its id, and it holds the cells of
    [locked_cells_tmp]. *)
Definition waiting_ok (s : I.t) (th : nat) (w : waiting) : Prop :=
  I.m_tls_thread_ids (m_extra s) !! th = Some (w_this_thread_id w)
  /\ match w_caller w with
     | From_region _ locked_cells_tmp _ =>
         forall c, c ∈ locked_cells_tmp -> holds s th (Z.to_nat c)
     | _ => True
     end.

Definition system_exclusive (base : Z) (sys : system) : Prop :=
  ids_exclusive base (shared sys)
  /\ forall th w, waiting_threads sys !! th = Some w -> waiting_ok (shared sys) th w.

(** The point (4.5, 5.5, 5.5), of index 554. *)
Definition point_455 : P3 :=
  Build_P3 (d_make 9 (-1)) (d_make 11 (-1)) (d_make 11 (-1)).

(** Thread 0 locks the region around (5.5, 5.5, 5.5), unlocks cell 555
    and releases everything; thread 1 locks the region around
    (4.5, 5.5, 5.5), which shares the cells of x index 4 and 5 with the
    other. *)
Definition waiting_programs : gmap nat (list call) :=
  {[ 0%nat := [Call_try_lock_point point_555 1; Call_unlock 555;
               Call_unlock_all_tls_locked_cells];
     1%nat := [Call_try_lock_point point_455 1] ]}.

(** Thread 0 locks; thread 1 locks the nine cells of x index 3 and yields
    at cell 444, and again when its turn comes; thread 0 unlocks cell 555;
    thread 1 yields once more; thread 0 releases the rest; thread 1 goes
    on to the end of its region. *)
Definition waiting_schedule : list nat := [0; 1; 1; 0; 1; 0; 1]%nat.

Definition fresh_system (s : I.t) (p : gmap nat (list call)) : system :=
  Build_system s ∅ p [].

(** A point far from the box: (2^40, 5.5, 5.5). *)
Definition far_point : P3 :=
  Build_P3 (d_make 1 40) (d_make 11 (-1)) (d_make 11 (-1)).

(** Mutual exclusion on the mutex table: a mutex is held by the thread
    whose bit is set, and it has been acquired once. *)
Definition mutex_exclusive (s : M.t) : Prop :=
  (forall th i, holds s th i -> m_grid s !! i = Some (M.Mutex_held th 1))
  /\ (forall i th depth, m_grid s !! i = Some (M.Mutex_held th depth) ->
         depth = 1%nat /\ holds s th i).

(** Arithmetic is unfolded on request only. *)
Arguments wrap_int : simpl never.
Arguments int_add : simpl never.
Arguments int_sub : simpl never.
Arguments int_mul : simpl never.
Arguments num_cells_of : simpl never.
Arguments cell_index : simpl never.
Arguments axis_index : simpl never.
Arguments axis_range : simpl never.
Arguments region_cells : simpl never.
Arguments static_cast_int : simpl never.
Arguments d_sub : simpl never.
Arguments d_mul : simpl never.
Arguments d_div : simpl never.
Arguments d_make : simpl never.
Arguments double_of_int : simpl never.

(** * Properties *)

(** ** The outcome monad and arrays *)

Lemma bind_Done {A B : Type} (m : result A) (f : A -> result B) (b : B) :
  m ≫= f = Done b -> exists a, m = Done a /\ f a = Done b.
Proof. destruct m; simpl; intros H; try discriminate; eauto. Qed.

Lemma Done_inj {A : Type} (a b : A) : Done a = Done b -> a = b.
Proof. intros H. congruence. Qed.

Lemma array_get_Done {A : Type} (a : list A) (i : Z) (v : A) :
  array_get a i = Done v <-> 0 <= i /\ a !! Z.to_nat i = Some v.
Proof.
  unfold array_get. destruct (Z.ltb_spec i 0).
  - split; [discriminate | lia].
  - destruct (a !! Z.to_nat i) eqn:E; split.
    + intros [= ->]. auto.
    + intros [_ [= ->]]. reflexivity.
    + discriminate.
    + intros [_ ?]. discriminate.
Qed.

Lemma array_set_Done {A : Type} (a a' : list A) (i : Z) (v : A) :
  array_set a i v = Done a' <->
  0 <= i /\ (Z.to_nat i < length a)%nat /\ a' = <[Z.to_nat i := v]> a.
Proof.
  unfold array_set. destruct (Z.ltb_spec i 0).
  - split; [discriminate | lia].
  - destruct (a !! Z.to_nat i) eqn:E; split.
    + intros [= <-]. apply lookup_lt_Some in E. auto.
    + intros (_ & _ & ->). reflexivity.
    + discriminate.
    + intros (_ & Hlt & _). apply lookup_ge_None in E. lia.
Qed.

Lemma array_set_get {A : Type} (a : list A) (i : Z) (v w : A) :
  array_get a i = Done w -> array_set a i v = Done (<[Z.to_nat i := v]> a).
Proof.
  intros [H0 Hl]%array_get_Done. apply array_set_Done.
  apply lookup_lt_Some in Hl. auto.
Qed.

Lemma array_get_same_length {A B : Type} (a : list A) (b : list B) (i : Z) :
  length a = length b ->
  (exists v, array_get a i = Done v) \/ (array_get a i = Undefined /\ array_get b i = Undefined).
Proof.
  intros Hlen. unfold array_get. destruct (i <? 0); [right; auto|].
  destruct (a !! Z.to_nat i) eqn:Ea; [left; eauto|].
  right. split; [reflexivity|].
  apply lookup_ge_None in Ea. rewrite Hlen in Ea. apply lookup_ge_None in Ea.
  rewrite Ea. reflexivity.
Qed.

(** ** Thread-local members after an update *)

Section Locals.
Context {cell extra : Type}.
Implicit Types s : locking_ds cell extra.

Lemma local_grid_set_grid s g th : local_grid (set_grid s g) th = local_grid s th.
Proof. reflexivity. Qed.

Lemma local_grid_set_tls_grids s m th u l :
  local_grid (set_tls_grids s (<[th := l]> m)) u
  = if decide (th = u) then l
    else default (replicate (Z.to_nat (num_cells s)) false) (m !! u).
Proof.
  unfold local_grid; simpl. rewrite lookup_insert.
  destruct (decide (th = u)); reflexivity.
Qed.

Lemma local_locked_cells_set s m th u l :
  local_locked_cells (set_tls_locked_cells s (<[th := l]> m)) u
  = if decide (th = u) then l else default [] (m !! u).
Proof.
  unfold local_locked_cells; simpl. rewrite lookup_insert.
  destruct (decide (th = u)); reflexivity.
Qed.

Lemma local_grid_set_tls_locked_cells s m u :
  local_grid (set_tls_locked_cells s m) u = local_grid s u.
Proof. reflexivity. Qed.

End Locals.

(** ** Single-cell locking in [Simple_grid_locking_ds] *)

(** [one_cell_held_by 0] is the state reached by constructing the manager
    and locking cell 0 as thread 0. *)
Lemma one_cell_held_by_reached :
  (s ← B.Simple_grid_locking_ds unit_box 1;
   '(_, s') ← B.try_lock s 0%nat 0; mret s') = Done (one_cell_held_by 0).
Proof. vm_compute. reflexivity. Qed.

Lemma try_lock_held (s : B.t) (th : nat) (c : Z) :
  array_get (local_grid s th) c = Done true -> B.try_lock s th c = Done (true, s).
Proof. intros H. unfold B.try_lock. rewrite H. reflexivity. Qed.

(** C4.  A thread whose ledger bit for [c] is set may call [try_lock(c)]
    any number of times: every call returns [true] and the manager (the
    shared table, the bitmap and the locked-cell vector of every thread)
    is left as it was. *)
Theorem try_lock_reentrant (s : B.t) (th : nat) (c : Z) (n : nat) :
  array_get (local_grid s th) c = Done true ->
  B.run (replicate n (Call_try_lock c)) s th
  = Done (replicate n (Ret_bool true), s).
Proof.
  intros Hheld. induction n as [|n IH]; [reflexivity|].
  cbn [replicate]. unfold B.run in *. cbn [run do_call].
  rewrite (try_lock_held s th c Hheld). cbn. rewrite IH. reflexivity.
Qed.

Lemma try_lock_reentrant_witness :
  B.run (replicate 3 (Call_try_lock 0)) (one_cell_held_by 0) 0%nat
  = Done (replicate 3 (Ret_bool true), one_cell_held_by 0).
Proof. apply (try_lock_reentrant (one_cell_held_by 0) 0%nat 0 3). reflexivity. Defined.

(** C7.  A single-cell [try_lock] that returns [false] has changed
    nothing: the manager after the call is the manager before it, so the
    slot, the caller's bitmap and the caller's vector are as they were. *)
Theorem try_lock_failure_changes_nothing (s s' : B.t) (th : nat) (c : Z) :
  array_get (local_grid s th) c = Done false ->
  B.try_lock s th c = Done (false, s') ->
  s' = s /\ m_grid s' = m_grid s /\ local_grid s' th = local_grid s th
  /\ local_locked_cells s' th = local_locked_cells s th.
Proof.
  intros Hfree. unfold B.try_lock. rewrite Hfree. cbn.
  destruct (array_get (m_grid s) c) as [[|] | | |] eqn:Hslot; cbn; try discriminate.
  - intros [= <-]. auto.
  - destruct (array_set (m_grid s) c true); cbn; try discriminate.
    destruct (record_lock _ _ _); cbn; discriminate.
Qed.

(** Thread 1 asks for the cell that thread 0 holds. *)
Lemma try_lock_failure_changes_nothing_witness :
  one_cell_held_by 0 = one_cell_held_by 0
  /\ m_grid (one_cell_held_by 0) = m_grid (one_cell_held_by 0)
  /\ local_grid (one_cell_held_by 0) 1%nat = local_grid (one_cell_held_by 0) 1%nat
  /\ local_locked_cells (one_cell_held_by 0) 1%nat
     = local_locked_cells (one_cell_held_by 0) 1%nat.
Proof.
  apply (try_lock_failure_changes_nothing (one_cell_held_by 0) (one_cell_held_by 0) 1%nat 0);
    reflexivity.
Defined.

(** C10.  [unlock(cell_index)] looks at neither the slot nor the caller's
    bit: whatever they hold, the slot becomes free and the caller's bit is
    cleared, and nothing else changes.  The bit of a thread [u] that holds
    the cell stays set, so [u]'s lock is released behind its back. *)
Theorem unlock_checks_no_owner (s : B.t) (th : nat) (c : Z) (slot bit : bool) :
  array_get (m_grid s) c = Done slot ->
  array_get (local_grid s th) c = Done bit ->
  exists s', B.unlock s th c = Done s'
    /\ array_get (m_grid s') c = Done false
    /\ array_get (local_grid s' th) c = Done false
    /\ m_grid s' = <[Z.to_nat c := false]> (m_grid s)
    /\ (forall u, u <> th -> local_grid s' u = local_grid s u)
    /\ (forall u, local_locked_cells s' u = local_locked_cells s u).
Proof.
  intros Hslot Hbit. unfold B.unlock, unlock. rewrite Hslot. cbn.
  rewrite (array_set_get _ _ false _ Hslot). cbn.
  rewrite (array_set_get _ _ false _ Hbit). cbn.
  apply array_get_Done in Hslot as [H0 Hs]. apply array_get_Done in Hbit as [_ Hb].
  apply lookup_lt_Some in Hs, Hb.
  eexists. split; [reflexivity|]. repeat split.
  - apply array_get_Done. split; [lia|]. cbn. apply list_lookup_insert_eq. lia.
  - apply array_get_Done. split; [lia|].
    rewrite local_grid_set_tls_grids. rewrite decide_True by reflexivity.
    apply list_lookup_insert_eq. lia.
  - intros u Hu. rewrite local_grid_set_tls_grids. rewrite decide_False by congruence.
    reflexivity.
Qed.

(** Thread 1 unlocks the cell that thread 0 holds: the slot is free again
    while the bitmap of thread 0 still shows the cell as held. *)
Lemma unlock_checks_no_owner_witness :
  exists s', B.unlock (one_cell_held_by 0) 1%nat 0 = Done s'
    /\ array_get (m_grid s') 0 = Done false
    /\ array_get (local_grid s' 1%nat) 0 = Done false
    /\ m_grid s' = <[Z.to_nat 0 := false]> (m_grid (one_cell_held_by 0))
    /\ (forall u, u <> 1%nat -> local_grid s' u = local_grid (one_cell_held_by 0) u)
    /\ (forall u, local_locked_cells s' u = local_locked_cells (one_cell_held_by 0) u).
Proof.
  apply (unlock_checks_no_owner (one_cell_held_by 0) 1%nat 0 true false); reflexivity.
Defined.

(** After that foreign [unlock], thread 2 acquires the cell: the bitmaps
    of thread 0 and of thread 2 both show cell 0 as held. *)
Lemma foreign_unlock_breaks_exclusion :
  (s1 ← B.unlock (one_cell_held_by 0) 1%nat 0;
   '(locked, s2) ← B.try_lock s1 2%nat 0;
   mret (locked, local_grid s2 0%nat, local_grid s2 2%nat))
  = Done (true, [true], [true]).
Proof. vm_compute. reflexivity. Qed.

(** ** Locking around a point *)

Section Point.
Context {cell extra : Type}.
Variable release : nat -> cell -> result cell.
Variable try_lock : locking_ds cell extra -> nat -> Z -> result (bool * locking_ds cell extra).

Lemma point_index_indices (s : locking_ds cell extra) (p : P3) (ix iy iz : Z) :
  point_indices s p = Done (ix, iy, iz) ->
  point_index s p = Done (cell_index (m_num_grid_cells_per_axis s) ix iy iz).
Proof. intros H. unfold point_index. rewrite H. reflexivity. Qed.

Lemma try_lock_point_index (s s' : locking_ds cell extra) th p r b index :
  try_lock_point release try_lock s th p r = Done ((b, index), s') ->
  point_index s p = Done index
  /\ (r = 0 -> try_lock s th index = Done (b, s')).
Proof.
  unfold try_lock_point. intros H.
  apply bind_Done in H as ([[ix iy] iz] & Hi & H).
  rewrite (point_index_indices _ _ _ _ _ Hi).
  destruct (Z.eqb_spec r 0) as [->|Hr].
  - apply bind_Done in H as ([b' s''] & Ht & H).
    assert (Heq : (b', cell_index (m_num_grid_cells_per_axis s) ix iy iz, s'')
                  = (b, index, s')) by (revert H; apply Done_inj).
    inversion Heq. subst. auto.
  - apply bind_Done in H as ([b' s''] & Ht & H).
    assert (Heq : (b', cell_index (m_num_grid_cells_per_axis s) ix iy iz, s'')
                  = (b, index, s')) by (revert H; apply Done_inj).
    inversion Heq. subst. split; [reflexivity | contradiction].
Qed.

End Point.

(** C8.  Whenever [try_lock(point, lock_radius)] returns, with [true] or
    with [false], the second component is the index of the cell of [point];
    with [lock_radius == 0] the first component and the state are those of
    [try_lock] on that cell. *)
Theorem try_lock_point_returns_point_index
    (s s' : B.t) (th : nat) (p : P3) (r : Z) (b : bool) (index : Z) :
  B.try_lock_point s th p r = Done ((b, index), s') ->
  point_index s p = Done index
  /\ (r = 0 -> B.try_lock s th index = Done (b, s')).
Proof. apply try_lock_point_index. Qed.

(** Thread 1 asks for the region around (5.5, 5.5, 6.5) while thread 0
    holds the region around (5.5, 5.5, 5.5): the call fails and returns 655. *)
Lemma try_lock_point_returns_point_index_witness :
  point_index region_555_held_by_0 point_655 = Done 655.
Proof.
  refine (proj1 (try_lock_point_returns_point_index
                   region_555_held_by_0 _ 1%nat point_655 1 false 655 _)).
  vm_compute. reflexivity.
Defined.

(** ** [int] arithmetic without overflow *)

Lemma wrap_int_id (v : Z) : INT_MIN <= v <= INT_MAX -> wrap_int v = v.
Proof.
  unfold wrap_int, INT_MIN, INT_MAX. intros H.
  rewrite Z.mod_small; lia.
Qed.

Lemma num_cells_of_small (n : Z) :
  -1290 <= n <= 1290 -> num_cells_of n = n * n * n.
Proof.
  intros H. unfold num_cells_of, int_mul.
  assert (0 <= n * n <= 1664100) by nia.
  rewrite (wrap_int_id (n * n)) by (unfold INT_MIN, INT_MAX; lia).
  apply wrap_int_id. unfold INT_MIN, INT_MAX. nia.
Qed.

Lemma cell_index_small (n ix iy iz : Z) :
  1 <= n <= 1290 ->
  0 <= ix <= n - 1 -> 0 <= iy <= n - 1 -> 0 <= iz <= n - 1 ->
  cell_index n ix iy iz = iz * n * n + iy * n + ix
  /\ 0 <= iz * n * n + iy * n + ix <= n * n * n - 1.
Proof.
  intros Hn Hx Hy Hz.
  assert (0 <= n * n <= 1664100) by nia.
  assert (n * n * n <= 2146689000) by nia.
  assert (0 <= iz * n <= (n - 1) * n) by nia.
  assert (0 <= iy * n <= (n - 1) * n) by nia.
  assert (0 <= iz * n * n <= (n - 1) * n * n) by nia.
  unfold cell_index, int_add, int_mul.
  rewrite (wrap_int_id (iz * n)) by (unfold INT_MIN, INT_MAX; nia).
  rewrite (wrap_int_id (iz * n * n)) by (unfold INT_MIN, INT_MAX; nia).
  rewrite (wrap_int_id (iy * n)) by (unfold INT_MIN, INT_MAX; nia).
  rewrite (wrap_int_id (iz * n * n + iy * n)) by (unfold INT_MIN, INT_MAX; nia).
  rewrite (wrap_int_id (iz * n * n + iy * n + ix)) by (unfold INT_MIN, INT_MAX; nia).
  split; [reflexivity | nia].
Qed.

(** ** Construction *)

Lemma construct_fields {cell extra : Type} (free : cell) (e : extra)
    (bbox : Bbox_3) (n : Z) (s : locking_ds cell extra) :
  construct free e bbox n = Done s ->
  s = Build_locking_ds n (xmin bbox) (ymin bbox) (zmin bbox)
        (d_div (double_of_int n) (d_sub (xmax bbox) (xmin bbox)))
        (d_div (double_of_int n) (d_sub (ymax bbox) (ymin bbox)))
        (d_div (double_of_int n) (d_sub (zmax bbox) (zmin bbox)))
        (replicate (Z.to_nat (num_cells_of n)) free) ∅ ∅ e
  /\ 0 <= num_cells_of n.
Proof.
  unfold construct. destruct (Z.ltb_spec (num_cells_of n) 0); [discriminate|].
  intros [= <-]. auto.
Qed.

(** C3, as the constructor is written.  The constructor checks neither
    argument.  A negative number of cells per axis fails in the array
    [new]; from zero on, a manager is produced for every box: with no cell
    at all for zero cells per axis, and with the resolution [n / 0] on an
    axis along which the box has no extent. *)
Theorem construction_checks_nothing (bbox : Bbox_3) (n : Z) :
  -1290 <= n <= 1290 ->
  B.Simple_grid_locking_ds bbox n =
  if n <? 0 then Throw
  else Done (Build_locking_ds n (xmin bbox) (ymin bbox) (zmin bbox)
               (d_div (double_of_int n) (d_sub (xmax bbox) (xmin bbox)))
               (d_div (double_of_int n) (d_sub (ymax bbox) (ymin bbox)))
               (d_div (double_of_int n) (d_sub (zmax bbox) (zmin bbox)))
               (replicate (Z.to_nat (n * n * n)) false) ∅ ∅ tt).
Proof.
  intros Hn. unfold B.Simple_grid_locking_ds, construct.
  rewrite (num_cells_of_small n Hn).
  destruct (Z.ltb_spec n 0) as [Hneg|Hpos].
  - destruct (Z.ltb_spec (n * n * n) 0); [reflexivity | nia].
  - destruct (Z.ltb_spec (n * n * n) 0); [nia | reflexivity].
Qed.

(** Ten cells per axis on a box that is flat along x: a manager with a
    thousand free cells whose x resolution is infinite. *)
Lemma construction_checks_nothing_witness :
  B.Simple_grid_locking_ds flat_box 10 =
  Done (Build_locking_ds 10 (d_make 0 0) (d_make 0 0) (d_make 0 0)
          (S754_infinity false) (d_make 1 0) (d_make 1 0)
          (replicate 1000 false) ∅ ∅ tt).
Proof. apply (construction_checks_nothing flat_box 10). lia. Defined.

(** Zero cells per axis: a manager without cells. *)
Lemma construction_zero_cells :
  B.Simple_grid_locking_ds box_10 0 =
  Done (Build_locking_ds 0 (d_make 0 0) (d_make 0 0) (d_make 0 0)
          (S754_zero false) (S754_zero false) (S754_zero false)
          [] ∅ ∅ tt).
Proof. vm_compute. reflexivity. Qed.

(** C3, as stated, fails: neither zero cells per axis nor a box without
    extent makes the constructor fail. *)
Lemma construction_error_counterexample :
  ~ (forall (bbox : Bbox_3) (n : Z),
       n <= 0 \/ zero_extent bbox = true ->
       B.Simple_grid_locking_ds bbox n = Throw).
Proof.
  intros H. specialize (H flat_box 10 (or_intror eq_refl)).
  vm_compute in H. discriminate H.
Qed.

(** ** The index of a point *)

Lemma axis_index_clamped (n : Z) (c min resolution : double) (raw : Z) :
  static_cast_int (d_mul (d_sub c min) resolution) = Done raw ->
  -1290 <= n <= 1290 ->
  axis_index n c min resolution = Done (Z.max 0 (Z.min raw (n - 1))).
Proof.
  intros Hraw Hn. unfold axis_index. rewrite Hraw. cbn.
  unfold int_sub. rewrite wrap_int_id by (unfold INT_MIN, INT_MAX; lia).
  reflexivity.
Qed.



(** A point outside the box is not rejected: (-3, 42, 5.5) falls into the
    boundary cell (0, 9, 5). *)
Lemma point_outside_snaps_to_boundary :
  point_index fresh_10 (Build_P3 (d_make (-3) 0) (d_make 42 0) (d_make 11 (-1)))
  = Done 590.
Proof. vm_compute. reflexivity. Qed.

(** The conversion to [int] comes before the clamp: the scaled x
    coordinate of [far_point], 2^40, is no [int], and on a box of zero
    extent (which the constructor accepts) the resolution is infinite. *)
Lemma point_index_undefined :
  point_index fresh_10 far_point = Undefined
  /\ (s ← B.Simple_grid_locking_ds flat_box 10; point_index s point_555) = Undefined.
Proof. split; vm_compute; reflexivity. Qed.


(** ** The retry loop of [Simple_grid_locking_ds_with_thread_ids] *)

Lemma local_thread_id_frame (s s1 : I.t) (th : nat) (me : Z) :
  I.local_thread_id s th = (me, s1) ->
  m_grid s1 = m_grid s
  /\ I.other_threads (m_extra s1) = I.other_threads (m_extra s)
  /\ (forall u, local_grid s1 u = local_grid s u)
  /\ I.local_thread_id s1 th = (me, s1).
Proof.
  unfold I.local_thread_id.
  destruct (I.m_tls_thread_ids (m_extra s) !! th) as [id|] eqn:E.
  - intros [= <- <-]. rewrite E. auto.
  - intros [= <- <-]. cbn. rewrite lookup_insert_eq. auto.
Qed.

Lemma try_lock_loop_step (pending : list (list (nat * Z))) (s : I.t)
    (th : nat) (c me h : Z) :
  array_get (m_grid s) c = Done h -> h <> 0 ->
  I.try_lock_loop pending s th c me =
  match pending with
  | [] => if h <? me then Spins else Done (false, s)
  | writes :: rest =>
      if h <? me then I.try_lock_loop rest (I.yield writes rest s) th c me
      else Done (false, I.yield writes rest s)
  end.
Proof.
  intros Hh Hne. destruct pending; cbn; rewrite Hh; cbn;
    destruct (Z.eqb_spec h 0); try contradiction; reflexivity.
Qed.

Lemma try_lock_after_yield (s : I.t) (th : nat) (c me : Z)
    (writes : list (nat * Z)) (rest : list (list (nat * Z))) :
  array_get (local_grid s th) c = Done false ->
  I.local_thread_id s th = (me, s) ->
  I.try_lock (I.yield writes rest s) th c
  = I.try_lock_loop rest (I.yield writes rest s) th c me.
Proof.
  intros Hbit Hid. unfold I.try_lock.
  change (local_grid (I.yield writes rest s) th) with (local_grid s th).
  rewrite Hbit. cbn.
  unfold I.local_thread_id in *. cbn.
  destruct (I.m_tls_thread_ids (m_extra s) !! th) as [id|] eqn:E.
  - injection Hid as ->. reflexivity.
  - injection Hid as _ Hs. exfalso.
    apply (f_equal (fun x => I.m_tls_thread_ids (m_extra x) !! th)) in Hs.
    cbn in Hs. rewrite lookup_insert_eq, E in Hs. discriminate.
Qed.

(** C1, as the loop is written.  The caller [th] does not hold cell [c],
    its id is [me], and the slot holds the id [h] of another thread.
    If [h < me], the caller yields and starts over: it spins for as long as
    the holder keeps the slot.  If [me < h], the call returns [false] after
    its first attempt.  When no other thread ever writes the table, the call
    spins forever exactly when [h < me] and returns [false] exactly when
    [me < h]. *)
Theorem try_lock_spins_on_lower_holder (s s1 : I.t) (th : nat) (c h me : Z) :
  array_get (local_grid s th) c = Done false ->
  array_get (m_grid s) c = Done h ->
  I.local_thread_id s th = (me, s1) ->
  h <> 0 -> h <> me ->
  (h < me ->
     I.try_lock s th c =
     match I.other_threads (m_extra s) with
     | [] => Spins
     | writes :: rest => I.try_lock (I.yield writes rest s1) th c
     end)
  /\ (me < h ->
      I.try_lock s th c =
      Done (false, match I.other_threads (m_extra s) with
                   | [] => s1
                   | writes :: rest => I.yield writes rest s1
                   end))
  /\ (I.other_threads (m_extra s) = [] ->
      (I.try_lock s th c = Spins <-> h < me)
      /\ (I.try_lock s th c = Done (false, s1) <-> me < h)).
Proof.
  intros Hbit Hslot Hid H0 Hne.
  destruct (local_thread_id_frame s s1 th me Hid) as (Hg & Ho & Hl & Hid1).
  assert (Hslot1 : array_get (m_grid s1) c = Done h) by (rewrite Hg; exact Hslot).
  assert (Hbit1 : array_get (local_grid s1 th) c = Done false) by (rewrite Hl; exact Hbit).
  assert (Hcall : I.try_lock s th c
                  = I.try_lock_loop (I.other_threads (m_extra s)) s1 th c me).
  { unfold I.try_lock. rewrite Hbit. cbn. rewrite Hid, Ho. reflexivity. }
  rewrite Hcall, (try_lock_loop_step _ s1 th c me h Hslot1 H0).
  split; [|split].
  - intros Hlt. destruct (I.other_threads (m_extra s)) as [|w rest].
    + destruct (Z.ltb_spec h me); [reflexivity | lia].
    + destruct (Z.ltb_spec h me); [|lia].
      symmetry. apply try_lock_after_yield; assumption.
  - intros Hlt. destruct (I.other_threads (m_extra s)) as [|w rest];
      destruct (Z.ltb_spec h me); try lia; reflexivity.
  - intros ->. destruct (Z.ltb_spec h me); split; split;
      intros; try discriminate; try lia; reflexivity.
Qed.

(** Thread 1 (id 2) asks for the cell that thread 0 (id 1) holds, and no
    other thread ever runs: the call spins. *)
Lemma try_lock_spins_on_lower_holder_witness :
  I.try_lock ids_held_by_first 1%nat 0 = Spins.
Proof.
  refine (proj1 (try_lock_spins_on_lower_holder
                   ids_held_by_first _ 1%nat 0 1 2 _ _ _ _ _) _).
  - vm_compute. reflexivity.
  - vm_compute. reflexivity.
  - vm_compute. reflexivity.
  - lia.
  - lia.
  - lia.
Defined.

(** Thread 0 (id 1) asks for the cell that thread 1 (id 2) holds: the
    call returns [false] at once and the manager is unchanged. *)
Lemma try_lock_fails_on_higher_holder :
  I.try_lock ids_held_by_second 0%nat 0 = Done (false, ids_held_by_second).
Proof. vm_compute. reflexivity. Qed.

(** C1, as stated, fails: with no other thread running, it would have the
    call spin exactly when the holder's id is the greater one and return
    [false] exactly when the holder's id is the smaller one. *)
Lemma try_lock_order_counterexample :
  ~ (forall (s s1 : I.t) (th : nat) (c h me : Z),
       array_get (local_grid s th) c = Done false ->
       array_get (m_grid s) c = Done h ->
       I.local_thread_id s th = (me, s1) ->
       h <> 0 -> h <> me ->
       I.other_threads (m_extra s) = [] ->
       (I.try_lock s th c = Spins <-> me < h)
       /\ (I.try_lock s th c = Done (false, s1) <-> h < me)).
Proof.
  intros H.
  destruct (H ids_held_by_second ids_held_by_second 0%nat 0 2 1) as [Hspin _];
    try (vm_compute; reflexivity); try lia.
  assert (Hs : I.try_lock ids_held_by_second 0%nat 0 = Spins) by (apply Hspin; lia).
  rewrite try_lock_fails_on_higher_holder in Hs. discriminate Hs.
Qed.

(** A held cell is released as soon as another thread writes 0 to its slot
    during a yield: here thread 1 (id 2) acquires the cell after one yield. *)
Lemma try_lock_acquires_after_release :
  (s ← I.Simple_grid_locking_ds_with_thread_ids 0 [[(0%nat, 0)]] unit_box 1;
   '(_, s1) ← I.try_lock s 0%nat 0;
   '(locked, s2) ← I.try_lock s1 1%nat 0;
   mret (locked, m_grid s2, local_grid s2 1%nat))
  = Done (true, [2], [true]).
Proof. vm_compute. reflexivity. Qed.

(** ** What one step does to the members *)

Section Frame.
Context {cell extra : Type}.
Variable release : nat -> cell -> result cell.
Implicit Types s : locking_ds cell extra.

Lemma record_lock_Done s s' th c :
  record_lock s th c = Done s' ->
  0 <= c /\ (Z.to_nat c < length (local_grid s th))%nat
  /\ s' = set_tls_locked_cells
            (set_tls_grids s (<[th := <[Z.to_nat c := true]> (local_grid s th)]> (m_tls_grids s)))
            (<[th := local_locked_cells s th ++ [c]]> (m_tls_locked_cells s)).
Proof.
  unfold record_lock. intros H. apply bind_Done in H as (l & Hl & H).
  apply array_set_Done in Hl as (H0 & Hlt & ->). injection H as <-. auto.
Qed.

Lemma unlock_Done s s' th c :
  unlock release s th c = Done s' ->
  exists slot slot',
    array_get (m_grid s) c = Done slot /\ release th slot = Done slot'
    /\ (Z.to_nat c < length (local_grid s th))%nat
    /\ s' = set_tls_grids (set_grid s (<[Z.to_nat c := slot']> (m_grid s)))
              (<[th := <[Z.to_nat c := false]> (local_grid s th)]> (m_tls_grids s)).
Proof.
  unfold unlock. intros H.
  apply bind_Done in H as (slot & Hslot & H).
  apply bind_Done in H as (slot' & Hrel & H).
  apply bind_Done in H as (g & Hg & H).
  apply bind_Done in H as (l & Hl & H).
  apply array_set_Done in Hg as (_ & _ & ->).
  apply array_set_Done in Hl as (_ & Hlt & ->).
  injection H as <-. eauto 10.
Qed.

Lemma unlock_defined s th c slot slot' bit :
  array_get (m_grid s) c = Done slot ->
  release th slot = Done slot' ->
  array_get (local_grid s th) c = Done bit ->
  unlock release s th c
  = Done (set_tls_grids (set_grid s (<[Z.to_nat c := slot']> (m_grid s)))
            (<[th := <[Z.to_nat c := false]> (local_grid s th)]> (m_tls_grids s))).
Proof.
  intros Hslot Hrel Hbit. unfold unlock. rewrite Hslot. cbn. rewrite Hrel. cbn.
  rewrite (array_set_get _ _ slot' _ Hslot). cbn.
  rewrite (array_set_get _ _ false _ Hbit). reflexivity.
Qed.

End Frame.

Section Ledger.
Context {cell extra : Type}.
Variable release : nat -> cell -> result cell.
Implicit Types s : locking_ds cell extra.

Lemma record_lock_members s s' th c :
  record_lock s th c = Done s' ->
  0 <= c /\ (Z.to_nat c < length (local_grid s th))%nat
  /\ m_grid s' = m_grid s
  /\ num_cells s' = num_cells s
  /\ local_grid s' th = <[Z.to_nat c := true]> (local_grid s th)
  /\ local_locked_cells s' th = local_locked_cells s th ++ [c].
Proof.
  intros (H0 & Hlt & ->)%record_lock_Done. repeat split; try assumption.
  - unfold local_grid at 1; cbn. rewrite lookup_insert_eq. reflexivity.
  - unfold local_locked_cells at 1; cbn. rewrite lookup_insert_eq. reflexivity.
Qed.

Lemma unlock_members s s' th c :
  unlock release s th c = Done s' ->
  exists slot',
    0 <= c /\ (Z.to_nat c < length (m_grid s))%nat
    /\ (Z.to_nat c < length (local_grid s th))%nat
    /\ m_grid s' = <[Z.to_nat c := slot']> (m_grid s)
    /\ num_cells s' = num_cells s
    /\ local_grid s' th = <[Z.to_nat c := false]> (local_grid s th)
    /\ local_locked_cells s' th = local_locked_cells s th.
Proof.
  intros (slot & slot' & Hslot & _ & Hlt & ->)%unlock_Done.
  apply array_get_Done in Hslot as [H0 Hs]. apply lookup_lt_Some in Hs.
  exists slot'. repeat split; try assumption.
  unfold local_grid at 1; cbn. rewrite lookup_insert_eq. reflexivity.
Qed.

Lemma ledger_inv_set_grid s th g :
  ledger_inv s th -> length g = length (m_grid s) -> ledger_inv (set_grid s g) th.
Proof.
  intros (H1 & H2 & H3 & H4) Hg. unfold ledger_inv.
  change (local_grid (set_grid s g) th) with (local_grid s th).
  change (local_locked_cells (set_grid s g) th) with (local_locked_cells s th).
  change (num_cells (set_grid s g)) with (num_cells s).
  change (m_grid (set_grid s g)) with g. rewrite Hg. auto.
Qed.

Lemma ledger_inv_record_lock s s' th c :
  ledger_inv s th -> record_lock s th c = Done s' -> ledger_inv s' th.
Proof.
  intros (H1 & H2 & H3 & H4) (H0 & Hlt & Hg & Hn & Hl & Hv)%record_lock_members.
  unfold ledger_inv. rewrite Hg, Hn, Hl, Hv, length_insert.
  repeat split; try assumption.
  - apply elem_of_app in H as [H|H]; [apply H3 in H; lia|].
    apply list_elem_of_singleton in H as ->. lia.
  - apply elem_of_app in H as [H|H]; [apply H3 in H; lia|].
    apply list_elem_of_singleton in H as ->. lia.
  - intros i Hi. apply elem_of_app.
    destruct (decide (i = Z.to_nat c)) as [->|Hne].
    + right. rewrite Z2Nat.id by lia. apply list_elem_of_singleton. reflexivity.
    + left. apply H4. rewrite list_lookup_insert_ne in Hi by congruence. exact Hi.
Qed.

Lemma ledger_inv_unlock s s' th c :
  ledger_inv s th -> unlock release s th c = Done s' -> ledger_inv s' th.
Proof.
  intros (H1 & H2 & H3 & H4) (slot' & H0 & Hlt & Hlt' & Hg & Hn & Hl & Hv)%unlock_members.
  unfold ledger_inv. rewrite Hg, Hn, Hl, Hv, !length_insert.
  repeat split; try assumption; try (apply H3; assumption).
  intros i Hi. apply H4.
  destruct (decide (i = Z.to_nat c)) as [->|Hne].
  - rewrite list_lookup_insert_eq in Hi by assumption. discriminate.
  - rewrite list_lookup_insert_ne in Hi by congruence. exact Hi.
Qed.

Lemma ledger_inv_unlock_each cells s s' th :
  ledger_inv s th -> unlock_each release cells s th = Done s' -> ledger_inv s' th.
Proof.
  revert s. induction cells as [|c rest IH]; intros s Hinv H; cbn in H.
  - injection H as <-. exact Hinv.
  - apply bind_Done in H as (s1 & Hu & H).
    eapply IH; [|exact H]. eapply ledger_inv_unlock; eassumption.
Qed.

End Ledger.

Lemma all_unlocked_true (indices : list Z) (local : list bool) :
  (forall i, i ∈ indices -> array_get local i = Done false) ->
  all_unlocked indices local = Done true.
Proof.
  induction indices as [|i rest IH]; intros H; cbn; [reflexivity|].
  rewrite (H i) by (left; reflexivity). cbn.
  apply IH. intros j Hj. apply H. right. exact Hj.
Qed.

Section Release_all.
Context {cell extra : Type}.
Variable release : nat -> cell -> result cell.
Variable free : cell.
Hypothesis release_frees : forall th slot, release th slot = Done free.
Implicit Types s : locking_ds cell extra.

Lemma unlock_owned_spec (cells : list Z) (th : nat) : forall s,
  length (local_grid s th) = length (m_grid s) ->
  (forall c, c ∈ cells -> 0 <= c /\ (Z.to_nat c < length (m_grid s))%nat) ->
  exists s',
    unlock_owned release cells s th = Done s'
    /\ length (m_grid s') = length (m_grid s)
    /\ num_cells s' = num_cells s
    /\ length (local_grid s' th) = length (local_grid s th)
    /\ local_locked_cells s' th = local_locked_cells s th
    /\ (forall i, local_grid s' th !! i = Some true ->
                 local_grid s th !! i = Some true /\ Z.of_nat i ∉ cells)
    /\ (forall i, m_grid s !! i = Some free -> m_grid s' !! i = Some free)
    /\ (forall i, local_grid s th !! i = Some true -> Z.of_nat i ∈ cells ->
                 m_grid s' !! i = Some free).
Proof.
  induction cells as [|c rest IH]; intros s Hlen Hin.
  - exists s. cbn. split_and!; auto.
    + intros i Hi. split; [exact Hi|]. intros H. inversion H.
    + intros i _ H. inversion H.
  - destruct (Hin c) as [H0 Hc]; [left; reflexivity|].
    assert (Hrest : forall c', c' ∈ rest ->
              0 <= c' /\ (Z.to_nat c' < length (m_grid s))%nat)
      by (intros c' Hc'; apply Hin; right; exact Hc').
    destruct (lookup_lt_is_Some_2 (local_grid s th) (Z.to_nat c)) as [bit Hbit];
      [lia|].
    destruct (lookup_lt_is_Some_2 (m_grid s) (Z.to_nat c)) as [slot Hslot]; [lia|].
    assert (Hgb : array_get (local_grid s th) c = Done bit)
      by (apply array_get_Done; auto).
    assert (Hgs : array_get (m_grid s) c = Done slot)
      by (apply array_get_Done; auto).
    cbn [unlock_owned]. rewrite Hgb. cbn. destruct bit.
    + rewrite (unlock_defined release s th c slot free true Hgs (release_frees _ _) Hgb).
      cbn.
      set (s1 := set_tls_grids (set_grid s (<[Z.to_nat c := free]> (m_grid s)))
                   (<[th := <[Z.to_nat c := false]> (local_grid s th)]> (m_tls_grids s))).
      assert (Hl1 : local_grid s1 th = <[Z.to_nat c := false]> (local_grid s th)).
      { unfold s1, local_grid at 1; cbn. rewrite lookup_insert_eq. reflexivity. }
      assert (Hg1 : m_grid s1 = <[Z.to_nat c := free]> (m_grid s)) by reflexivity.
      destruct (IH s1) as (s' & Hrun & Hlg & Hn & Hll & Hv & Hbits & Hmono & Hfreed).
      { rewrite Hl1, Hg1, !length_insert. exact Hlen. }
      { intros c' Hc'. rewrite Hg1, length_insert. apply Hrest. exact Hc'. }
      exists s'. split; [exact Hrun|].
      rewrite Hl1, length_insert in Hll. rewrite Hg1, length_insert in Hlg.
      split_and!; try assumption.
      * intros i H. pose proof (Hbits _ H) as [Hb Hnr]. rewrite Hl1 in Hb.
        destruct (decide (i = Z.to_nat c)) as [->|Hne].
        -- rewrite list_lookup_insert_eq in Hb by lia. discriminate.
        -- rewrite list_lookup_insert_ne in Hb by congruence.
           split; [exact Hb|]. intros Hmem.
           apply elem_of_cons in Hmem as [Heq|Hmem]; [|contradiction].
           subst c. rewrite Nat2Z.id in Hne. contradiction.
      * intros i Hi. apply Hmono. rewrite Hg1.
        destruct (decide (i = Z.to_nat c)) as [->|Hne].
        -- apply list_lookup_insert_eq. lia.
        -- rewrite list_lookup_insert_ne by congruence. exact Hi.
      * intros i Hi Hmem.
        destruct (decide (i = Z.to_nat c)) as [->|Hne].
        -- apply Hmono. rewrite Hg1. apply list_lookup_insert_eq. lia.
        -- apply Hfreed.
           ++ rewrite Hl1, list_lookup_insert_ne by congruence. exact Hi.
           ++ apply elem_of_cons in Hmem as [Heq|Hmem]; [|exact Hmem].
              subst c. rewrite Nat2Z.id in Hne. contradiction.
    + destruct (IH s Hlen Hrest) as (s' & Hrun & Hlg & Hn & Hll & Hv & Hbits & Hmono & Hfreed).
      exists s'. split; [exact Hrun|]. split_and!; try assumption.
      * intros i H. pose proof (Hbits _ H) as [Hb Hnr]. split; [exact Hb|].
        intros Hmem.
        apply elem_of_cons in Hmem as [Heq|Hmem]; [|contradiction].
        subst c. rewrite Nat2Z.id in Hbit. congruence.
      * intros i Hi Hmem. apply Hfreed; [exact Hi|].
        apply elem_of_cons in Hmem as [Heq|Hmem]; [|exact Hmem].
        subst c. rewrite Nat2Z.id in Hbit. congruence.
Qed.

(** After [unlock_all_tls_locked_cells] the thread holds nothing: its
    vector is empty, no bit of its bitmap is set, the check returns [true]
    and the slot of every cell it held is free. *)
Lemma unlock_all_tls_locked_cells_spec s th :
  ledger_inv s th ->
  exists s',
    unlock_all_tls_locked_cells release s th = Done s'
    /\ ledger_inv s' th
    /\ local_locked_cells s' th = []
    /\ local_grid s' th = replicate (length (m_grid s)) false
    /\ check_if_all_tls_cells_are_unlocked s' th = Done true
    /\ (forall c, array_get (local_grid s th) c = Done true ->
                 array_get (m_grid s') c = Done free).
Proof.
  intros (H1 & H2 & H3 & H4).
  destruct (unlock_owned_spec (local_locked_cells s th) th s H1 H3)
    as (s1 & Hrun & Hlg & Hn & Hll & Hv & Hbits & _ & Hfreed).
  unfold unlock_all_tls_locked_cells. rewrite Hrun. cbn.
  set (s' := set_tls_locked_cells s1 (<[th := []]> (m_tls_locked_cells s1))).
  assert (Hl' : local_grid s' th = local_grid s1 th) by reflexivity.
  assert (Hv' : local_locked_cells s' th = []).
  { unfold s', local_locked_cells; cbn. rewrite lookup_insert_eq. reflexivity. }
  assert (Hclear : forall i, local_grid s1 th !! i = Some true -> False).
  { intros i Hi. destruct (Hbits i Hi) as [Hb Hn']. apply Hn', H4, Hb. }
  assert (Hall : local_grid s1 th = replicate (length (m_grid s)) false).
  { apply list_eq. intros i. destruct (local_grid s1 th !! i) as [[|]|] eqn:E.
    - exfalso. eapply Hclear. exact E.
    - symmetry. apply lookup_replicate_2. apply lookup_lt_Some in E. lia.
    - symmetry. apply lookup_replicate_None. apply lookup_ge_None in E. lia. }
  exists s'. split; [reflexivity|]. split; [|split; [exact Hv'|split; [|split]]].
  - unfold ledger_inv. rewrite Hl', Hv'.
    change (m_grid s') with (m_grid s1). change (num_cells s') with (num_cells s1).
    rewrite Hll, Hlg, Hn. split_and!; try assumption.
    + intros c H. inversion H.
    + intros i Hi. exfalso. eapply Hclear. exact Hi.
  - rewrite Hl'. exact Hall.
  - unfold check_if_all_tls_cells_are_unlocked. rewrite Hl'.
    change (num_cells s') with (num_cells s1). rewrite Hn.
    apply all_unlocked_true. intros i Hi. apply elem_of_seqZ in Hi.
    apply array_get_Done. split; [lia|]. rewrite Hall.
    apply lookup_replicate_2. lia.
  - intros c [H0 Hc]%array_get_Done. apply array_get_Done. split; [exact H0|].
    change (m_grid s') with (m_grid s1). apply Hfreed; [exact Hc|].
    rewrite Z2Nat.id by lia. apply H4 in Hc. rewrite Z2Nat.id in Hc by lia. exact Hc.
Qed.

End Release_all.

Section Ledger_calls.
Context {cell extra : Type}.
Variable release : nat -> cell -> result cell.
Variable free : cell.
Variable try_lock : locking_ds cell extra -> nat -> Z -> result (bool * locking_ds cell extra).
Hypothesis release_frees : forall th slot, release th slot = Done free.
Hypothesis try_lock_ledger : forall s s' th c b,
  ledger_inv s th -> try_lock s th c = Done (b, s') -> ledger_inv s' th.
Implicit Types s : locking_ds cell extra.

Lemma ledger_inv_lock_cells (cells : list Z) (th : nat) : forall tmp s s' b,
  ledger_inv s th ->
  lock_cells release try_lock cells tmp s th = Done (b, s') ->
  ledger_inv s' th.
Proof.
  induction cells as [|c rest IH]; intros tmp s s' b Hinv H; cbn in H.
  - injection H as <- <-. exact Hinv.
  - apply bind_Done in H as ([locked s1] & Ht & H).
    pose proof (try_lock_ledger _ _ _ _ _ Hinv Ht) as Hinv1.
    destruct locked.
    + eapply IH; eassumption.
    + apply bind_Done in H as (s2 & Hu & H). injection H as <- <-.
      eapply ledger_inv_unlock_each; eassumption.
Qed.

Lemma ledger_inv_try_lock_point s s' th p r res :
  ledger_inv s th ->
  try_lock_point release try_lock s th p r = Done (res, s') ->
  ledger_inv s' th.
Proof.
  intros Hinv H. unfold try_lock_point in H.
  apply bind_Done in H as ([[ix iy] iz] & _ & H).
  destruct (r =? 0).
  - apply bind_Done in H as ([b s1] & Ht & H). injection H as <- <-.
    eapply try_lock_ledger; eassumption.
  - apply bind_Done in H as ([b s1] & Ht & H). injection H as <- <-.
    eapply ledger_inv_lock_cells; eassumption.
Qed.

Lemma ledger_inv_do_call s s' th c r :
  ledger_inv s th ->
  do_call release try_lock s th c = Done (r, s') ->
  ledger_inv s' th.
Proof.
  intros Hinv H. destruct c; cbn in H.
  - apply bind_Done in H as ([b s1] & Ht & H). injection H as <- <-.
    eapply try_lock_ledger; eassumption.
  - apply bind_Done in H as ([b s1] & Ht & H). injection H as <- <-.
    eapply ledger_inv_try_lock_point; eassumption.
  - apply bind_Done in H as (s1 & Hu & H). injection H as <- <-.
    eapply ledger_inv_unlock; eassumption.
  - apply bind_Done in H as (s1 & Hu & H). injection H as <- <-.
    unfold unlock_point in Hu. apply bind_Done in Hu as (index & _ & Hu).
    eapply ledger_inv_unlock; eassumption.
  - apply bind_Done in H as (s1 & Hu & H). injection H as <- <-.
    destruct (unlock_all_tls_locked_cells_spec release free release_frees s th Hinv)
      as (s2 & Hrun & Hinv2 & _).
    rewrite Hrun in Hu. injection Hu as <-. exact Hinv2.
  - apply bind_Done in H as (b & _ & H). injection H as <- <-. exact Hinv.
Qed.

Lemma ledger_inv_run (calls : list call) (th : nat) : forall s s' rets,
  ledger_inv s th ->
  run release try_lock calls s th = Done (rets, s') ->
  ledger_inv s' th.
Proof.
  induction calls as [|c rest IH]; intros s s' rets Hinv H; cbn in H.
  - injection H as <- <-. exact Hinv.
  - apply bind_Done in H as ([r s1] & Hc & H).
    apply bind_Done in H as ([rs s2] & Hr & H). injection H as <- <-.
    eapply IH; [|exact Hr]. eapply ledger_inv_do_call; eassumption.
Qed.

End Ledger_calls.

Lemma ledger_inv_construct {cell extra : Type} (free : cell) (e : extra)
    (bbox : Bbox_3) (n : Z) (s : locking_ds cell extra) (th : nat) :
  construct free e bbox n = Done s -> ledger_inv s th.
Proof.
  intros [-> Hn]%construct_fields. unfold ledger_inv, local_grid, local_locked_cells.
  cbn. rewrite lookup_empty. cbn. rewrite !length_replicate.
  split_and!; try reflexivity.
  - intros c H. inversion H.
  - intros i Hi. apply lookup_replicate in Hi as [Hi _]. discriminate.
Qed.

Lemma try_lock_ledger_inv (s s' : B.t) (th : nat) (c : Z) (b : bool) :
  ledger_inv s th -> B.try_lock s th c = Done (b, s') -> ledger_inv s' th.
Proof.
  intros Hinv H. unfold B.try_lock in H.
  apply bind_Done in H as (held & _ & H). destruct held.
  - injection H as <- <-. exact Hinv.
  - apply bind_Done in H as (old & _ & H). destruct old.
    + injection H as <- <-. exact Hinv.
    + apply bind_Done in H as (g & Hg & H).
      apply bind_Done in H as (s1 & Hr & H). injection H as <- <-.
      apply array_set_Done in Hg as (_ & _ & ->).
      eapply ledger_inv_record_lock; [|exact Hr].
      apply ledger_inv_set_grid; [exact Hinv|]. apply length_insert.
Qed.

(** C5.  Whatever one thread called on a manager since its construction
    (in particular any sequence of lock acquisitions that succeeded),
    [unlock_all_tls_locked_cells] returns, after it
    [check_if_all_tls_cells_are_unlocked] returns [true], the thread's
    vector is empty, its bitmap is all clear and the slot of every cell it
    held is free. *)
Theorem unlock_all_round_trip (bbox : Bbox_3) (n : Z) (s0 s : B.t) (th : nat)
    (calls : list call) (rets : list returned) :
  B.Simple_grid_locking_ds bbox n = Done s0 ->
  B.run calls s0 th = Done (rets, s) ->
  exists s',
    B.unlock_all_tls_locked_cells s th = Done s'
    /\ B.check_if_all_tls_cells_are_unlocked s' th = Done true
    /\ local_locked_cells s' th = []
    /\ local_grid s' th = replicate (length (m_grid s)) false
    /\ (forall c, array_get (local_grid s th) c = Done true ->
                 array_get (m_grid s') c = Done false).
Proof.
  intros Hs0 Hrun.
  assert (Hinv : ledger_inv s th).
  { eapply (ledger_inv_run B.release false B.try_lock); [reflexivity| |..].
    - intros; eapply try_lock_ledger_inv; eassumption.
    - eapply ledger_inv_construct. exact Hs0.
    - exact Hrun. }
  destruct (unlock_all_tls_locked_cells_spec B.release false
              (fun _ _ => eq_refl) s th Hinv)
    as (s' & H1 & _ & H2 & H3 & H4 & H5).
  exists s'. auto.
Qed.

(** Thread 0 locks the 27 cells around (5.5, 5.5, 5.5) and then cell 0. *)
Lemma unlock_all_round_trip_witness :
  exists s',
    B.unlock_all_tls_locked_cells
      (state_after (B.run [Call_try_lock_point point_555 1; Call_try_lock 0]
                      fresh_10 0%nat) fresh_10) 0%nat = Done s'
    /\ B.check_if_all_tls_cells_are_unlocked s' 0%nat = Done true
    /\ local_locked_cells s' 0%nat = []
    /\ local_grid s' 0%nat
       = replicate (length (m_grid
           (state_after (B.run [Call_try_lock_point point_555 1; Call_try_lock 0]
                           fresh_10 0%nat) fresh_10))) false
    /\ (forall c,
          array_get (local_grid
            (state_after (B.run [Call_try_lock_point point_555 1; Call_try_lock 0]
                            fresh_10 0%nat) fresh_10) 0%nat) c = Done true ->
          array_get (m_grid s') c = Done false).
Proof.
  refine (unlock_all_round_trip box_10 10 fresh_10 _ 0%nat
            [Call_try_lock_point point_555 1; Call_try_lock 0]
            [Ret_pair true 555; Ret_bool true] _ _).
  - vm_compute. reflexivity.
  - vm_compute. reflexivity.
Defined.

(** ** Rollback of a failed region lock *)

(** C2 at a failing input.  Thread 0 holds cell 444 from an earlier call
    and thread 1 holds cell 544.  Thread 0 then asks for the region of
    radius 1 around (5.5, 5.5, 5.5): cell 444 is visited first (and counted
    as locked by this call), cell 544 fails, and the rollback unlocks 444.
    The call returns [(false, 555)] and thread 0 no longer holds 444, which
    it held before the call. *)
Theorem try_lock_point_rollback_drops_prior_lock :
  (s ← B.Simple_grid_locking_ds box_10 10;
   '(_, s1) ← B.try_lock s 0%nat 444;
   '(_, s2) ← B.try_lock s1 1%nat 544;
   '(r, s3) ← B.try_lock_point s2 0%nat point_555 1;
   mret (array_get (local_grid s2 0%nat) 444, r,
         array_get (local_grid s3 0%nat) 444, array_get (m_grid s3) 444))
  = Done (Done true, (false, 555), Done false, Done false).
Proof. vm_compute. reflexivity. Qed.

(** ** The three classes seen by one thread *)

Lemma array_get_cases {A : Type} (a : list A) (i : Z) :
  (exists v, array_get a i = Done v) \/ array_get a i = Undefined.
Proof.
  unfold array_get. destruct (i <? 0); [right; reflexivity|].
  destruct (a !! Z.to_nat i); [left; eauto | right; reflexivity].
Qed.

Lemma array_get_fmap_Done {A B : Type} (f : A -> B) (a : list A) (i : Z) (v : A) :
  array_get a i = Done v -> array_get (f <$> a) i = Done (f v).
Proof.
  intros [H0 H]%array_get_Done. apply array_get_Done. split; [exact H0|].
  rewrite list_lookup_fmap, H. reflexivity.
Qed.

Lemma array_get_fmap_Undefined {A B : Type} (f : A -> B) (a : list A) (i : Z) :
  array_get a i = Undefined -> array_get (f <$> a) i = Undefined.
Proof.
  unfold array_get. destruct (i <? 0); [reflexivity|].
  rewrite list_lookup_fmap. destruct (a !! Z.to_nat i); [discriminate | reflexivity].
Qed.

Lemma common_members {c1 e1 c2 e2 : Type}
    (s1 : locking_ds c1 e1) (s2 : locking_ds c2 e2) :
  common s1 = common s2 ->
  m_num_grid_cells_per_axis s1 = m_num_grid_cells_per_axis s2
  /\ (forall p, point_indices s1 p = point_indices s2 p)
  /\ m_tls_grids s1 = m_tls_grids s2
  /\ m_tls_locked_cells s1 = m_tls_locked_cells s2
  /\ (forall th, local_grid s1 th = local_grid s2 th)
  /\ (forall th, local_locked_cells s1 th = local_locked_cells s2 th)
  /\ num_cells s1 = num_cells s2.
Proof.
  unfold common. intros H. injection H as HN Hx Hy Hz Hrx Hry Hrz Hg Hl.
  unfold point_indices, local_grid, local_locked_cells, num_cells.
  rewrite HN, Hx, Hy, Hz, Hrx, Hry, Hrz, Hg, Hl. auto 10.
Qed.

Lemma common_set_tls_grids {c1 e1 c2 e2 : Type}
    (s1 : locking_ds c1 e1) (s2 : locking_ds c2 e2) g1 g2 m :
  common s1 = common s2 ->
  common (set_tls_grids (set_grid s1 g1) m) = common (set_tls_grids (set_grid s2 g2) m).
Proof.
  unfold common. intros H. injection H as HN Hx Hy Hz Hrx Hry Hrz Hg Hl. cbn.
  rewrite HN, Hx, Hy, Hz, Hrx, Hry, Hrz, Hl. reflexivity.
Qed.

Lemma try_lock_single_thread (sb s' : B.t) (th : nat) (c : Z) (b : bool) :
  m_grid sb = local_grid sb th -> B.try_lock sb th c = Done (b, s') -> b = true.
Proof.
  intros HJ H. unfold B.try_lock in H. rewrite HJ in H.
  destruct (array_get (local_grid sb th) c) as [[|] | | |]; cbn in H;
    try discriminate.
  - injection H as <- _. reflexivity.
  - destruct (array_set (local_grid sb th) c true); cbn in H; try discriminate.
    destruct (record_lock _ _ _); cbn in H; try discriminate.
    injection H as <- _. reflexivity.
Qed.

Lemma acquire_corresponds {cell extra : Type} (enc : bool -> cell) (Q : extra -> Prop)
    (th : nat) (sb : B.t) (sx : locking_ds cell extra) (c : Z) :
  corresponds enc Q th sb sx ->
  array_get (local_grid sb th) c = Done false ->
  corresponds_result enc Q th (B.try_lock sb th c)
    (grid ← array_set (m_grid sx) c (enc true);
     s' ← record_lock (set_grid sx grid) th c;
     mret (true, s')).
Proof.
  intros (Hcom & HJ & Hg & HQ) Hbit.
  pose proof (common_members _ _ Hcom) as (_ & _ & Htg & Htl & Hl & Hv & _).
  assert (Hslot : array_get (m_grid sb) c = Done false) by (rewrite HJ; exact Hbit).
  assert (Hx : array_get (m_grid sx) c = Done (enc false))
    by (rewrite Hg; apply array_get_fmap_Done; exact Hslot).
  unfold B.try_lock, record_lock. rewrite Hbit. cbn. rewrite Hslot. cbn.
  rewrite (array_set_get _ _ true _ Hslot). cbn.
  rewrite (array_set_get _ _ (enc true) _ Hx). cbn.
  change (local_grid (set_grid sb ?g) th) with (local_grid sb th).
  change (local_grid (set_grid sx ?g) th) with (local_grid sx th).
  rewrite <- Hl. rewrite (array_set_get _ _ true _ Hbit). cbn.
  split; [reflexivity|]. unfold corresponds. split_and!.
  - unfold common in *. injection Hcom as HN Hx' Hy Hz Hrx Hry Hrz _ _. cbn.
    change (local_locked_cells (set_grid sb ?g) th) with (local_locked_cells sb th).
    change (local_locked_cells (set_grid sx ?g) th) with (local_locked_cells sx th).
    rewrite HN, Hx', Hy, Hz, Hrx, Hry, Hrz, Htg, Htl, Hv. reflexivity.
  - rewrite local_grid_set_tls_locked_cells, local_grid_set_tls_grids,
      decide_True by reflexivity.
    cbn. rewrite HJ. reflexivity.
  - cbn. rewrite Hg. symmetry. apply list_fmap_insert.
  - exact HQ.
Qed.

Lemma point_indices_cases {cell extra : Type} (s : locking_ds cell extra) (p : P3) :
  (exists v, point_indices s p = Done v) \/ point_indices s p = Undefined.
Proof.
  assert (Hc : forall d, (exists v, static_cast_int d = Done v)
                         \/ static_cast_int d = Undefined).
  { intros d. unfold static_cast_int. destruct (d_trunc d); [|right; reflexivity].
    destruct (_ && _); [left; eauto | right; reflexivity]. }
  unfold point_indices, axis_index.
  destruct (Hc (d_mul (d_sub (p_x p) (m_xmin s)) (m_resolution_x s))) as [[vx ->]| ->];
    [|right; reflexivity].
  destruct (Hc (d_mul (d_sub (p_y p) (m_ymin s)) (m_resolution_y s))) as [[vy ->]| ->];
    [|right; reflexivity].
  destruct (Hc (d_mul (d_sub (p_z p) (m_zmin s)) (m_resolution_z s))) as [[vz ->]| ->];
    [|right; reflexivity].
  left. eexists. reflexivity.
Qed.

Lemma point_index_cases {cell extra : Type} (s : locking_ds cell extra) (p : P3) :
  (exists c, point_index s p = Done c) \/ point_index s p = Undefined.
Proof.
  unfold point_index.
  destruct (point_indices_cases s p) as [[[[ix iy] iz] ->]| ->];
    [left; eexists; reflexivity | right; reflexivity].
Qed.

Lemma common_point_index {c1 e1 c2 e2 : Type}
    (s1 : locking_ds c1 e1) (s2 : locking_ds c2 e2) (p : P3) :
  common s1 = common s2 -> point_index s1 p = point_index s2 p.
Proof.
  intros H. pose proof (common_members _ _ H) as (HN & Hp & _).
  unfold point_index. rewrite Hp, HN. reflexivity.
Qed.

Lemma unlock_allowed_point (s : B.t) (th : nat) (p : P3) (c : Z) :
  point_index s p = Done c ->
  unlock_allowed s th (Call_unlock_point p) = true ->
  array_get (local_grid s th) c <> Done false.
Proof.
  intros Hi Hok Hb. unfold unlock_allowed in Hok.
  rewrite Hi, Hb in Hok. discriminate.
Qed.

Section Simulation.
Context {cell extra : Type}.
Variable release : nat -> cell -> result cell.
Variable try_lock : locking_ds cell extra -> nat -> Z -> result (bool * locking_ds cell extra).
Variable enc : bool -> cell.
Variable Q : extra -> Prop.
Variable th : nat.
Hypothesis release_held : release th (enc true) = Done (enc false).
Hypothesis try_lock_corresponds : forall sb sx c,
  corresponds enc Q th sb sx ->
  corresponds_result enc Q th (B.try_lock sb th c) (try_lock sx th c).
Implicit Types sb : B.t.
Implicit Types sx : locking_ds cell extra.

Lemma unlock_corresponds sb sx c :
  corresponds enc Q th sb sx ->
  (array_get (local_grid sb th) c = Done false ->
   release th (enc false) = Done (enc false)) ->
  corresponds_state enc Q th (B.unlock sb th c) (unlock release sx th c).
Proof.
  intros (Hcom & HJ & Hg & HQ) Hrel.
  pose proof (common_members _ _ Hcom) as (_ & _ & Htg & _ & Hl & _ & _).
  destruct (array_get_cases (m_grid sb) c) as [[b Hb]|Hu].
  - assert (Hbit : array_get (local_grid sb th) c = Done b) by (rewrite <- HJ; exact Hb).
    assert (Hx : array_get (m_grid sx) c = Done (enc b))
      by (rewrite Hg; apply array_get_fmap_Done; exact Hb).
    assert (Hr : release th (enc b) = Done (enc false)).
    { destruct b; [exact release_held | apply Hrel; exact Hbit]. }
    unfold B.unlock.
    rewrite (unlock_defined B.release sb th c b false b Hb eq_refl Hbit).
    rewrite (unlock_defined release sx th c (enc b) (enc false) b Hx Hr).
    2:{ rewrite <- Hl. exact Hbit. }
    cbn. unfold corresponds. split_and!.
    + rewrite <- Hl, <- Htg. apply common_set_tls_grids. exact Hcom.
    + rewrite local_grid_set_tls_grids, decide_True by reflexivity.
      cbn. rewrite HJ. reflexivity.
    + cbn. rewrite Hg. symmetry. apply list_fmap_insert.
    + exact HQ.
  - unfold B.unlock, unlock. rewrite Hu. cbn.
    rewrite Hg, (array_get_fmap_Undefined enc _ _ Hu). cbn. exact I.
Qed.

Lemma lock_cells_corresponds (cells : list Z) : forall tmp tmp' sb sx,
  corresponds enc Q th sb sx ->
  corresponds_result enc Q th
    (lock_cells B.release B.try_lock cells tmp sb th)
    (lock_cells release try_lock cells tmp' sx th).
Proof.
  induction cells as [|c rest IH]; intros tmp tmp' sb sx Hc; cbn.
  - split; [reflexivity | exact Hc].
  - pose proof (try_lock_corresponds sb sx c Hc) as Ht.
    destruct (B.try_lock sb th c) as [[b sb1] | | |] eqn:Eb;
      destruct (try_lock sx th c) as [[b' sx1] | | |]; cbn in Ht; try contradiction.
    + destruct Ht as [<- Hc1].
      destruct Hc as (_ & HJ & _).
      rewrite (try_lock_single_thread sb sb1 th c b HJ Eb). cbn.
      apply IH. exact Hc1.
    + exact I.
Qed.

Lemma try_lock_point_corresponds sb sx p r :
  corresponds enc Q th sb sx ->
  corresponds_result enc Q th
    (B.try_lock_point sb th p r) (try_lock_point release try_lock sx th p r).
Proof.
  intros Hc. pose proof Hc as (Hcom & _).
  pose proof (common_members _ _ Hcom) as (HN & Hp & _).
  unfold B.try_lock_point, try_lock_point. rewrite <- Hp, <- HN.
  destruct (point_indices_cases sb p) as [[[[ix iy] iz] ->]| ->]; cbn; [|exact I].
  destruct (r =? 0).
    + pose proof (try_lock_corresponds sb sx
                    (cell_index (m_num_grid_cells_per_axis sb) ix iy iz) Hc) as Ht.
      destruct (B.try_lock sb th _) as [[b sb1] | | |];
        destruct (try_lock sx th _) as [[b' sx1] | | |]; cbn in *; try contradiction.
      * destruct Ht as [<- Hc1]. auto.
      * exact I.
    + pose proof (lock_cells_corresponds
                    (region_cells (m_num_grid_cells_per_axis sb) ix iy iz r)
                    [] [] sb sx Hc) as Ht.
      destruct (lock_cells B.release _ _ _ _ _) as [[b sb1] | | |];
        destruct (lock_cells release _ _ _ _ _) as [[b' sx1] | | |];
        cbn in *; try contradiction.
      * destruct Ht as [<- Hc1]. auto.
      * exact I.
Qed.

Lemma unlock_owned_corresponds (cells : list Z) : forall sb sx,
  corresponds enc Q th sb sx ->
  corresponds_state enc Q th
    (unlock_owned B.release cells sb th) (unlock_owned release cells sx th).
Proof.
  induction cells as [|c rest IH]; intros sb sx Hc; cbn.
  - exact Hc.
  - pose proof Hc as (Hcom & _).
    pose proof (common_members _ _ Hcom) as (_ & _ & _ & _ & Hl & _ & _).
    rewrite <- Hl.
    destruct (array_get_cases (local_grid sb th) c) as [[[|] Hb]|Hb]; rewrite Hb; cbn.
    + assert (Hu : corresponds_state enc Q th (B.unlock sb th c) (unlock release sx th c)).
      { apply unlock_corresponds; [exact Hc|]. rewrite Hb. discriminate. }
      unfold B.unlock in Hu.
      destruct (unlock B.release sb th c) as [sb1 | | |];
        destruct (unlock release sx th c) as [sx1 | | |]; cbn in *; try contradiction.
      * apply IH. exact Hu.
      * exact I.
    + apply IH. exact Hc.
    + exact I.
Qed.

Lemma unlock_all_corresponds sb sx :
  corresponds enc Q th sb sx ->
  corresponds_state enc Q th
    (B.unlock_all_tls_locked_cells sb th)
    (unlock_all_tls_locked_cells release sx th).
Proof.
  intros Hc. pose proof Hc as (Hcom & _).
  pose proof (common_members _ _ Hcom) as (_ & _ & _ & _ & _ & Hv & _).
  unfold B.unlock_all_tls_locked_cells, unlock_all_tls_locked_cells. rewrite <- Hv.
  pose proof (unlock_owned_corresponds (local_locked_cells sb th) sb sx Hc) as Hu.
  destruct (unlock_owned B.release _ sb th) as [sb1 | | |];
    destruct (unlock_owned release _ sx th) as [sx1 | | |]; cbn in *; try contradiction.
  - destruct Hu as (Hcom1 & HJ & Hg & HQ).
    pose proof (common_members _ _ Hcom1) as (_ & _ & _ & Htl & _).
    unfold corresponds. split_and!.
    + unfold common in *. injection Hcom1 as HN Hx Hy Hz Hrx Hry Hrz Htg _. cbn.
      rewrite HN, Hx, Hy, Hz, Hrx, Hry, Hrz, Htg, Htl. reflexivity.
    + exact HJ.
    + exact Hg.
    + exact HQ.
  - exact I.
Qed.

Lemma check_corresponds sb sx :
  corresponds enc Q th sb sx ->
  B.check_if_all_tls_cells_are_unlocked sb th
  = check_if_all_tls_cells_are_unlocked sx th.
Proof.
  intros (Hcom & _).
  pose proof (common_members _ _ Hcom) as (_ & _ & _ & _ & Hl & _ & Hn).
  unfold B.check_if_all_tls_cells_are_unlocked, check_if_all_tls_cells_are_unlocked.
  rewrite Hl, Hn. reflexivity.
Qed.

Lemma all_unlocked_cases (indices : list Z) (local : list bool) :
  (exists b, all_unlocked indices local = Done b) \/ all_unlocked indices local = Undefined.
Proof.
  induction indices as [|i rest IH]; cbn; [left; eauto|].
  destruct (array_get_cases local i) as [[[|] ->]| ->]; cbn; eauto.
Qed.

Lemma unlock_point_corresponds sb sx p :
  corresponds enc Q th sb sx ->
  unlock_allowed sb th (Call_unlock_point p) = true
  \/ release th (enc false) = Done (enc false) ->
  corresponds_state enc Q th (B.unlock_point sb th p) (unlock_point release sx th p).
Proof.
  intros Hc Hok.
  pose proof Hc as (Hcom & _).
  unfold B.unlock_point, unlock_point.
  rewrite <- (common_point_index sb sx p Hcom).
  destruct (point_index_cases sb p) as [[c Hi]|Hi]; rewrite Hi; [|exact I].
  change (corresponds_state enc Q th (B.unlock sb th c) (unlock release sx th c)).
  apply unlock_corresponds; [exact Hc|]. intros Hb.
  destruct Hok as [Hok|Hok]; [|exact Hok].
  exfalso. exact (unlock_allowed_point sb th p c Hi Hok Hb).
Qed.

Lemma do_call_corresponds sb sx c :
  corresponds enc Q th sb sx ->
  unlock_allowed sb th c = true \/ release th (enc false) = Done (enc false) ->
  corresponds_result enc Q th (B.do_call sb th c) (do_call release try_lock sx th c).
Proof.
  intros Hc Hok. unfold B.do_call. destruct c as [c|p r|c|p| |]; cbn [do_call].
  - pose proof (try_lock_corresponds sb sx c Hc) as Ht.
    destruct (B.try_lock sb th c) as [[b sb1] | | |];
      destruct (try_lock sx th c) as [[b' sx1] | | |]; cbn in Ht |- *; try contradiction.
    + destruct Ht as [<- Hc1]. auto.
    + exact I.
  - pose proof (try_lock_point_corresponds sb sx p r Hc) as Ht.
    unfold B.try_lock_point in Ht.
    destruct (try_lock_point B.release B.try_lock sb th p r) as [[b sb1] | | |];
      destruct (try_lock_point release try_lock sx th p r) as [[b' sx1] | | |];
      cbn in Ht |- *; try contradiction.
    + destruct Ht as [<- Hc1]. auto.
    + exact I.
  - assert (Hu : corresponds_state enc Q th (B.unlock sb th c) (unlock release sx th c)).
    { apply unlock_corresponds; [exact Hc|]. intros Hb.
      destruct Hok as [Hok|Hok]; [|exact Hok].
      unfold unlock_allowed in Hok. rewrite Hb in Hok. discriminate. }
    unfold B.unlock in Hu.
    destruct (unlock B.release sb th c) as [sb1 | | |];
      destruct (unlock release sx th c) as [sx1 | | |]; cbn in Hu |- *; try contradiction.
    + auto.
    + exact I.
  - pose proof (unlock_point_corresponds sb sx p Hc Hok) as Hu.
    unfold B.unlock_point in Hu.
    destruct (unlock_point B.release sb th p) as [sb1 | | |];
      destruct (unlock_point release sx th p) as [sx1 | | |]; cbn in Hu |- *; try contradiction.
    + auto.
    + exact I.
  - pose proof (unlock_all_corresponds sb sx Hc) as Hu.
    unfold B.unlock_all_tls_locked_cells in Hu.
    destruct (unlock_all_tls_locked_cells B.release sb th) as [sb1 | | |];
      destruct (unlock_all_tls_locked_cells release sx th) as [sx1 | | |];
      cbn in Hu |- *; try contradiction.
    + auto.
    + exact I.
  - rewrite <- (check_corresponds sb sx Hc).
    unfold B.check_if_all_tls_cells_are_unlocked, check_if_all_tls_cells_are_unlocked.
    destruct (all_unlocked_cases (seqZ 0 (num_cells sb)) (local_grid sb th))
      as [[b ->]| ->]; cbn; auto.
Qed.

Lemma run_corresponds (calls : list call) : forall sb sx,
  corresponds enc Q th sb sx ->
  unlocks_held_cells calls sb th = true \/ release th (enc false) = Done (enc false) ->
  corresponds_result enc Q th (B.run calls sb th) (run release try_lock calls sx th).
Proof.
  induction calls as [|c rest IH]; intros sb sx Hc Hok; unfold B.run in *; cbn [run].
  - split; [reflexivity | exact Hc].
  - assert (Hok1 : unlock_allowed sb th c = true
                   \/ release th (enc false) = Done (enc false)).
    { destruct Hok as [Hok|Hok]; [|right; exact Hok].
      cbn in Hok. apply andb_prop in Hok as [Hok _]. left. exact Hok. }
    pose proof (do_call_corresponds sb sx c Hc Hok1) as Hd.
    unfold B.do_call in Hd.
    destruct (do_call B.release B.try_lock sb th c) as [[r sb1] | | |] eqn:Eb;
      destruct (do_call release try_lock sx th c) as [[r' sx1] | | |];
      cbn in Hd; try contradiction; [|exact I].
    destruct Hd as [<- Hc1]. cbn.
    assert (Hok2 : unlocks_held_cells rest sb1 th = true
                   \/ release th (enc false) = Done (enc false)).
    { destruct Hok as [Hok|Hok]; [|right; exact Hok].
      cbn in Hok. apply andb_prop in Hok as [_ Hok].
      unfold B.do_call in Hok. rewrite Eb in Hok. left. exact Hok. }
    pose proof (IH sb1 sx1 Hc1 Hok2) as Hr.
    destruct (run B.release B.try_lock rest sb1 th) as [[rs sb2] | | |];
      destruct (run release try_lock rest sx1 th) as [[rs' sx2] | | |];
      cbn in *; try contradiction; [|exact I].
    destruct Hr as [<- Hc2]. auto.
Qed.

Lemma observe_corresponds
    (rb : result (list returned * B.t))
    (rx : result (list returned * locking_ds cell extra)) :
  corresponds_result enc Q th rb rx -> observe rx = observe rb.
Proof.
  destruct rb as [[rs sb] | | |]; destruct rx as [[rs' sx] | | |]; cbn;
    try contradiction; [|reflexivity].
  intros [<- (Hcom & _)]. rewrite Hcom. reflexivity.
Qed.

End Simulation.

Lemma mutex_try_lock_corresponds (th : nat) (sb : B.t) (sm : M.t) (c : Z) :
  corresponds (mutex_slot th) (fun _ => True) th sb sm ->
  corresponds_result (mutex_slot th) (fun _ => True) th
    (B.try_lock sb th c) (M.try_lock sm th c).
Proof.
  intros Hc. pose proof Hc as (Hcom & HJ & Hg & _).
  pose proof (common_members _ _ Hcom) as (_ & _ & _ & _ & Hl & _ & _).
  destruct (array_get_cases (local_grid sb th) c) as [[[|] Hb]|Hb].
  - unfold B.try_lock, M.try_lock. rewrite <- Hl, Hb. cbn. auto.
  - pose proof (acquire_corresponds _ _ th sb sm c Hc Hb) as Ha.
    assert (Hslot : array_get (m_grid sm) c = Done M.Mutex_free).
    { rewrite Hg. apply (array_get_fmap_Done (mutex_slot th) _ _ false).
      rewrite HJ. exact Hb. }
    unfold M.try_lock. rewrite <- Hl, Hb. cbn. rewrite Hslot. cbn. exact Ha.
  - unfold B.try_lock, M.try_lock. rewrite <- Hl, Hb. cbn. exact I.
Qed.

Lemma ids_try_lock_corresponds (me : Z) (th : nat) (sb : B.t) (si : I.t) (c : Z) :
  corresponds (owner_slot me) (has_id me th) th sb si ->
  corresponds_result (owner_slot me) (has_id me th) th
    (B.try_lock sb th c) (I.try_lock si th c).
Proof.
  intros Hc. pose proof Hc as (Hcom & HJ & Hg & HQ).
  pose proof (common_members _ _ Hcom) as (_ & _ & _ & _ & Hl & _ & _).
  destruct (array_get_cases (local_grid sb th) c) as [[[|] Hb]|Hb].
  - unfold B.try_lock, I.try_lock. rewrite <- Hl, Hb. cbn. auto.
  - unfold I.try_lock. rewrite <- Hl, Hb. cbn.
    destruct (I.local_thread_id si th) as [id s1] eqn:Hid.
    assert (Hs1 : id = me /\ corresponds (owner_slot me) (has_id me th) th sb s1).
    { unfold I.local_thread_id, has_id in *.
      destruct (I.m_tls_thread_ids (m_extra si) !! th) as [id'|] eqn:E.
      - injection Hid as <- <-. auto.
      - injection Hid as <- <-. split; [exact HQ|].
        unfold corresponds. split_and!; try assumption.
        cbn. rewrite lookup_insert_eq. exact HQ. }
    destruct Hs1 as [-> Hc1].
    pose proof (acquire_corresponds _ _ th sb s1 c Hc1 Hb) as Ha.
    destruct Hc1 as (_ & _ & Hg1 & _).
    assert (Hslot : array_get (m_grid s1) c = Done 0).
    { rewrite Hg1. apply (array_get_fmap_Done (owner_slot me) _ _ false).
      rewrite HJ. exact Hb. }
    destruct (I.other_threads (m_extra s1)); cbn; rewrite Hslot; cbn; exact Ha.
  - unfold B.try_lock, I.try_lock. rewrite <- Hl, Hb. cbn. exact I.
Qed.

Lemma corresponds_construct {cell extra : Type} (enc : bool -> cell)
    (Q : extra -> Prop) (e : extra) (th : nat) (bbox : Bbox_3) (n : Z)
    (sb : B.t) (sx : locking_ds cell extra) :
  Q e ->
  B.Simple_grid_locking_ds bbox n = Done sb ->
  construct (enc false) e bbox n = Done sx ->
  corresponds enc Q th sb sx.
Proof.
  intros HQ [-> _]%construct_fields [-> _]%construct_fields.
  unfold corresponds. split_and!.
  - reflexivity.
  - unfold local_grid. cbn. rewrite lookup_empty. reflexivity.
  - cbn. symmetry. apply fmap_replicate.
  - exact HQ.
Qed.



Lemma example_calls_return :
  (r ← B.run example_calls fresh_10 0%nat; mret r.1)
  = Done [Ret_bool true; Ret_pair true 555; Ret_bool true; Ret_void;
          Ret_bool false; Ret_void; Ret_bool true].
Proof. vm_compute. reflexivity. Qed.

(** [unlock] of a cell that the caller does not hold: the boolean class
    returns, the mutex class unlocks a mutex that the caller does not own. *)
Lemma unlock_of_free_cell_differs :
  B.run [Call_unlock 0] (state_after (s ← B.Simple_grid_locking_ds unit_box 1;
                                      mret (tt, s)) fresh_10) 0%nat
  = Done ([Ret_void],
          Build_locking_ds 1 (d_make 0 0) (d_make 0 0) (d_make 0 0)
            (d_make 1 0) (d_make 1 0) (d_make 1 0) [false] {[0%nat := [false]]} ∅ tt)
  /\ M.run [Call_unlock 0] (state_after (s ← M.Simple_grid_locking_ds_with_mutex unit_box 1;
                                         mret (tt, s)) fresh_mutex_10) 0%nat
     = Undefined.
Proof. split; vm_compute; reflexivity. Qed.


(** ** Region locking returns *)

Lemma axis_range_bounds (n index r i : Z) :
  1 <= n <= 1290 -> i ∈ axis_range n index r -> 0 <= i <= n - 1.
Proof.
  intros Hn Hi. unfold axis_range in Hi. apply elem_of_seqZ in Hi.
  unfold int_sub in Hi.
  rewrite (wrap_int_id (n - 1)) in Hi by (unfold INT_MIN, INT_MAX; lia). lia.
Qed.

Lemma region_cells_bounds (n ix iy iz r c : Z) :
  1 <= n <= 1290 -> c ∈ region_cells n ix iy iz r -> 0 <= c <= n * n * n - 1.
Proof.
  intros Hn Hc. unfold region_cells in Hc.
  apply list_elem_of_bind in Hc as (i & Hc & Hi).
  apply list_elem_of_bind in Hc as (j & Hc & Hj).
  apply list_elem_of_bind in Hc as (k & Hc & Hk).
  apply list_elem_of_singleton in Hc as ->.
  apply axis_range_bounds in Hi, Hj, Hk; try assumption.
  destruct (cell_index_small n i j k Hn Hi Hj Hk) as [-> H]. exact H.
Qed.

Lemma try_lock_defined (s : B.t) (th : nat) (c : Z) :
  0 <= c -> (Z.to_nat c < length (m_grid s))%nat ->
  length (local_grid s th) = length (m_grid s) ->
  exists b s', B.try_lock s th c = Done (b, s')
    /\ length (m_grid s') = length (m_grid s)
    /\ length (local_grid s' th) = length (local_grid s th).
Proof.
  intros H0 Hc Hlen.
  destruct (lookup_lt_is_Some_2 (local_grid s th) (Z.to_nat c)) as [bit Hbit]; [lia|].
  destruct (lookup_lt_is_Some_2 (m_grid s) (Z.to_nat c)) as [slot Hslot]; [lia|].
  assert (Hgb : array_get (local_grid s th) c = Done bit) by (apply array_get_Done; auto).
  assert (Hgs : array_get (m_grid s) c = Done slot) by (apply array_get_Done; auto).
  unfold B.try_lock. rewrite Hgb. cbn. destruct bit; [eauto|].
  rewrite Hgs. cbn. destruct slot; [eauto|].
  rewrite (array_set_get _ _ true _ Hgs). cbn. unfold record_lock.
  change (local_grid (set_grid s ?g) th) with (local_grid s th).
  rewrite (array_set_get _ _ true _ Hgb). cbn.
  eexists _, _. split; [reflexivity|]. split.
  - cbn. apply length_insert.
  - rewrite local_grid_set_tls_locked_cells, local_grid_set_tls_grids,
      decide_True by reflexivity.
    apply length_insert.
Qed.

Lemma unlock_each_defined (cells : list Z) (th : nat) : forall s : B.t,
  length (local_grid s th) = length (m_grid s) ->
  (forall c, c ∈ cells -> 0 <= c /\ (Z.to_nat c < length (m_grid s))%nat) ->
  exists s', unlock_each B.release cells s th = Done s'.
Proof.
  induction cells as [|c rest IH]; intros s Hlen Hin; cbn; [eauto|].
  destruct (Hin c) as [H0 Hc]; [left; reflexivity|].
  destruct (lookup_lt_is_Some_2 (local_grid s th) (Z.to_nat c)) as [bit Hbit]; [lia|].
  destruct (lookup_lt_is_Some_2 (m_grid s) (Z.to_nat c)) as [slot Hslot]; [lia|].
  rewrite (unlock_defined B.release s th c slot false bit);
    [|apply array_get_Done; auto|reflexivity|apply array_get_Done; auto].
  cbn. apply IH.
  - rewrite local_grid_set_tls_grids, decide_True by reflexivity.
    cbn. rewrite !length_insert. exact Hlen.
  - intros c' Hc'. cbn. rewrite length_insert. apply Hin. right. exact Hc'.
Qed.

Lemma lock_cells_defined (cells : list Z) (th : nat) : forall (tmp : list Z) (s : B.t),
  length (local_grid s th) = length (m_grid s) ->
  (forall c, c ∈ cells ++ tmp -> 0 <= c /\ (Z.to_nat c < length (m_grid s))%nat) ->
  exists b s', lock_cells B.release B.try_lock cells tmp s th = Done (b, s').
Proof.
  induction cells as [|c rest IH]; intros tmp s Hlen Hin; cbn; [eauto|].
  destruct (Hin c) as [H0 Hc]; [left; reflexivity|].
  destruct (try_lock_defined s th c H0 Hc Hlen) as (b & s1 & -> & Hg & Hl). cbn.
  assert (Hin1 : forall c', c' ∈ c :: rest ++ tmp ->
            0 <= c' /\ (Z.to_nat c' < length (m_grid s1))%nat)
    by (intros c' Hc'; rewrite Hg; apply Hin; exact Hc').
  destruct b.
  - apply IH; [congruence|].
    intros c' Hc'. apply Hin1.
    rewrite !elem_of_app in Hc'. rewrite elem_of_cons, elem_of_app.
    destruct Hc' as [Hc'|[Hc'|Hc']]; [right; left; exact Hc' | right; right; exact Hc' |].
    left. apply list_elem_of_singleton in Hc'. exact Hc'.
  - destruct (unlock_each_defined tmp th s1) as [s2 ->]; [congruence| |cbn; eauto].
    intros c' Hc'. apply Hin1. right. apply elem_of_app. right. exact Hc'.
Qed.

Lemma point_index_Done {cell extra : Type} (s : locking_ds cell extra) (p : P3) (index : Z) :
  point_index s p = Done index ->
  exists ix iy iz,
    point_indices s p = Done (ix, iy, iz)
    /\ cell_index (m_num_grid_cells_per_axis s) ix iy iz = index.
Proof.
  unfold point_index. intros H.
  apply bind_Done in H as ([[ix iy] iz] & Hi & H).
  exists ix, iy, iz. split; [exact Hi|]. revert H. apply Done_inj.
Qed.

Lemma axis_index_bounds (n : Z) (c min resolution : double) (i : Z) :
  1 <= n <= 1290 -> axis_index n c min resolution = Done i -> 0 <= i <= n - 1.
Proof.
  intros Hn H. unfold axis_index in H.
  apply bind_Done in H as (raw & _ & H). apply Done_inj in H.
  unfold int_sub in H. rewrite wrap_int_id in H by (unfold INT_MIN, INT_MAX; lia).
  clear - Hn H. lia.
Qed.

Lemma point_indices_bounds {cell extra : Type} (s : locking_ds cell extra) (p : P3)
    (ix iy iz : Z) :
  1 <= m_num_grid_cells_per_axis s <= 1290 ->
  point_indices s p = Done (ix, iy, iz) ->
  0 <= ix <= m_num_grid_cells_per_axis s - 1
  /\ 0 <= iy <= m_num_grid_cells_per_axis s - 1
  /\ 0 <= iz <= m_num_grid_cells_per_axis s - 1.
Proof.
  intros Hn Hi. unfold point_indices in Hi.
  apply bind_Done in Hi as (x & Hx & Hi).
  apply bind_Done in Hi as (y & Hy & Hi).
  apply bind_Done in Hi as (z & Hz & Hi).
  apply Done_inj in Hi. inversion Hi; subst.
  split_and!; eapply axis_index_bounds; eassumption.
Qed.

Lemma try_lock_point_at {cell extra : Type} (release : nat -> cell -> result cell)
    (try_lock : locking_ds cell extra -> nat -> Z -> result (bool * locking_ds cell extra))
    (s : locking_ds cell extra) (th : nat) (p : P3) (r ix iy iz index : Z) :
  point_indices s p = Done (ix, iy, iz) ->
  cell_index (m_num_grid_cells_per_axis s) ix iy iz = index ->
  try_lock_point release try_lock s th p r =
  if r =? 0 then
    '(locked, s') ← try_lock s th index; mret ((locked, index), s')
  else
    '(locked, s') ← lock_cells release try_lock
       (region_cells (m_num_grid_cells_per_axis s) ix iy iz r) [] s th;
    mret ((locked, index), s').
Proof.
  intros Hi <-. unfold try_lock_point. rewrite Hi. reflexivity.
Qed.

Lemma try_lock_point_defined (s : B.t) (th : nat) (p : P3) (r index : Z) :
  well_formed s th -> point_index s p = Done index ->
  exists b s', B.try_lock_point s th p r = Done ((b, index), s').
Proof.
  intros (Hn & Hg & Hl) Hp.
  apply point_index_Done in Hp as (ix & iy & iz & Hi & Hidx).
  destruct (point_indices_bounds s p ix iy iz Hn Hi) as (Hx & Hy & Hz).
  destruct (cell_index_small _ ix iy iz Hn Hx Hy Hz) as [Hval Hrange].
  rewrite Hidx in Hval. rewrite <- Hval in Hrange. clear Hval.
  unfold B.try_lock_point. rewrite (try_lock_point_at _ _ s th p r ix iy iz index Hi Hidx).
  clear Hidx. destruct (r =? 0).
  - destruct (try_lock_defined s th index) as (b & s' & -> & _);
      [lia | lia | exact Hl | cbn; eauto].
  - destruct (lock_cells_defined
                (region_cells (m_num_grid_cells_per_axis s) ix iy iz r) th [] s Hl)
      as (b & s' & ->); [|cbn; eauto].
    intros c Hc. rewrite app_nil_r in Hc.
    apply region_cells_bounds in Hc; [|exact Hn]. lia.
Qed.

(** * Further properties of [Simple_grid_locking_ds] *)

(** ** What a single call does *)

Lemma try_lock_cases (s s' : B.t) (th : nat) (c : Z) (b : bool) :
  B.try_lock s th c = Done (b, s') ->
  (b = true /\ array_get (local_grid s th) c = Done true /\ s' = s)
  \/ (b = false /\ array_get (local_grid s th) c = Done false
      /\ array_get (m_grid s) c = Done true /\ s' = s)
  \/ (b = true /\ array_get (local_grid s th) c = Done false
      /\ array_get (m_grid s) c = Done false /\ s' = acquired s th c).
Proof.
  unfold B.try_lock. intros H.
  apply bind_Done in H as (held & Hheld & H). destruct held.
  - apply Done_inj in H. inversion H; subst. left. auto.
  - apply bind_Done in H as (old & Hold & H). destruct old.
    + apply Done_inj in H. inversion H; subst. right. left. auto.
    + apply bind_Done in H as (g & Hg & H).
      apply bind_Done in H as (s1 & Hr & H).
      apply Done_inj in H. inversion H; subst.
      apply array_set_Done in Hg as (_ & _ & ->).
      apply record_lock_Done in Hr as (_ & _ & ->).
      right. right. auto.
Qed.

Lemma unlock_is_unlocked (s s' : B.t) (th : nat) (c : Z) :
  B.unlock s th c = Done s' ->
  s' = unlocked s th c
  /\ 0 <= c /\ (Z.to_nat c < length (m_grid s))%nat
  /\ (Z.to_nat c < length (local_grid s th))%nat.
Proof.
  unfold B.unlock. intros H.
  apply unlock_Done in H as (slot & slot' & Hslot & Hrel & Hlt & ->).
  apply Done_inj in Hrel. subst slot'.
  apply array_get_Done in Hslot as [H0 Hs]. apply lookup_lt_Some in Hs. auto.
Qed.

Lemma acquired_members (s : B.t) (th : nat) (c : Z) :
  m_grid (acquired s th c) = <[Z.to_nat c := true]> (m_grid s)
  /\ m_num_grid_cells_per_axis (acquired s th c) = m_num_grid_cells_per_axis s
  /\ local_grid (acquired s th c) th = <[Z.to_nat c := true]> (local_grid s th)
  /\ local_locked_cells (acquired s th c) th = local_locked_cells s th ++ [c]
  /\ (forall u, u <> th ->
        local_grid (acquired s th c) u = local_grid s u
        /\ local_locked_cells (acquired s th c) u = local_locked_cells s u).
Proof.
  unfold acquired. split_and!; try reflexivity.
  - rewrite local_grid_set_tls_locked_cells, local_grid_set_tls_grids,
      decide_True by reflexivity. reflexivity.
  - rewrite local_locked_cells_set, decide_True by reflexivity. reflexivity.
  - intros u Hu. split.
    + rewrite local_grid_set_tls_locked_cells, local_grid_set_tls_grids,
        decide_False by congruence. reflexivity.
    + rewrite local_locked_cells_set, decide_False by congruence. reflexivity.
Qed.

Lemma unlocked_members (s : B.t) (th : nat) (c : Z) :
  m_grid (unlocked s th c) = <[Z.to_nat c := false]> (m_grid s)
  /\ m_num_grid_cells_per_axis (unlocked s th c) = m_num_grid_cells_per_axis s
  /\ local_grid (unlocked s th c) th = <[Z.to_nat c := false]> (local_grid s th)
  /\ (forall u, local_locked_cells (unlocked s th c) u = local_locked_cells s u)
  /\ (forall u, u <> th -> local_grid (unlocked s th c) u = local_grid s u).
Proof.
  unfold unlocked. split_and!; try reflexivity.
  - rewrite local_grid_set_tls_grids, decide_True by reflexivity. reflexivity.
  - intros u Hu. rewrite local_grid_set_tls_grids, decide_False by congruence.
    reflexivity.
Qed.

(** ** A call changes the caller's members only *)

Lemma evolves_refl {cell extra : Type} (th : nat) (s : locking_ds cell extra) :
  evolves th s s.
Proof. unfold evolves. auto. Qed.

Lemma evolves_trans {cell extra : Type} (th : nat) (s1 s2 s3 : locking_ds cell extra) :
  evolves th s1 s2 -> evolves th s2 s3 -> evolves th s1 s3.
Proof.
  intros (HN & Hg & Hl & Ho) (HN' & Hg' & Hl' & Ho'). unfold evolves.
  split_and!.
  - congruence.
  - congruence.
  - intros u. etransitivity; [apply Hl' | apply Hl].
  - intros u Hu. destruct (Ho u Hu) as [<- <-]. apply Ho'. exact Hu.
Qed.

Lemma evolves_acquired (s : B.t) (th : nat) (c : Z) : evolves th s (acquired s th c).
Proof.
  destruct (acquired_members s th c) as (Hg & HN & Hl & _ & Ho).
  unfold evolves. split_and!.
  - exact HN.
  - rewrite Hg. apply length_insert.
  - intros u. destruct (decide (u = th)) as [->|Hu].
    + rewrite Hl. apply length_insert.
    + destruct (Ho u Hu) as [-> _]. reflexivity.
  - exact Ho.
Qed.

Lemma evolves_unlocked (s : B.t) (th : nat) (c : Z) : evolves th s (unlocked s th c).
Proof.
  destruct (unlocked_members s th c) as (Hg & HN & Hl & Hv & Ho).
  unfold evolves. split_and!.
  - exact HN.
  - rewrite Hg. apply length_insert.
  - intros u. destruct (decide (u = th)) as [->|Hu].
    + rewrite Hl. apply length_insert.
    + rewrite (Ho u Hu). reflexivity.
  - intros u Hu. split; [apply Ho; exact Hu | apply Hv].
Qed.

Lemma evolves_try_lock (s s' : B.t) (th : nat) (c : Z) (b : bool) :
  B.try_lock s th c = Done (b, s') -> evolves th s s'.
Proof.
  intros [(_ & _ & ->)|[(_ & _ & _ & ->)|(_ & _ & _ & ->)]]%try_lock_cases;
    auto using evolves_refl, evolves_acquired.
Qed.

Lemma evolves_unlock (s s' : B.t) (th : nat) (c : Z) :
  B.unlock s th c = Done s' -> evolves th s s'.
Proof. intros (-> & _)%unlock_is_unlocked. apply evolves_unlocked. Qed.

Lemma evolves_unlock_each (cells : list Z) (th : nat) : forall s s' : B.t,
  unlock_each B.release cells s th = Done s' -> evolves th s s'.
Proof.
  induction cells as [|c rest IH]; intros s s' H; cbn in H.
  - apply Done_inj in H. subst. apply evolves_refl.
  - apply bind_Done in H as (s1 & Hu & H).
    eapply evolves_trans; [apply (evolves_unlock s s1 th c Hu) | apply IH; exact H].
Qed.

Lemma evolves_lock_cells (cells : list Z) (th : nat) : forall tmp (s s' : B.t) b,
  lock_cells B.release B.try_lock cells tmp s th = Done (b, s') -> evolves th s s'.
Proof.
  induction cells as [|c rest IH]; intros tmp s s' b H; cbn in H.
  - apply Done_inj in H. inversion H; subst. apply evolves_refl.
  - apply bind_Done in H as ([locked s1] & Ht & H).
    apply evolves_try_lock in Ht. destruct locked.
    + eapply evolves_trans; [exact Ht | eapply IH; exact H].
    + apply bind_Done in H as (s2 & Hu & H). apply Done_inj in H. inversion H; subst.
      eapply evolves_trans; [exact Ht | eapply evolves_unlock_each; exact Hu].
Qed.

Lemma try_lock_point_Done {cell extra : Type} (release : nat -> cell -> result cell)
    (try_lock : locking_ds cell extra -> nat -> Z -> result (bool * locking_ds cell extra))
    (s s' : locking_ds cell extra) (th : nat) (p : P3) (r index : Z) (b : bool) :
  try_lock_point release try_lock s th p r = Done ((b, index), s') ->
  exists ix iy iz,
    point_indices s p = Done (ix, iy, iz)
    /\ cell_index (m_num_grid_cells_per_axis s) ix iy iz = index
    /\ (r = 0 -> try_lock s th index = Done (b, s'))
    /\ (r <> 0 ->
        lock_cells release try_lock
          (region_cells (m_num_grid_cells_per_axis s) ix iy iz r) [] s th
        = Done (b, s')).
Proof.
  intros H.
  destruct (try_lock_point_index release try_lock s s' th p r b index H) as [Hp H0].
  apply point_index_Done in Hp as (ix & iy & iz & Hi & Hidx).
  exists ix, iy, iz. split_and!; try assumption.
  intros Hr. rewrite (try_lock_point_at _ _ s th p r ix iy iz index Hi Hidx) in H.
  destruct (Z.eqb_spec r 0); [contradiction|].
  apply bind_Done in H as ([b' s''] & Hl & H).
  apply Done_inj in H. inversion H; subst. exact Hl.
Qed.

Lemma evolves_try_lock_point (s s' : B.t) (th : nat) (p : P3) (r : Z) res :
  B.try_lock_point s th p r = Done (res, s') -> evolves th s s'.
Proof.
  destruct res as [b index]. intros H.
  apply try_lock_point_Done in H as (ix & iy & iz & _ & _ & H0 & Hr).
  destruct (Z.eq_dec r 0) as [Hz|Hz].
  - eapply evolves_try_lock. apply H0. exact Hz.
  - eapply evolves_lock_cells. apply Hr. exact Hz.
Qed.

Lemma evolves_unlock_owned (cells : list Z) (th : nat) : forall s s' : B.t,
  unlock_owned B.release cells s th = Done s' -> evolves th s s'.
Proof.
  induction cells as [|c rest IH]; intros s s' H; cbn in H.
  - apply Done_inj in H. subst. apply evolves_refl.
  - apply bind_Done in H as (owned & _ & H).
    apply bind_Done in H as (s1 & Hu & H).
    eapply evolves_trans; [|apply IH; exact H].
    destruct owned.
    + apply (evolves_unlock s s1 th c Hu).
    + apply Done_inj in Hu. subst. apply evolves_refl.
Qed.

Lemma evolves_unlock_all (s s' : B.t) (th : nat) :
  B.unlock_all_tls_locked_cells s th = Done s' -> evolves th s s'.
Proof.
  unfold B.unlock_all_tls_locked_cells, unlock_all_tls_locked_cells. intros H.
  apply bind_Done in H as (s1 & Hu & H). apply Done_inj in H. subst s'.
  eapply evolves_trans; [eapply evolves_unlock_owned; exact Hu|].
  unfold evolves. split_and!; try reflexivity.
  intros u Hu'. split; [reflexivity|].
  rewrite local_locked_cells_set, decide_False by congruence. reflexivity.
Qed.

Lemma do_call_cases (s s' : B.t) (th : nat) (c : call) (r : returned) :
  B.do_call s th c = Done (r, s') ->
  match c with
  | Call_try_lock cell_index => exists b, B.try_lock s th cell_index = Done (b, s')
  | Call_try_lock_point point lock_radius =>
      exists res, B.try_lock_point s th point lock_radius = Done (res, s')
  | Call_unlock cell_index => B.unlock s th cell_index = Done s'
  | Call_unlock_point point =>
      exists cell_index, point_index s point = Done cell_index
                         /\ B.unlock s th cell_index = Done s'
  | Call_unlock_all_tls_locked_cells => B.unlock_all_tls_locked_cells s th = Done s'
  | Call_check_if_all_tls_cells_are_unlocked => s' = s
  end.
Proof.
  unfold B.do_call. destruct c; cbn [do_call]; intros H.
  - apply bind_Done in H as ([b s1] & Ht & H). apply Done_inj in H.
    inversion H; subst. eauto.
  - apply bind_Done in H as ([res s1] & Ht & H). apply Done_inj in H.
    inversion H; subst. eauto.
  - apply bind_Done in H as (s1 & Hu & H). apply Done_inj in H.
    inversion H; subst. exact Hu.
  - apply bind_Done in H as (s1 & Hu & H). apply Done_inj in H.
    inversion H; subst. unfold unlock_point in Hu.
    apply bind_Done in Hu as (index & Hp & Hu). eauto.
  - apply bind_Done in H as (s1 & Hu & H). apply Done_inj in H.
    inversion H; subst. exact Hu.
  - apply bind_Done in H as (b & _ & H). apply Done_inj in H.
    inversion H; subst. reflexivity.
Qed.

Lemma evolves_do_call (s s' : B.t) (th : nat) (c : call) (r : returned) :
  B.do_call s th c = Done (r, s') -> evolves th s s'.
Proof.
  intros H. apply do_call_cases in H. destruct c.
  - destruct H as [b H]. eapply evolves_try_lock; exact H.
  - destruct H as [res H]. eapply evolves_try_lock_point; exact H.
  - eapply evolves_unlock; exact H.
  - destruct H as (i & _ & H). eapply evolves_unlock; exact H.
  - apply evolves_unlock_all; exact H.
  - subst. apply evolves_refl.
Qed.

(** ** Mutual exclusion *)

Lemma exclusive_acquired (s : B.t) (th : nat) (c : Z) :
  exclusive s -> m_grid s !! Z.to_nat c = Some false ->
  exclusive (acquired s th c).
Proof.
  intros [Hslot Hone] Hfree.
  destruct (acquired_members s th c) as (Hg & _ & Hl & _ & Ho).
  assert (Hnobody : forall u, ~ holds s u (Z.to_nat c)).
  { intros u Hu. apply Hslot in Hu. congruence. }
  assert (Hback : forall u i, i <> Z.to_nat c ->
            holds (acquired s th c) u i -> holds s u i).
  { intros u i Hi Hu. unfold holds in *. destruct (decide (u = th)) as [->|Hne].
    - rewrite Hl, list_lookup_insert_ne in Hu by congruence. exact Hu.
    - destruct (Ho u Hne) as [Hlu _]. rewrite Hlu in Hu. exact Hu. }
  assert (Honly : forall u, holds (acquired s th c) u (Z.to_nat c) -> u = th).
  { intros u Hu. destruct (decide (u = th)) as [->|Hne]; [reflexivity|].
    exfalso. apply (Hnobody u). unfold holds in *.
    destruct (Ho u Hne) as [Hlu _]. rewrite Hlu in Hu. exact Hu. }
  split.
  - intros u i Hu. rewrite Hg. destruct (decide (i = Z.to_nat c)) as [->|Hi].
    + apply list_lookup_insert_eq. apply lookup_lt_Some in Hfree. exact Hfree.
    + rewrite list_lookup_insert_ne by congruence. apply (Hslot u). auto.
  - intros u v i Hu Hv. destruct (decide (i = Z.to_nat c)) as [->|Hi].
    + rewrite (Honly u Hu), (Honly v Hv). reflexivity.
    + apply (Hone u v i); auto.
Qed.

Lemma exclusive_unlocked (s : B.t) (th : nat) (c : Z) :
  exclusive s -> (forall u, u <> th -> ~ holds s u (Z.to_nat c)) ->
  exclusive (unlocked s th c).
Proof.
  intros [Hslot Hone] Hnobody.
  destruct (unlocked_members s th c) as (Hg & _ & Hl & _ & Ho).
  assert (Hback : forall u i, holds (unlocked s th c) u i ->
            holds s u i /\ i <> Z.to_nat c).
  { intros u i Hu. unfold holds in *. destruct (decide (u = th)) as [->|Hne].
    - rewrite Hl in Hu. destruct (decide (i = Z.to_nat c)) as [->|Hi].
      + exfalso. destruct (decide (Z.to_nat c < length (local_grid s th))%nat).
        * rewrite list_lookup_insert_eq in Hu by assumption. discriminate.
        * rewrite list_insert_ge in Hu by lia.
          apply lookup_lt_Some in Hu. lia.
      + rewrite list_lookup_insert_ne in Hu by congruence. auto.
    - rewrite (Ho u Hne) in Hu. split; [exact Hu|].
      intros ->. apply (Hnobody u Hne). exact Hu. }
  split.
  - intros u i Hu. destruct (Hback u i Hu) as [Hs Hi].
    rewrite Hg, list_lookup_insert_ne by congruence. apply (Hslot u). exact Hs.
  - intros u v i Hu Hv. apply (Hone u v i); [apply (Hback u i Hu) | apply (Hback v i Hv)].
Qed.

Lemma holds_alone (s : B.t) (th : nat) (i : nat) :
  exclusive s -> holds s th i -> forall u, u <> th -> ~ holds s u i.
Proof. intros [_ Hone] Hth u Hne Hu. apply Hne. apply (Hone u th i); assumption. Qed.

Lemma exclusive_try_lock (s s' : B.t) (th : nat) (c : Z) (b : bool) :
  exclusive s -> B.try_lock s th c = Done (b, s') -> exclusive s'.
Proof.
  intros He [(_ & _ & ->)|[(_ & _ & _ & ->)|(_ & _ & Hfree & ->)]]%try_lock_cases;
    try exact He.
  apply exclusive_acquired; [exact He|].
  apply array_get_Done in Hfree as [_ Hfree]. exact Hfree.
Qed.

(** A successful [try_lock] leaves the caller holding the cell, and never
    makes it drop another one. *)
Lemma try_lock_true_holds (s s' : B.t) (th : nat) (c : Z) :
  B.try_lock s th c = Done (true, s') ->
  holds s' th (Z.to_nat c) /\ (forall i, holds s th i -> holds s' th i).
Proof.
  intros [(_ & Hb & ->)|[(Hf & _)|(_ & Hb & _ & ->)]]%try_lock_cases;
    try discriminate.
  - split; [|auto]. apply array_get_Done in Hb as [_ Hb]. exact Hb.
  - destruct (acquired_members s th c) as (_ & _ & Hl & _).
    apply array_get_Done in Hb as [_ Hb]. apply lookup_lt_Some in Hb.
    unfold holds. rewrite Hl. split.
    + apply list_lookup_insert_eq. exact Hb.
    + intros i Hi. destruct (decide (i = Z.to_nat c)) as [->|Hne].
      * apply list_lookup_insert_eq. exact Hb.
      * rewrite list_lookup_insert_ne by congruence. exact Hi.
Qed.

Lemma exclusive_unlock_each (cells : list Z) (th : nat) : forall s s' : B.t,
  exclusive s ->
  (forall c u, c ∈ cells -> u <> th -> ~ holds s u (Z.to_nat c)) ->
  unlock_each B.release cells s th = Done s' ->
  exclusive s'.
Proof.
  induction cells as [|c rest IH]; intros s s' He Hothers H; cbn in H.
  - apply Done_inj in H. subst. exact He.
  - apply bind_Done in H as (s1 & Hu & H).
    pose proof (evolves_unlock s s1 th c Hu) as (_ & _ & _ & Ho).
    apply unlock_is_unlocked in Hu as (-> & _).
    apply (IH (unlocked s th c)); [| |exact H].
    + apply exclusive_unlocked; [exact He|].
      intros u Hne. apply Hothers; [left; reflexivity | exact Hne].
    + intros c' u Hc' Hne Hh. apply (Hothers c' u); [right; exact Hc' | exact Hne |].
      unfold holds in *. destruct (Ho u Hne) as [Hlu _]. rewrite Hlu in Hh. exact Hh.
Qed.

Lemma exclusive_lock_cells (cells : list Z) (th : nat) : forall tmp (s s' : B.t) b,
  exclusive s ->
  (forall c, c ∈ tmp -> holds s th (Z.to_nat c)) ->
  lock_cells B.release B.try_lock cells tmp s th = Done (b, s') ->
  exclusive s'.
Proof.
  induction cells as [|c rest IH]; intros tmp s s' b He Htmp H; cbn in H.
  - apply Done_inj in H. inversion H; subst. exact He.
  - apply bind_Done in H as ([locked s1] & Ht & H).
    pose proof (exclusive_try_lock s s1 th c locked He Ht) as He1.
    destruct locked.
    + destruct (try_lock_true_holds s s1 th c Ht) as [Hc Hkeep].
      apply (IH (tmp ++ [c]) s1 s' b He1); [|exact H].
      intros c' Hc'. apply elem_of_app in Hc' as [Hc'|Hc'].
      * apply Hkeep, Htmp, Hc'.
      * apply list_elem_of_singleton in Hc'. subst c'. exact Hc.
    + apply bind_Done in H as (s2 & Hu & H). apply Done_inj in H. inversion H; subst.
      apply try_lock_cases in Ht as [(Hf & _)|[(_ & _ & _ & ->)|(Hf & _)]];
        try discriminate.
      apply (exclusive_unlock_each tmp th s s' He); [|exact Hu].
      intros c' u Hc' Hne. apply (holds_alone s th); auto.
Qed.

Lemma exclusive_unlock_owned (cells : list Z) (th : nat) : forall s s' : B.t,
  exclusive s -> unlock_owned B.release cells s th = Done s' -> exclusive s'.
Proof.
  induction cells as [|c rest IH]; intros s s' He H; cbn in H.
  - apply Done_inj in H. subst. exact He.
  - apply bind_Done in H as (owned & Ho & H).
    apply bind_Done in H as (s1 & Hu & H).
    apply (IH s1); [|exact H]. destruct owned.
    + apply unlock_is_unlocked in Hu as (-> & _).
      apply exclusive_unlocked; [exact He|].
      apply array_get_Done in Ho as [_ Ho].
      intros u Hne. apply (holds_alone s th); auto.
    + apply Done_inj in Hu. subst. exact He.
Qed.

Lemma exclusive_do_call (s s' : B.t) (th : nat) (c : call) (r : returned) :
  exclusive s -> unlock_allowed s th c = true ->
  B.do_call s th c = Done (r, s') -> exclusive s'.
Proof.
  intros He Hok H. apply do_call_cases in H.
  destruct c as [cell|point lock_radius|cell|point| |].
  - destruct H as [b H]. eapply exclusive_try_lock; eassumption.
  - destruct H as [[b index] H].
    apply try_lock_point_Done in H as (ix & iy & iz & _ & _ & H0 & Hr).
    destruct (Z.eq_dec lock_radius 0) as [Hz|Hz].
    + eapply exclusive_try_lock; [exact He | apply H0; exact Hz].
    + eapply (exclusive_lock_cells _ th []); [exact He | | apply Hr; exact Hz].
      intros c Hc. inversion Hc.
  - pose proof H as (-> & H0 & _ & Hlt)%unlock_is_unlocked.
    apply exclusive_unlocked; [exact He|].
    destruct (lookup_lt_is_Some_2 (local_grid s th) (Z.to_nat cell) Hlt) as [bit Hbit].
    assert (Hget : array_get (local_grid s th) cell = Done bit)
      by (apply array_get_Done; auto).
    unfold unlock_allowed in Hok. rewrite Hget in Hok. destruct bit; [|discriminate].
    intros u Hne. apply (holds_alone s th); auto.
  - destruct H as (i & Hp & H).
    pose proof H as (-> & H0 & _ & Hlt)%unlock_is_unlocked.
    apply exclusive_unlocked; [exact He|].
    destruct (lookup_lt_is_Some_2 (local_grid s th) (Z.to_nat i) Hlt) as [bit Hbit].
    assert (Hget : array_get (local_grid s th) i = Done bit)
      by (apply array_get_Done; auto).
    destruct bit.
    + intros u Hne. apply (holds_alone s th); auto.
    + exfalso. exact (unlock_allowed_point s th point i Hp Hok Hget).
  - unfold B.unlock_all_tls_locked_cells, unlock_all_tls_locked_cells in H.
    apply bind_Done in H as (s1 & Hu & H). apply Done_inj in H. subst s'.
    apply exclusive_unlock_owned in Hu; [|exact He]. exact Hu.
  - subst. exact He.
Qed.

Lemma exclusive_construct (bbox : Bbox_3) (n : Z) (s : B.t) :
  B.Simple_grid_locking_ds bbox n = Done s -> exclusive s.
Proof.
  intros [-> _]%construct_fields. unfold exclusive, holds, local_grid. cbn.
  split.
  - intros th i Hi. rewrite lookup_empty in Hi. cbn in Hi.
    apply lookup_replicate in Hi as [Hi _]. discriminate.
  - intros th u i Hi. rewrite lookup_empty in Hi. cbn in Hi.
    apply lookup_replicate in Hi as [Hi _]. discriminate.
Qed.

Lemma exclusive_run_threads (calls : list (nat * call)) : forall (s s' : B.t) rets,
  exclusive s -> threads_unlock_held calls s = true ->
  run_threads B.release B.try_lock calls s = Done (rets, s') ->
  exclusive s'.
Proof.
  induction calls as [|[th c] rest IH]; intros s s' rets He Hok H; cbn in H.
  - apply Done_inj in H. inversion H; subst. exact He.
  - apply bind_Done in H as ([r s1] & Hc & H).
    apply bind_Done in H as ([rs s2] & Hr & H).
    apply Done_inj in H. inversion H; subst.
    cbn in Hok. apply andb_prop in Hok as [Hok1 Hok2].
    unfold B.do_call in Hok2. rewrite Hc in Hok2.
    apply (IH s1 s' rs); [|exact Hok2|exact Hr].
    eapply exclusive_do_call; [exact He|exact Hok1|exact Hc].
Qed.

(** Mutual exclusion.  After any interleaving of calls of any threads on a
    constructed manager, in which [unlock] was only called by a thread for
    a cell it held, no cell is held by two threads and the slot of every
    held cell is set. *)
Theorem mutual_exclusion (bbox : Bbox_3) (n : Z) (s0 s : B.t)
    (calls : list (nat * call)) (rets : list returned) :
  B.Simple_grid_locking_ds bbox n = Done s0 ->
  threads_unlock_held calls s0 = true ->
  run_threads B.release B.try_lock calls s0 = Done (rets, s) ->
  (forall th u i, holds s th i -> holds s u i -> th = u)
  /\ (forall th i, holds s th i -> m_grid s !! i = Some true).
Proof.
  intros Hs0 Hok Hrun.
  destruct (exclusive_run_threads calls s0 s rets) as [Hslot Hone];
    [eapply exclusive_construct; exact Hs0 | exact Hok | exact Hrun|].
  split; assumption.
Qed.

(** ** The cells of a region *)

Lemma axis_range_spec (n index r i : Z) :
  1 <= n <= 1290 -> 0 <= index <= n - 1 -> - 2 ^ 30 <= r <= 2 ^ 30 ->
  i ∈ axis_range n index r
  <-> Z.max 0 (index - r) <= i <= Z.min (n - 1) (index + r).
Proof.
  intros Hn Hi Hr. unfold axis_range, int_sub, int_add.
  rewrite (wrap_int_id (n - 1)) by (unfold INT_MIN, INT_MAX; lia).
  rewrite (wrap_int_id (index - r)) by (unfold INT_MIN, INT_MAX; lia).
  rewrite (wrap_int_id (index + r)) by (unfold INT_MIN, INT_MAX; lia).
  rewrite elem_of_seqZ. lia.
Qed.

Lemma region_cells_spec (n ix iy iz r c : Z) :
  c ∈ region_cells n ix iy iz r
  <-> exists i j k, i ∈ axis_range n ix r /\ j ∈ axis_range n iy r
                    /\ k ∈ axis_range n iz r /\ c = cell_index n i j k.
Proof.
  unfold region_cells. split.
  - intros Hc.
    apply list_elem_of_bind in Hc as (i & Hc & Hi).
    apply list_elem_of_bind in Hc as (j & Hc & Hj).
    apply list_elem_of_bind in Hc as (k & Hc & Hk).
    apply list_elem_of_singleton in Hc. eauto 10.
  - intros (i & j & k & Hi & Hj & Hk & ->).
    apply list_elem_of_bind. exists i. split; [|exact Hi].
    apply list_elem_of_bind. exists j. split; [|exact Hj].
    apply list_elem_of_bind. exists k. split; [|exact Hk].
    apply list_elem_of_singleton. reflexivity.
Qed.

Lemma cell_index_injective (n i j k i' j' k' : Z) :
  1 <= n <= 1290 ->
  0 <= i <= n - 1 -> 0 <= j <= n - 1 -> 0 <= k <= n - 1 ->
  0 <= i' <= n - 1 -> 0 <= j' <= n - 1 -> 0 <= k' <= n - 1 ->
  cell_index n i j k = cell_index n i' j' k' ->
  i = i' /\ j = j' /\ k = k'.
Proof.
  intros Hn Hi Hj Hk Hi' Hj' Hk' H.
  destruct (cell_index_small n i j k Hn Hi Hj Hk) as [E _].
  destruct (cell_index_small n i' j' k' Hn Hi' Hj' Hk') as [E' _].
  rewrite E, E' in H. clear E E'.
  assert (Hii : i = i').
  { assert (Hq : i - i' = n * ((k' * n + j') - (k * n + j))) by lia.
    assert (Hz : (k' * n + j') - (k * n + j) = 0) by nia. lia. }
  subst i'.
  assert (Hjj : j = j').
  { assert (Hq : j - j' = n * (k' - k)) by nia.
    assert (Hz : k' - k = 0) by nia. lia. }
  subst j'. split; [reflexivity|]. split; [reflexivity|]. nia.
Qed.

Lemma region_cells_NoDup (n ix iy iz r : Z) :
  1 <= n <= 1290 -> NoDup (region_cells n ix iy iz r).
Proof.
  intros Hn. unfold region_cells.
  apply NoDup_bind; [| |apply NoDup_seqZ].
  - intros i i' c Hi Hi' Hc Hc'.
    apply list_elem_of_bind in Hc as (j & Hc & Hj).
    apply list_elem_of_bind in Hc as (k & Hc & Hk).
    apply list_elem_of_bind in Hc' as (j' & Hc' & Hj').
    apply list_elem_of_bind in Hc' as (k' & Hc' & Hk').
    apply list_elem_of_singleton in Hc, Hc'. subst c.
    apply axis_range_bounds in Hi, Hi', Hj, Hj', Hk, Hk'; try exact Hn.
    apply (cell_index_injective n i j k i' j' k'); assumption.
  - intros i Hi. apply NoDup_bind; [| |apply NoDup_seqZ].
    + intros j j' c Hj Hj' Hc Hc'.
      apply list_elem_of_bind in Hc as (k & Hc & Hk).
      apply list_elem_of_bind in Hc' as (k' & Hc' & Hk').
      apply list_elem_of_singleton in Hc, Hc'. subst c.
      apply axis_range_bounds in Hi, Hj, Hj', Hk, Hk'; try exact Hn.
      apply (cell_index_injective n i j k i j' k'); assumption.
    + intros j Hj. apply NoDup_bind; [| |apply NoDup_seqZ].
      * intros k k' c Hk Hk' Hc Hc'.
        apply list_elem_of_singleton in Hc, Hc'. subst c.
        apply axis_range_bounds in Hi, Hj, Hk, Hk'; try exact Hn.
        apply (cell_index_injective n i j k i j k'); assumption.
      * intros k _. apply NoDup_singleton.
Qed.

(** The cells of a region.  On a grid of [1 <= n <= 1290] cells per axis,
    around the cell [(ix, iy, iz)] and for a radius of absolute value at
    most [2^30], the loops visit exactly the cells [(i, j, k)] of the grid
    that are within the radius of the centre on each axis, each one once,
    and every index they visit is an index of the table. *)
Theorem region_cells_are_the_clipped_cube (n ix iy iz r : Z) :
  1 <= n <= 1290 ->
  0 <= ix <= n - 1 -> 0 <= iy <= n - 1 -> 0 <= iz <= n - 1 ->
  - 2 ^ 30 <= r <= 2 ^ 30 ->
  NoDup (region_cells n ix iy iz r)
  /\ (forall c, c ∈ region_cells n ix iy iz r <->
        exists i j k,
          Z.max 0 (ix - r) <= i <= Z.min (n - 1) (ix + r)
          /\ Z.max 0 (iy - r) <= j <= Z.min (n - 1) (iy + r)
          /\ Z.max 0 (iz - r) <= k <= Z.min (n - 1) (iz + r)
          /\ c = k * n * n + j * n + i)
  /\ (forall c, c ∈ region_cells n ix iy iz r -> 0 <= c <= n * n * n - 1).
Proof.
  intros Hn Hx Hy Hz Hr. split; [apply region_cells_NoDup; exact Hn|]. split.
  - intros c. rewrite region_cells_spec. split.
    + intros (i & j & k & Hi & Hj & Hk & ->).
      pose proof (axis_range_bounds n ix r i Hn Hi) as Bi.
      pose proof (axis_range_bounds n iy r j Hn Hj) as Bj.
      pose proof (axis_range_bounds n iz r k Hn Hk) as Bk.
      apply axis_range_spec in Hi, Hj, Hk; try assumption.
      destruct (cell_index_small n i j k Hn Bi Bj Bk) as [-> _]. eauto 10.
    + intros (i & j & k & Hi & Hj & Hk & ->).
      destruct (cell_index_small n i j k Hn) as [<- _]; try lia.
      exists i, j, k. rewrite !axis_range_spec by assumption. auto.
  - intros c. apply region_cells_bounds. exact Hn.
Qed.

Lemma region_cells_are_the_clipped_cube_witness :
  NoDup (region_cells 10 5 5 5 1)
  /\ (forall c, c ∈ region_cells 10 5 5 5 1 <->
        exists i j k,
          Z.max 0 (5 - 1) <= i <= Z.min (10 - 1) (5 + 1)
          /\ Z.max 0 (5 - 1) <= j <= Z.min (10 - 1) (5 + 1)
          /\ Z.max 0 (5 - 1) <= k <= Z.min (10 - 1) (5 + 1)
          /\ c = k * 10 * 10 + j * 10 + i)
  /\ (forall c, c ∈ region_cells 10 5 5 5 1 -> 0 <= c <= 10 * 10 * 10 - 1).
Proof. apply (region_cells_are_the_clipped_cube 10 5 5 5 1); lia. Defined.

Lemma region_cells_empty (n ix iy iz r : Z) :
  1 <= n <= 1290 -> 0 <= ix <= n - 1 -> - 2 ^ 30 <= r < 0 ->
  region_cells n ix iy iz r = [].
Proof.
  intros Hn Hx Hr. unfold region_cells.
  assert (Hnil : axis_range n ix r = []).
  { unfold axis_range, int_sub, int_add.
    rewrite (wrap_int_id (n - 1)) by (unfold INT_MIN, INT_MAX; lia).
    rewrite (wrap_int_id (ix - r)) by (unfold INT_MIN, INT_MAX; lia).
    rewrite (wrap_int_id (ix + r)) by (unfold INT_MIN, INT_MAX; lia).
    unfold seqZ. replace (Z.to_nat _) with 0%nat by lia. reflexivity. }
  rewrite Hnil. reflexivity.
Qed.

Lemma region_cells_are_the_clipped_cube_aux (n ix iy iz r : Z) :
  1 <= n <= 1290 ->
  0 <= ix <= n - 1 -> 0 <= iy <= n - 1 -> 0 <= iz <= n - 1 ->
  - 2 ^ 30 <= r <= 2 ^ 30 ->
  forall c,
    (exists i j k,
       Z.max 0 (ix - r) <= i <= Z.min (n - 1) (ix + r)
       /\ Z.max 0 (iy - r) <= j <= Z.min (n - 1) (iy + r)
       /\ Z.max 0 (iz - r) <= k <= Z.min (n - 1) (iz + r)
       /\ c = k * n * n + j * n + i) ->
    c ∈ region_cells n ix iy iz r.
Proof.
  intros Hn Hx Hy Hz Hr c (i & j & k & Hi & Hj & Hk & ->).
  apply region_cells_spec.
  destruct (cell_index_small n i j k Hn) as [<- _]; try lia.
  exists i, j, k. rewrite !axis_range_spec by assumption. auto.
Qed.

(** ** The outcome of a region lock *)

Lemma unlocked_holds (s : B.t) (th : nat) (c : Z) (i : nat) :
  holds (unlocked s th c) th i -> holds s th i /\ i <> Z.to_nat c.
Proof.
  destruct (unlocked_members s th c) as (_ & _ & Hl & _).
  unfold holds. rewrite Hl. intros Hu.
  destruct (decide (i = Z.to_nat c)) as [->|Hi].
  - exfalso. destruct (decide (Z.to_nat c < length (local_grid s th))%nat).
    + rewrite list_lookup_insert_eq in Hu by assumption. discriminate.
    + rewrite list_insert_ge in Hu by lia. apply lookup_lt_Some in Hu. lia.
  - rewrite list_lookup_insert_ne in Hu by congruence. auto.
Qed.

Lemma unlocked_slots (s : B.t) (th : nat) (c : Z) (i : nat) :
  m_grid (unlocked s th c) !! i = Some true ->
  m_grid s !! i = Some true /\ i <> Z.to_nat c.
Proof.
  destruct (unlocked_members s th c) as (Hg & _). rewrite Hg. intros Hu.
  destruct (decide (i = Z.to_nat c)) as [->|Hi].
  - exfalso. destruct (decide (Z.to_nat c < length (m_grid s))%nat).
    + rewrite list_lookup_insert_eq in Hu by assumption. discriminate.
    + rewrite list_insert_ge in Hu by lia. apply lookup_lt_Some in Hu. lia.
  - rewrite list_lookup_insert_ne in Hu by congruence. auto.
Qed.

Lemma unlock_each_clears (cells : list Z) (th : nat) : forall s s' : B.t,
  unlock_each B.release cells s th = Done s' ->
  (forall i, holds s' th i -> holds s th i /\ Z.of_nat i ∉ cells)
  /\ (forall i, m_grid s' !! i = Some true ->
                m_grid s !! i = Some true /\ Z.of_nat i ∉ cells).
Proof.
  induction cells as [|c rest IH]; intros s s' H; cbn in H.
  - apply Done_inj in H. subst. split; intros i Hi; (split; [exact Hi|]);
      intros Hin; inversion Hin.
  - apply bind_Done in H as (s1 & Hu & H).
    apply unlock_is_unlocked in Hu as (-> & _).
    destruct (IH _ _ H) as [Hb Hg]. split.
    + intros i Hi. destruct (Hb i Hi) as [H1 Hn].
      apply unlocked_holds in H1 as [H1 Hne]. split; [exact H1|].
      intros Hin. apply elem_of_cons in Hin as [Heq|Hin]; [|contradiction].
      apply Hne. subst c. rewrite Nat2Z.id. reflexivity.
    + intros i Hi. destruct (Hg i Hi) as [H1 Hn].
      apply unlocked_slots in H1 as [H1 Hne]. split; [exact H1|].
      intros Hin. apply elem_of_cons in Hin as [Heq|Hin]; [|contradiction].
      apply Hne. subst c. rewrite Nat2Z.id. reflexivity.
Qed.

Lemma acquired_back (s : B.t) (th : nat) (c : Z) (i : nat) :
  0 <= c ->
  (holds (acquired s th c) th i -> holds s th i \/ Z.of_nat i = c)
  /\ (m_grid (acquired s th c) !! i = Some true ->
      m_grid s !! i = Some true \/ Z.of_nat i = c).
Proof.
  intros H0. destruct (acquired_members s th c) as (Hg & _ & Hl & _).
  unfold holds. rewrite Hg, Hl.
  destruct (decide (i = Z.to_nat c)) as [->|Hi].
  - split; intros _; right; lia.
  - rewrite !list_lookup_insert_ne by congruence. auto.
Qed.

Lemma lock_cells_false (cells : list Z) (th : nat) (held set : nat -> Prop) :
  forall tmp (s s' : B.t),
  (forall i, holds s th i -> held i \/ Z.of_nat i ∈ tmp) ->
  (forall i, m_grid s !! i = Some true -> set i \/ Z.of_nat i ∈ tmp) ->
  lock_cells B.release B.try_lock cells tmp s th = Done (false, s') ->
  (forall i, holds s' th i -> held i)
  /\ (forall i, m_grid s' !! i = Some true -> set i).
Proof.
  induction cells as [|c rest IH]; intros tmp s s' Hh Hs H; cbn in H.
  - apply Done_inj in H. discriminate.
  - apply bind_Done in H as ([locked s1] & Ht & H).
    apply try_lock_cases in Ht as [(-> & _ & ->)|[(-> & _ & _ & ->)|(-> & Hb & _ & ->)]].
    + apply (IH (tmp ++ [c]) s s'); [| |exact H].
      * intros i Hi. destruct (Hh i Hi); [left|right; apply elem_of_app]; auto.
      * intros i Hi. destruct (Hs i Hi); [left|right; apply elem_of_app]; auto.
    + apply bind_Done in H as (s2 & Hu & H). apply Done_inj in H. inversion H; subst.
      destruct (unlock_each_clears tmp th s s' Hu) as [Hb Hg]. split.
      * intros i Hi. destruct (Hb i Hi) as [H1 Hn].
        destruct (Hh i H1); [assumption | contradiction].
      * intros i Hi. destruct (Hg i Hi) as [H1 Hn].
        destruct (Hs i H1); [assumption | contradiction].
    + apply array_get_Done in Hb as [H0 _].
      apply (IH (tmp ++ [c]) (acquired s th c) s'); [| |exact H].
      * intros i Hi. apply (proj1 (acquired_back s th c i H0)) in Hi as [Hi|Hi].
        -- destruct (Hh i Hi); [left|right; apply elem_of_app]; auto.
        -- right. apply elem_of_app. right. apply list_elem_of_singleton. exact Hi.
      * intros i Hi. apply (proj2 (acquired_back s th c i H0)) in Hi as [Hi|Hi].
        -- destruct (Hs i Hi); [left|right; apply elem_of_app]; auto.
        -- right. apply elem_of_app. right. apply list_elem_of_singleton. exact Hi.
Qed.

(** A failed lock acquires nothing.  When [try_lock(point, lock_radius)]
    returns [false], whatever the radius, the caller holds no cell that it
    did not hold before, no slot of the table is set that was not set
    before, and the members of the other threads are untouched. *)
Theorem failed_lock_acquires_nothing (s s' : B.t) (th : nat) (p : P3) (r index : Z) :
  B.try_lock_point s th p r = Done ((false, index), s') ->
  (forall i, holds s' th i -> holds s th i)
  /\ (forall i, m_grid s' !! i = Some true -> m_grid s !! i = Some true)
  /\ (forall u, u <> th ->
        local_grid s' u = local_grid s u
        /\ local_locked_cells s' u = local_locked_cells s u).
Proof.
  intros H. pose proof (evolves_try_lock_point s s' th p r _ H) as (_ & _ & _ & Ho).
  apply try_lock_point_Done in H as (ix & iy & iz & _ & _ & H0 & Hr).
  destruct (Z.eq_dec r 0) as [Hz|Hz].
  - apply H0 in Hz.
    apply try_lock_cases in Hz as [(Hf & _)|[(_ & _ & _ & ->)|(Hf & _)]];
      try discriminate. auto.
  - apply Hr in Hz.
    destruct (lock_cells_false
                (region_cells (m_num_grid_cells_per_axis s) ix iy iz r) th
                (holds s th) (fun i => m_grid s !! i = Some true) [] s s')
      as [Hb Hg]; auto.
Qed.

Lemma lock_cells_true (cells : list Z) (th : nat) : forall tmp (s s' : B.t),
  lock_cells B.release B.try_lock cells tmp s th = Done (true, s') ->
  (forall c, c ∈ cells -> 0 <= c /\ holds s' th (Z.to_nat c))
  /\ (forall i, holds s th i -> holds s' th i).
Proof.
  induction cells as [|c rest IH]; intros tmp s s' H; cbn in H.
  - apply Done_inj in H. inversion H; subst. split; [|auto].
    intros c Hc. inversion Hc.
  - apply bind_Done in H as ([locked s1] & Ht & H). destruct locked.
    + destruct (try_lock_true_holds s s1 th c Ht) as [Hc Hkeep].
      destruct (IH _ _ _ H) as [Hall Hkeep1].
      assert (H0 : 0 <= c).
      { apply try_lock_cases in Ht as [(_ & Hb & _)|[(Hf & _)|(_ & Hb & _)]];
          try discriminate; apply array_get_Done in Hb as [H0 _]; exact H0. }
      split; [|auto].
      intros c' Hc'. apply elem_of_cons in Hc' as [->|Hc']; [|apply Hall; exact Hc'].
      split; [exact H0 | apply Hkeep1; exact Hc].
    + apply bind_Done in H as (s2 & _ & H). apply Done_inj in H. discriminate.
Qed.

(** A successful lock holds the whole region.  When
    [try_lock(point, lock_radius)] returns [true] on a grid of
    [1 <= n <= 1290] cells per axis with [0 <= lock_radius <= 2^30], the
    caller holds the cell of the point and every cell of the grid within
    the radius of it on each axis, and still holds what it held before. *)
Theorem successful_lock_holds_region (s s' : B.t) (th : nat) (p : P3) (r index : Z) :
  1 <= m_num_grid_cells_per_axis s <= 1290 ->
  0 <= r <= 2 ^ 30 ->
  B.try_lock_point s th p r = Done ((true, index), s') ->
  holds s' th (Z.to_nat index)
  /\ (forall i, holds s th i -> holds s' th i)
  /\ exists ix iy iz,
       point_indices s p = Done (ix, iy, iz)
       /\ forall i j k,
            Z.max 0 (ix - r) <= i <= Z.min (m_num_grid_cells_per_axis s - 1) (ix + r) ->
            Z.max 0 (iy - r) <= j <= Z.min (m_num_grid_cells_per_axis s - 1) (iy + r) ->
            Z.max 0 (iz - r) <= k <= Z.min (m_num_grid_cells_per_axis s - 1) (iz + r) ->
            holds s' th (Z.to_nat (k * m_num_grid_cells_per_axis s
                                     * m_num_grid_cells_per_axis s
                                   + j * m_num_grid_cells_per_axis s + i)).
Proof.
  intros Hn Hr H.
  apply try_lock_point_Done in H as (ix & iy & iz & Hi & Hidx & H0 & Hnz).
  destruct (point_indices_bounds s p ix iy iz Hn Hi) as (Hx & Hy & Hz).
  destruct (cell_index_small _ ix iy iz Hn Hx Hy Hz) as [Hval _].
  rewrite Hidx in Hval.
  assert (Hmem := region_cells_are_the_clipped_cube_aux
                    (m_num_grid_cells_per_axis s) ix iy iz r Hn Hx Hy Hz
                    ltac:(lia)).
  destruct (Z.eq_dec r 0) as [Hr0|Hr0].
  - apply H0 in Hr0 as Ht. destruct (try_lock_true_holds s s' th index Ht) as [Hc Hkeep].
    split; [exact Hc|]. split; [exact Hkeep|].
    exists ix, iy, iz. split; [exact Hi|]. intros i j k Bi Bj Bk.
    assert (i = ix /\ j = iy /\ k = iz) as (-> & -> & ->) by lia.
    rewrite <- Hval. exact Hc.
  - apply Hnz in Hr0 as Hl.
    destruct (lock_cells_true
                (region_cells (m_num_grid_cells_per_axis s) ix iy iz r) th [] s s' Hl)
      as [Hall Hkeep].
    assert (Hcube : forall i j k,
      Z.max 0 (ix - r) <= i <= Z.min (m_num_grid_cells_per_axis s - 1) (ix + r) ->
      Z.max 0 (iy - r) <= j <= Z.min (m_num_grid_cells_per_axis s - 1) (iy + r) ->
      Z.max 0 (iz - r) <= k <= Z.min (m_num_grid_cells_per_axis s - 1) (iz + r) ->
      holds s' th (Z.to_nat (k * m_num_grid_cells_per_axis s
                               * m_num_grid_cells_per_axis s
                             + j * m_num_grid_cells_per_axis s + i))).
    { intros i j k Bi Bj Bk. apply Hall. apply Hmem. eauto 10. }
    split; [|split; [exact Hkeep|]].
    + rewrite Hval. apply Hcube; lia.
    + exists ix, iy, iz. split; [exact Hi | exact Hcube].
Qed.

(** The two-thread scenario returns what it should. *)
Lemma two_thread_calls_return :
  (r ← run_threads B.release B.try_lock two_thread_calls fresh_10; mret r.1)
  = Done [Ret_pair true 555; Ret_pair false 655; Ret_void; Ret_pair true 655;
          Ret_void; Ret_bool true].
Proof. vm_compute. reflexivity. Qed.

Lemma mutual_exclusion_witness :
  (forall th u i,
     holds (state_after (run_threads B.release B.try_lock two_thread_calls fresh_10)
              fresh_10) th i ->
     holds (state_after (run_threads B.release B.try_lock two_thread_calls fresh_10)
              fresh_10) u i -> th = u)
  /\ (forall th i,
        holds (state_after (run_threads B.release B.try_lock two_thread_calls fresh_10)
                 fresh_10) th i ->
        m_grid (state_after (run_threads B.release B.try_lock two_thread_calls fresh_10)
                  fresh_10) !! i = Some true).
Proof.
  refine (mutual_exclusion box_10 10 fresh_10 _ two_thread_calls _ _ _ _).
  - vm_compute. reflexivity.
  - vm_compute. reflexivity.
  - vm_compute. reflexivity.
Defined.

Lemma failed_lock_acquires_nothing_witness :
  (forall i,
     holds (state_after (B.try_lock_point region_555_held_by_0 1%nat point_655 1)
              fresh_10) 1%nat i ->
     holds region_555_held_by_0 1%nat i)
  /\ (forall i,
        m_grid (state_after (B.try_lock_point region_555_held_by_0 1%nat point_655 1)
                  fresh_10) !! i = Some true ->
        m_grid region_555_held_by_0 !! i = Some true)
  /\ (forall u, u <> 1%nat ->
        local_grid (state_after (B.try_lock_point region_555_held_by_0 1%nat point_655 1)
                      fresh_10) u = local_grid region_555_held_by_0 u
        /\ local_locked_cells
             (state_after (B.try_lock_point region_555_held_by_0 1%nat point_655 1)
                fresh_10) u = local_locked_cells region_555_held_by_0 u).
Proof.
  refine (failed_lock_acquires_nothing region_555_held_by_0 _ 1%nat point_655 1 655 _).
  vm_compute. reflexivity.
Defined.

Lemma successful_lock_holds_region_witness :
  holds region_555_held_by_0 0%nat (Z.to_nat 555).
Proof.
  refine (proj1 (successful_lock_holds_region fresh_10 region_555_held_by_0
                   0%nat point_555 1 555 _ _ _)).
  - change (1 <= 10 <= 1290). lia.
  - lia.
  - vm_compute. reflexivity.
Defined.

(** A negative radius.  On a grid of [1 <= n <= 1290] cells per axis, a
    call with [- 2^30 <= lock_radius < 0] visits no cell: it returns [true]
    with the index of the point and leaves the manager as it was, whoever
    holds the cell of the point. *)
Theorem negative_radius_locks_nothing (s : B.t) (th : nat) (p : P3) (r index : Z) :
  1 <= m_num_grid_cells_per_axis s <= 1290 ->
  - 2 ^ 30 <= r < 0 ->
  point_index s p = Done index ->
  B.try_lock_point s th p r = Done ((true, index), s).
Proof.
  intros Hn Hr Hp.
  apply point_index_Done in Hp as (ix & iy & iz & Hi & Hidx).
  destruct (point_indices_bounds s p ix iy iz Hn Hi) as (Hx & _).
  unfold B.try_lock_point.
  rewrite (try_lock_point_at _ _ s th p r ix iy iz index Hi Hidx).
  destruct (Z.eqb_spec r 0); [lia|].
  rewrite (region_cells_empty _ ix iy iz r Hn Hx Hr). reflexivity.
Qed.

(** Thread 1 asks with radius -1 around (5.5, 5.5, 5.5) while thread 0
    holds cell 555: the call returns [(true, 555)]. *)
Lemma negative_radius_locks_nothing_witness :
  B.try_lock_point region_555_held_by_0 1%nat point_555 (-1)
  = Done ((true, 555), region_555_held_by_0).
Proof.
  apply (negative_radius_locks_nothing region_555_held_by_0 1%nat point_555 (-1) 555).
  - change (1 <= 10 <= 1290). lia.
  - lia.
  - vm_compute. reflexivity.
Defined.

(** ** Locking and unlocking the cell of a point *)

Lemma point_index_acquired (s : B.t) (th : nat) (c : Z) (p : P3) :
  point_index (acquired s th c) p = point_index s p.
Proof. reflexivity. Qed.

(** Lock, then unlock.  When [try_lock(point)] (radius 0) acquires a cell
    that the caller did not hold, [unlock(point)] returns and puts the
    table and the caller's bitmap back as they were; the index of the cell
    stays in the caller's vector. *)
Theorem lock_unlock_round_trip (s s1 : B.t) (th : nat) (p : P3) (index : Z) :
  array_get (local_grid s th) index = Done false ->
  B.try_lock_point s th p 0 = Done ((true, index), s1) ->
  exists s2,
    B.unlock_point s1 th p = Done s2
    /\ m_grid s2 = m_grid s
    /\ local_grid s2 th = local_grid s th
    /\ local_locked_cells s2 th = local_locked_cells s th ++ [index]
    /\ (forall u, u <> th ->
          local_grid s2 u = local_grid s u
          /\ local_locked_cells s2 u = local_locked_cells s u).
Proof.
  intros Hbit H.
  apply try_lock_point_Done in H as (ix & iy & iz & Hi & Hidx & H0 & _).
  assert (Hp : point_index s p = Done index).
  { unfold point_index. rewrite Hi. cbn. rewrite Hidx. reflexivity. }
  clear Hi Hidx.
  specialize (H0 eq_refl).
  apply try_lock_cases in H0 as [(_ & Hb & _)|[(Hf & _)|(_ & _ & Hslot & ->)]];
    [congruence | discriminate |].
  destruct (acquired_members s th index) as (Hg & _ & Hl & Hv & Ho).
  apply array_get_Done in Hbit as [H0 Hbit], Hslot as [_ Hslot].
  pose proof (lookup_lt_Some _ _ _ Hbit) as Hlt.
  pose proof (lookup_lt_Some _ _ _ Hslot) as Hlt'.
  assert (Hu : B.unlock (acquired s th index) th index
               = Done (unlocked (acquired s th index) th index)).
  { unfold B.unlock, unlocked.
    apply (unlock_defined B.release _ th index true false true); [|reflexivity|].
    - apply array_get_Done. split; [exact H0|]. rewrite Hg.
      apply list_lookup_insert_eq. exact Hlt'.
    - apply array_get_Done. split; [exact H0|]. rewrite Hl.
      apply list_lookup_insert_eq. exact Hlt. }
  exists (unlocked (acquired s th index) th index). split.
  - unfold B.unlock_point, unlock_point. rewrite point_index_acquired, Hp. exact Hu.
  - destruct (unlocked_members (acquired s th index) th index)
      as (Hg2 & _ & Hl2 & Hv2 & Ho2).
    split_and!.
    + rewrite Hg2, Hg, list_insert_insert_eq. apply list_insert_id. exact Hslot.
    + rewrite Hl2, Hl, list_insert_insert_eq. apply list_insert_id. exact Hbit.
    + rewrite Hv2. exact Hv.
    + intros u Hne. rewrite (Ho2 u Hne), Hv2. apply Ho. exact Hne.
Qed.

Lemma lock_unlock_round_trip_witness :
  exists s2,
    B.unlock_point (state_after (B.try_lock_point fresh_10 0%nat point_555 0) fresh_10)
      0%nat point_555 = Done s2
    /\ m_grid s2 = m_grid fresh_10
    /\ local_grid s2 0%nat = local_grid fresh_10 0%nat
    /\ local_locked_cells s2 0%nat = local_locked_cells fresh_10 0%nat ++ [555]
    /\ (forall u, u <> 0%nat ->
          local_grid s2 u = local_grid fresh_10 u
          /\ local_locked_cells s2 u = local_locked_cells fresh_10 u).
Proof.
  apply (lock_unlock_round_trip fresh_10 _ 0%nat point_555 555).
  - vm_compute. reflexivity.
  - vm_compute. reflexivity.
Defined.

(** ** [unlock_all_tls_locked_cells] and stale indices *)

Lemma unlock_owned_frame (cells : list Z) (th : nat) : forall s s' : B.t,
  unlock_owned B.release cells s th = Done s' ->
  (forall i, ~ holds s th i -> m_grid s' !! i = m_grid s !! i)
  /\ (forall i, holds s' th i -> holds s th i).
Proof.
  induction cells as [|c rest IH]; intros s s' H; cbn in H.
  - apply Done_inj in H. subst. auto.
  - apply bind_Done in H as (owned & Ho & H).
    apply bind_Done in H as (s1 & Hu & H).
    destruct (IH _ _ H) as [Hg Hb]. destruct owned.
    + apply unlock_is_unlocked in Hu as (-> & _).
      apply array_get_Done in Ho as [_ Ho]. split.
      * intros i Hi. rewrite Hg.
        -- destruct (unlocked_members s th c) as (Hg1 & _). rewrite Hg1.
           apply list_lookup_insert_ne. intros <-. apply Hi. exact Ho.
        -- intros Hh. apply unlocked_holds in Hh as [Hh _]. apply Hi. exact Hh.
      * intros i Hi. apply Hb in Hi. apply unlocked_holds in Hi as [Hi _]. exact Hi.
    + apply Done_inj in Hu. subst s1. auto.
Qed.

(** [unlock_all_tls_locked_cells] frees the caller's cells only.  The slot
    of a cell that the caller does not hold is left as it is, also when the
    index of that cell is still in the caller's vector, and the members of
    the other threads are untouched. *)
Theorem unlock_all_frees_own_cells_only (s s' : B.t) (th : nat) :
  B.unlock_all_tls_locked_cells s th = Done s' ->
  (forall i, ~ holds s th i -> m_grid s' !! i = m_grid s !! i)
  /\ (forall u, u <> th ->
        local_grid s' u = local_grid s u
        /\ local_locked_cells s' u = local_locked_cells s u).
Proof.
  intros H. pose proof (evolves_unlock_all s s' th H) as (_ & _ & _ & Ho).
  split; [|exact Ho].
  unfold B.unlock_all_tls_locked_cells, unlock_all_tls_locked_cells in H.
  apply bind_Done in H as (s1 & Hu & H). apply Done_inj in H. subst s'.
  apply unlock_owned_frame in Hu as [Hg _]. exact Hg.
Qed.

(** The index 5 is in the vector of thread 0, which no longer holds the
    cell; thread 1 holds it.  Thread 0 releases everything. *)
Lemma unlock_all_frees_own_cells_only_witness :
  (forall i,
     ~ holds (state_after (run_threads B.release B.try_lock stale_index_calls fresh_10)
                fresh_10) 0%nat i ->
     m_grid (state_after
               (B.do_call (state_after (run_threads B.release B.try_lock
                                          stale_index_calls fresh_10) fresh_10)
                  0%nat Call_unlock_all_tls_locked_cells) fresh_10) !! i
     = m_grid (state_after (run_threads B.release B.try_lock stale_index_calls fresh_10)
                 fresh_10) !! i)
  /\ (forall u, u <> 0%nat ->
        local_grid (state_after
               (B.do_call (state_after (run_threads B.release B.try_lock
                                          stale_index_calls fresh_10) fresh_10)
                  0%nat Call_unlock_all_tls_locked_cells) fresh_10) u
        = local_grid (state_after (run_threads B.release B.try_lock stale_index_calls
                                     fresh_10) fresh_10) u
        /\ local_locked_cells (state_after
               (B.do_call (state_after (run_threads B.release B.try_lock
                                          stale_index_calls fresh_10) fresh_10)
                  0%nat Call_unlock_all_tls_locked_cells) fresh_10) u
           = local_locked_cells (state_after (run_threads B.release B.try_lock
                                                stale_index_calls fresh_10) fresh_10) u).
Proof.
  apply (unlock_all_frees_own_cells_only
           (state_after (run_threads B.release B.try_lock stale_index_calls fresh_10)
              fresh_10) _ 0%nat).
  vm_compute. reflexivity.
Defined.

Lemma stale_index_is_harmless :
  ('(_, s) ← run_threads B.release B.try_lock stale_index_calls fresh_10;
   s' ← B.unlock_all_tls_locked_cells s 0%nat;
   mret (local_locked_cells s 0%nat, array_get (m_grid s') 5,
         array_get (local_grid s' 1%nat) 5))
  = Done ([5], Done true, Done true).
Proof. vm_compute. reflexivity. Qed.

(** ** Reachable managers keep their arrays *)

Lemma sized_construct {cell extra : Type} (free : cell) (e : extra)
    (bbox : Bbox_3) (n : Z) (s : locking_ds cell extra) :
  construct free e bbox n = Done s -> sized s.
Proof.
  intros [-> _]%construct_fields. unfold sized, local_grid, num_cells. cbn.
  split; [apply length_replicate|].
  intros u. rewrite lookup_empty. cbn. apply length_replicate.
Qed.

Lemma sized_evolves {cell extra : Type} (th : nat) (s s' : locking_ds cell extra) :
  sized s -> evolves th s s' -> sized s'.
Proof.
  intros [Hg Hl] (HN & Hg' & Hl' & _). unfold sized, num_cells in *.
  rewrite HN, Hg'. split; [exact Hg|].
  intros u. rewrite Hl'. apply Hl.
Qed.

Lemma evolves_N {cell extra : Type} (th : nat) (s s' : locking_ds cell extra) :
  evolves th s s' -> m_num_grid_cells_per_axis s' = m_num_grid_cells_per_axis s.
Proof. intros (HN & _). exact HN. Qed.

Lemma run_threads_sized (calls : list (nat * call)) : forall (s s' : B.t) rets,
  sized s ->
  run_threads B.release B.try_lock calls s = Done (rets, s') ->
  sized s' /\ m_num_grid_cells_per_axis s' = m_num_grid_cells_per_axis s.
Proof.
  induction calls as [|[th c] rest IH]; intros s s' rets Hs H; cbn in H.
  - apply Done_inj in H. inversion H; subst. auto.
  - apply bind_Done in H as ([r s1] & Hc & H).
    apply bind_Done in H as ([rs s2] & Hr & H).
    apply Done_inj in H. inversion H; subst.
    pose proof (evolves_do_call s s1 th c r Hc) as He.
    destruct (IH s1 s' rs (sized_evolves th s s1 Hs He) Hr) as [Hs' HN].
    split; [exact Hs'|]. rewrite HN. eapply evolves_N. exact He.
Qed.

Lemma all_unlocked_spec (indices : list Z) (local : list bool) :
  (forall i, i ∈ indices -> exists b, array_get local i = Done b) ->
  exists b, all_unlocked indices local = Done b
            /\ (b = true <-> forall i, i ∈ indices -> array_get local i = Done false).
Proof.
  induction indices as [|i rest IH]; intros Hin; cbn.
  - exists true. split; [reflexivity|]. split; [|reflexivity].
    intros _ i Hi. inversion Hi.
  - destruct (Hin i) as [b Hb]; [left; reflexivity|]. rewrite Hb. cbn. destruct b.
    + exists false. split; [reflexivity|]. split; [discriminate|].
      intros Hall. specialize (Hall i (list_elem_of_here _ _)). congruence.
    + destruct IH as (b & Hrun & Hiff).
      { intros j Hj. apply Hin. right. exact Hj. }
      exists b. split; [exact Hrun|]. rewrite Hiff. split.
      * intros Hall j Hj. apply elem_of_cons in Hj as [->|Hj]; auto.
      * intros Hall j Hj. apply Hall. right. exact Hj.
Qed.

(** What the check tells.  On a manager reached from its construction by
    any interleaving of calls, [check_if_all_tls_cells_are_unlocked] returns
    for every thread, and it returns [true] exactly when that thread holds
    no cell. *)
Theorem check_tells_whether_thread_holds (bbox : Bbox_3) (n : Z) (s0 s : B.t)
    (calls : list (nat * call)) (rets : list returned) (th : nat) :
  B.Simple_grid_locking_ds bbox n = Done s0 ->
  run_threads B.release B.try_lock calls s0 = Done (rets, s) ->
  exists b,
    B.check_if_all_tls_cells_are_unlocked s th = Done b
    /\ (b = true <-> forall i, ~ holds s th i).
Proof.
  intros Hs0 Hrun.
  destruct (run_threads_sized calls s0 s rets (sized_construct _ _ _ _ _ Hs0) Hrun)
    as [[_ Hl] _].
  specialize (Hl th).
  unfold B.check_if_all_tls_cells_are_unlocked, check_if_all_tls_cells_are_unlocked.
  destruct (all_unlocked_spec (seqZ 0 (num_cells s)) (local_grid s th)) as (b & Hb & Hiff).
  { intros i Hi. apply elem_of_seqZ in Hi.
    destruct (lookup_lt_is_Some_2 (local_grid s th) (Z.to_nat i)) as [v Hv]; [lia|].
    exists v. apply array_get_Done. split; [lia | exact Hv]. }
  exists b. split; [exact Hb|]. rewrite Hiff. unfold holds. split.
  - intros Hall i Hi.
    assert (Hlt : (i < length (local_grid s th))%nat) by (eapply lookup_lt_Some; exact Hi).
    specialize (Hall (Z.of_nat i)).
    rewrite elem_of_seqZ in Hall.
    assert (Hf : array_get (local_grid s th) (Z.of_nat i) = Done false)
      by (apply Hall; lia).
    apply array_get_Done in Hf as [_ Hf]. rewrite Nat2Z.id in Hf. congruence.
  - intros Hnone i Hi. apply elem_of_seqZ in Hi.
    destruct (lookup_lt_is_Some_2 (local_grid s th) (Z.to_nat i)) as [v Hv]; [lia|].
    apply array_get_Done. split; [lia|]. destruct v; [|exact Hv].
    exfalso. apply (Hnone (Z.to_nat i)). exact Hv.
Qed.

(** After the two-thread scenario, for thread 1 (which holds 26 cells). *)
Lemma check_tells_whether_thread_holds_witness :
  exists b,
    B.check_if_all_tls_cells_are_unlocked
      (state_after (run_threads B.release B.try_lock two_thread_calls fresh_10) fresh_10)
      1%nat = Done b
    /\ (b = true <->
        forall i, ~ holds (state_after (run_threads B.release B.try_lock
                                          two_thread_calls fresh_10) fresh_10) 1%nat i).
Proof.
  refine (check_tells_whether_thread_holds box_10 10 fresh_10 _ two_thread_calls _
            1%nat _ _).
  - vm_compute. reflexivity.
  - vm_compute. reflexivity.
Defined.

Lemma well_formed_reached (bbox : Bbox_3) (n : Z) (s0 s : B.t)
    (calls : list (nat * call)) (rets : list returned) (th : nat) :
  1 <= n <= 1290 ->
  B.Simple_grid_locking_ds bbox n = Done s0 ->
  run_threads B.release B.try_lock calls s0 = Done (rets, s) ->
  well_formed s th.
Proof.
  intros Hn Hs0 Hrun.
  destruct (run_threads_sized calls s0 s rets (sized_construct _ _ _ _ _ Hs0) Hrun)
    as [[Hg Hl] HN].
  apply construct_fields in Hs0 as [-> _]. cbn in HN.
  unfold well_formed. rewrite HN. split; [exact Hn|].
  unfold num_cells in *. rewrite HN in Hg, Hl.
  rewrite (num_cells_of_small n) in Hg, Hl by lia.
  split; [exact Hg|]. rewrite Hl, Hg. reflexivity.
Qed.

(** Locking and unlocking by point stay within the arrays.  On a manager
    constructed with [1 <= n <= 1290] cells per axis and reached by any
    interleaving of calls, for every thread, every radius of absolute
    value at most [2^30] and every point whose scaled coordinates convert
    to [int]: the bounds [index - lock_radius] and [index + lock_radius]
    of the loops are computed without overflow, every cell the loops visit
    is a cell of the table, and [try_lock(point, lock_radius)] and
    [unlock(point)] return: no array is read or written outside its
    bounds. *)
Theorem point_calls_stay_in_bounds (bbox : Bbox_3) (n : Z) (s0 s : B.t)
    (calls : list (nat * call)) (rets : list returned)
    (th : nat) (p : P3) (r index : Z) :
  1 <= n <= 1290 ->
  - 2 ^ 30 <= r <= 2 ^ 30 ->
  B.Simple_grid_locking_ds bbox n = Done s0 ->
  run_threads B.release B.try_lock calls s0 = Done (rets, s) ->
  point_index s p = Done index ->
  (exists b s', B.try_lock_point s th p r = Done ((b, index), s'))
  /\ (exists s', B.unlock_point s th p = Done s')
  /\ 0 <= index <= n * n * n - 1
  /\ exists ix iy iz,
       point_indices s p = Done (ix, iy, iz)
       /\ (forall i, i ∈ [ix; iy; iz] ->
             (INT_MIN <= i - r <= INT_MAX /\ INT_MIN <= i + r <= INT_MAX)
             /\ int_sub i r = i - r /\ int_add i r = i + r)
       /\ (forall c, c ∈ region_cells n ix iy iz r -> 0 <= c <= n * n * n - 1).
Proof.
  intros Hn Hr Hs0 Hrun Hp.
  pose proof (well_formed_reached bbox n s0 s calls rets th Hn Hs0 Hrun) as Hwf.
  destruct (run_threads_sized calls s0 s rets (sized_construct _ _ _ _ _ Hs0) Hrun)
    as [_ HN].
  apply construct_fields in Hs0 as [-> _]. cbn in HN.
  split; [apply try_lock_point_defined; assumption|].
  destruct Hwf as (Hn' & Hg & Hl).
  pose proof Hp as (ix & iy & iz & Hi & Hidx)%point_index_Done.
  destruct (point_indices_bounds s p ix iy iz Hn' Hi) as (Hx & Hy & Hz).
  destruct (cell_index_small _ ix iy iz Hn' Hx Hy Hz) as [Hval Hrange].
  rewrite Hidx in Hval. rewrite <- Hval in Hrange. clear Hval Hidx.
  rewrite HN in Hrange, Hx, Hy, Hz. split; [|split; [exact Hrange|]].
  - unfold B.unlock_point, unlock_point. rewrite Hp. cbn.
    rewrite HN in Hg.
    destruct (lookup_lt_is_Some_2 (m_grid s) (Z.to_nat index)) as [slot Hslot]; [lia|].
    destruct (lookup_lt_is_Some_2 (local_grid s th) (Z.to_nat index)) as [bit Hbit];
      [lia|].
    eexists. apply (unlock_defined B.release s th index slot false bit).
    + apply array_get_Done. split; [lia | exact Hslot].
    + reflexivity.
    + apply array_get_Done. split; [lia | exact Hbit].
  - exists ix, iy, iz. split; [exact Hi|]. split.
    + intros i Hin.
      assert (Hb : 0 <= i <= n - 1).
      { apply elem_of_cons in Hin as [->|Hin]; [exact Hx|].
        apply elem_of_cons in Hin as [->|Hin]; [exact Hy|].
        apply list_elem_of_singleton in Hin as ->. exact Hz. }
      assert (Hov : INT_MIN <= i - r <= INT_MAX /\ INT_MIN <= i + r <= INT_MAX)
        by (unfold INT_MIN, INT_MAX; lia).
      split; [exact Hov|]. unfold int_sub, int_add.
      rewrite !wrap_int_id by apply Hov. auto.
    + intros c. apply region_cells_bounds. exact Hn.
Qed.

(** With radius 2 around (5.5, 5.5, 5.5), after [two_thread_calls]. *)
Lemma point_calls_stay_in_bounds_witness :
  (exists b s',
     B.try_lock_point
       (state_after (run_threads B.release B.try_lock two_thread_calls fresh_10) fresh_10)
       0%nat point_555 2 = Done ((b, 555), s'))
  /\ (exists s',
        B.unlock_point
          (state_after (run_threads B.release B.try_lock two_thread_calls fresh_10)
             fresh_10) 0%nat point_555 = Done s')
  /\ 0 <= 555 <= 10 * 10 * 10 - 1
  /\ exists ix iy iz,
       point_indices
         (state_after (run_threads B.release B.try_lock two_thread_calls fresh_10)
            fresh_10) point_555 = Done (ix, iy, iz)
       /\ (forall i, i ∈ [ix; iy; iz] ->
             (INT_MIN <= i - 2 <= INT_MAX /\ INT_MIN <= i + 2 <= INT_MAX)
             /\ int_sub i 2 = i - 2 /\ int_add i 2 = i + 2)
       /\ (forall c, c ∈ region_cells 10 ix iy iz 2 -> 0 <= c <= 10 * 10 * 10 - 1).
Proof.
  refine (point_calls_stay_in_bounds box_10 10 fresh_10 _ two_thread_calls _
            0%nat point_555 2 555 _ _ _ _ _).
  - lia.
  - lia.
  - vm_compute. reflexivity.
  - vm_compute. reflexivity.
  - vm_compute. reflexivity.
Defined.

(** * Mutual exclusion in the other two classes *)

Section Exclusion.
Context {cell extra : Type}.
Variable release : nat -> cell -> result cell.
Variable try_lock : locking_ds cell extra -> nat -> Z -> result (bool * locking_ds cell extra).

(** [Inv] is the invariant; [G] is a condition on the state reached that
    also held in every state before it. *)
Variable Inv G : locking_ds cell extra -> Prop.
Hypothesis Inv_one_holder : forall s th u i,
  Inv s -> G s -> holds s th i -> holds s u i -> th = u.
Hypothesis Inv_try_lock : forall s s' th c b,
  Inv s -> try_lock s th c = Done (b, s') -> G s' ->
  Inv s'
  /\ (forall i, holds s th i -> holds s' th i)
  /\ (b = true -> holds s' th (Z.to_nat c))
  /\ (forall u, u <> th -> local_grid s' u = local_grid s u).
Hypothesis Inv_unlock : forall s s' th c,
  Inv s -> (forall u, u <> th -> ~ holds s u (Z.to_nat c)) ->
  unlock release s th c = Done s' -> G s' -> Inv s'.
Hypothesis Inv_set_tls_locked_cells : forall s m,
  Inv s -> Inv (set_tls_locked_cells s m).
Hypothesis G_try_lock : forall s s' th c b,
  try_lock s th c = Done (b, s') -> G s' -> G s.
Hypothesis G_unlock : forall s s' th c,
  unlock release s th c = Done s' -> G s' -> G s.
Hypothesis G_set_tls_locked_cells : forall s m,
  G (set_tls_locked_cells s m) -> G s.
Implicit Types s : locking_ds cell extra.

Lemma unlock_others s s' th c u :
  unlock release s th c = Done s' -> u <> th -> local_grid s' u = local_grid s u.
Proof.
  intros (slot & slot' & _ & _ & _ & ->)%unlock_Done Hne.
  rewrite local_grid_set_tls_grids, decide_False by congruence. reflexivity.
Qed.

Lemma G_unlock_each (cells : list Z) (th : nat) : forall s s',
  unlock_each release cells s th = Done s' -> G s' -> G s.
Proof.
  induction cells as [|c rest IH]; intros s s' H Hg; cbn in H.
  - apply Done_inj in H. subst. exact Hg.
  - apply bind_Done in H as (s1 & Hu & H).
    apply (G_unlock s s1 th c Hu). apply (IH s1 s' H Hg).
Qed.

Lemma G_lock_cells (cells : list Z) (th : nat) : forall tmp s s' b,
  lock_cells release try_lock cells tmp s th = Done (b, s') -> G s' -> G s.
Proof.
  induction cells as [|c rest IH]; intros tmp s s' b H Hg; cbn in H.
  - apply Done_inj in H. inversion H; subst. exact Hg.
  - apply bind_Done in H as ([locked s1] & Ht & H).
    apply (G_try_lock s s1 th c locked Ht). destruct locked.
    + apply (IH _ s1 s' b H Hg).
    + apply bind_Done in H as (s2 & Hu & H). apply Done_inj in H. inversion H; subst.
      apply (G_unlock_each tmp th s1 s' Hu Hg).
Qed.

Lemma G_unlock_owned (cells : list Z) (th : nat) : forall s s',
  unlock_owned release cells s th = Done s' -> G s' -> G s.
Proof.
  induction cells as [|c rest IH]; intros s s' H Hg; cbn in H.
  - apply Done_inj in H. subst. exact Hg.
  - apply bind_Done in H as (owned & Ho & H).
    apply bind_Done in H as (s1 & Hu & H).
    pose proof (IH s1 s' H Hg) as Hg1. destruct owned.
    + apply (G_unlock s s1 th c Hu Hg1).
    + apply Done_inj in Hu. subst. exact Hg1.
Qed.

Lemma G_do_call s s' th c r :
  do_call release try_lock s th c = Done (r, s') -> G s' -> G s.
Proof.
  intros H Hg. destruct c as [ci|point lock_radius|ci|point| |]; cbn [do_call] in H.
  - apply bind_Done in H as ([b s1] & Ht & H). apply Done_inj in H. inversion H; subst.
    apply (G_try_lock s s' th ci b Ht Hg).
  - apply bind_Done in H as ([[b index] s1] & Ht & H).
    apply Done_inj in H. inversion H; subst.
    apply try_lock_point_Done in Ht as (ix & iy & iz & _ & _ & H0 & Hr).
    destruct (Z.eq_dec lock_radius 0) as [Hz|Hz].
    + apply (G_try_lock s s' th index b (H0 Hz) Hg).
    + apply (G_lock_cells
               (region_cells (m_num_grid_cells_per_axis s) ix iy iz lock_radius)
               th [] s s' b (Hr Hz) Hg).
  - apply bind_Done in H as (s1 & Hu & H). apply Done_inj in H. inversion H; subst.
    apply (G_unlock s s' th ci Hu Hg).
  - apply bind_Done in H as (s1 & Hu & H). apply Done_inj in H. inversion H; subst.
    unfold unlock_point in Hu. apply bind_Done in Hu as (index & Hp & Hu).
    apply (G_unlock s s' th index Hu Hg).
  - apply bind_Done in H as (s1 & Hu & H). apply Done_inj in H. inversion H; subst.
    unfold unlock_all_tls_locked_cells in Hu.
    apply bind_Done in Hu as (s2 & Hu & H'). apply Done_inj in H'. subst.
    apply (G_unlock_owned _ th s s2 Hu). apply (G_set_tls_locked_cells _ _ Hg).
  - apply bind_Done in H as (b & _ & H). apply Done_inj in H. inversion H; subst.
    exact Hg.
Qed.

Lemma Inv_unlock_each (cells : list Z) (th : nat) : forall s s',
  Inv s ->
  (forall c u, c ∈ cells -> u <> th -> ~ holds s u (Z.to_nat c)) ->
  unlock_each release cells s th = Done s' -> G s' -> Inv s'.
Proof.
  induction cells as [|c rest IH]; intros s s' Hi Hothers H Hg; cbn in H.
  - apply Done_inj in H. subst. exact Hi.
  - apply bind_Done in H as (s1 & Hu & H).
    pose proof (G_unlock_each rest th s1 s' H Hg) as Hg1.
    apply (IH s1); [| |exact H|exact Hg].
    + apply (Inv_unlock s s1 th c Hi); [|exact Hu|exact Hg1].
      intros u Hne. apply Hothers; [left; reflexivity | exact Hne].
    + intros c' u Hc' Hne Hh. apply (Hothers c' u); [right; exact Hc' | exact Hne|].
      unfold holds in *. rewrite (unlock_others s s1 th c u Hu Hne) in Hh. exact Hh.
Qed.

Lemma Inv_lock_cells (cells : list Z) (th : nat) : forall tmp s s' b,
  Inv s ->
  (forall c, c ∈ tmp -> holds s th (Z.to_nat c)) ->
  lock_cells release try_lock cells tmp s th = Done (b, s') -> G s' -> Inv s'.
Proof.
  induction cells as [|c rest IH]; intros tmp s s' b Hi Htmp H Hg; cbn in H.
  - apply Done_inj in H. inversion H; subst. exact Hi.
  - apply bind_Done in H as ([locked s1] & Ht & H).
    assert (Hg1 : G s1).
    { destruct locked.
      - apply (G_lock_cells rest th _ s1 s' b H Hg).
      - apply bind_Done in H as (s2 & Hu & H). apply Done_inj in H. inversion H; subst.
        apply (G_unlock_each tmp th s1 s' Hu Hg). }
    destruct (Inv_try_lock s s1 th c locked Hi Ht Hg1) as (Hi1 & Hkeep & Hc & _).
    destruct locked.
    + apply (IH (tmp ++ [c]) s1 s' b Hi1); [|exact H|exact Hg].
      intros c' Hc'. apply elem_of_app in Hc' as [Hc'|Hc'].
      * apply Hkeep, Htmp, Hc'.
      * apply list_elem_of_singleton in Hc'. subst c'. apply Hc. reflexivity.
    + apply bind_Done in H as (s2 & Hu & H). apply Done_inj in H. inversion H; subst.
      apply (Inv_unlock_each tmp th s1 s' Hi1); [|exact Hu|exact Hg].
      intros c' u Hc' Hne Hh. apply Hne.
      apply (Inv_one_holder s1 u th (Z.to_nat c')); [exact Hi1 | exact Hg1 | exact Hh|].
      apply Hkeep, Htmp, Hc'.
Qed.

Lemma Inv_unlock_owned (cells : list Z) (th : nat) : forall s s',
  Inv s -> unlock_owned release cells s th = Done s' -> G s' -> Inv s'.
Proof.
  induction cells as [|c rest IH]; intros s s' Hi H Hg; cbn in H.
  - apply Done_inj in H. subst. exact Hi.
  - apply bind_Done in H as (owned & Ho & H).
    apply bind_Done in H as (s1 & Hu & H).
    pose proof (G_unlock_owned rest th s1 s' H Hg) as Hg1.
    apply (IH s1); [|exact H|exact Hg]. destruct owned.
    + apply (Inv_unlock s s1 th c Hi); [|exact Hu|exact Hg1].
      apply array_get_Done in Ho as [_ Ho].
      intros u Hne Hh. apply Hne.
      apply (Inv_one_holder s u th (Z.to_nat c)); try assumption.
      apply (G_unlock s s1 th c Hu Hg1).
    + apply Done_inj in Hu. subst. exact Hi.
Qed.

Lemma Inv_do_call s s' th c r :
  Inv s -> unlocks_own_cell s th c ->
  do_call release try_lock s th c = Done (r, s') -> G s' -> Inv s'.
Proof.
  intros Hi Hown H Hg. pose proof (G_do_call s s' th c r H Hg) as Hg0.
  destruct c as [ci|point lock_radius|ci|point| |]; cbn [do_call] in H.
  - apply bind_Done in H as ([b s1] & Ht & H). apply Done_inj in H. inversion H; subst.
    apply (Inv_try_lock s s' th ci b Hi Ht Hg).
  - apply bind_Done in H as ([[b index] s1] & Ht & H).
    apply Done_inj in H. inversion H; subst.
    apply try_lock_point_Done in Ht as (ix & iy & iz & _ & _ & H0 & Hr).
    destruct (Z.eq_dec lock_radius 0) as [Hz|Hz].
    + apply (Inv_try_lock s s' th index b Hi (H0 Hz) Hg).
    + apply (Inv_lock_cells
               (region_cells (m_num_grid_cells_per_axis s) ix iy iz lock_radius)
               th [] s s' b Hi); [|apply Hr; exact Hz|exact Hg].
      intros c Hc. inversion Hc.
  - apply bind_Done in H as (s1 & Hu & H). apply Done_inj in H. inversion H; subst.
    apply (Inv_unlock s s' th ci Hi); [|exact Hu|exact Hg].
    intros u Hne Hh. apply Hne.
    apply (Inv_one_holder s u th (Z.to_nat ci)); assumption.
  - apply bind_Done in H as (s1 & Hu & H). apply Done_inj in H. inversion H; subst.
    unfold unlock_point in Hu. apply bind_Done in Hu as (index & Hp & Hu).
    apply (Inv_unlock s s' th index Hi); [|exact Hu|exact Hg].
    intros u Hne Hh. apply Hne.
    apply (Inv_one_holder s u th (Z.to_nat index)); [exact Hi | exact Hg0 | exact Hh|].
    apply Hown. exact Hp.
  - apply bind_Done in H as (s1 & Hu & H). apply Done_inj in H. inversion H; subst.
    unfold unlock_all_tls_locked_cells in Hu.
    apply bind_Done in Hu as (s2 & Hu & H'). apply Done_inj in H'. subst.
    apply Inv_set_tls_locked_cells.
    apply (Inv_unlock_owned _ th s s2 Hi Hu). apply (G_set_tls_locked_cells _ _ Hg).
  - apply bind_Done in H as (b & _ & H). apply Done_inj in H. inversion H; subst.
    exact Hi.
Qed.

End Exclusion.

Lemma insert_false_true (l : list bool) (k i : nat) :
  <[k := false]> l !! i = Some true -> l !! i = Some true /\ i <> k.
Proof.
  intros H. destruct (decide (i = k)) as [->|Hne].
  - exfalso. destruct (decide (k < length l)%nat).
    + rewrite list_lookup_insert_eq in H by assumption. discriminate.
    + rewrite list_insert_ge in H by lia. apply lookup_lt_Some in H. lia.
  - rewrite list_lookup_insert_ne in H by congruence. auto.
Qed.

Lemma insert_true_back (l : list bool) (k i : nat) :
  <[k := true]> l !! i = Some true -> l !! i = Some true \/ i = k.
Proof.
  intros H. destruct (decide (i = k)) as [->|Hne]; [right; reflexivity|].
  rewrite list_lookup_insert_ne in H by congruence. auto.
Qed.

Section Effects.
Context {cell extra : Type}.
Implicit Types s : locking_ds cell extra.

Lemma acquire_effect s s' (th : nat) (c : Z) (v : cell) (grid : list cell) :
  array_set (m_grid s) c v = Done grid ->
  record_lock (set_grid s grid) th c = Done s' ->
  0 <= c /\ (Z.to_nat c < length (m_grid s))%nat
  /\ (Z.to_nat c < length (local_grid s th))%nat
  /\ m_grid s' = <[Z.to_nat c := v]> (m_grid s)
  /\ m_extra s' = m_extra s
  /\ local_grid s' th = <[Z.to_nat c := true]> (local_grid s th)
  /\ (forall u, u <> th -> local_grid s' u = local_grid s u).
Proof.
  intros (H0 & Hlt & ->)%array_set_Done (_ & Hlt' & ->)%record_lock_Done.
  change (local_grid (set_grid s ?g) th) with (local_grid s th) in *.
  split_and!; try assumption; try reflexivity.
  - rewrite local_grid_set_tls_locked_cells, local_grid_set_tls_grids,
      decide_True by reflexivity. reflexivity.
  - intros u Hne.
    rewrite local_grid_set_tls_locked_cells, local_grid_set_tls_grids,
      decide_False by congruence. reflexivity.
Qed.

Lemma unlock_effect (release : nat -> cell -> result cell) s s' (th : nat) (c : Z) :
  unlock release s th c = Done s' ->
  exists slot slot',
    m_grid s !! Z.to_nat c = Some slot /\ release th slot = Done slot'
    /\ 0 <= c
    /\ m_grid s' = <[Z.to_nat c := slot']> (m_grid s)
    /\ m_extra s' = m_extra s
    /\ local_grid s' th = <[Z.to_nat c := false]> (local_grid s th)
    /\ (forall u, u <> th -> local_grid s' u = local_grid s u).
Proof.
  intros (slot & slot' & Hslot & Hrel & Hlt & ->)%unlock_Done.
  apply array_get_Done in Hslot as [H0 Hslot].
  exists slot, slot'. split_and!; try assumption; try reflexivity.
  - rewrite local_grid_set_tls_grids, decide_True by reflexivity. reflexivity.
  - intros u Hne. rewrite local_grid_set_tls_grids, decide_False by congruence.
    reflexivity.
Qed.

End Effects.

(** ** [Simple_grid_locking_ds_with_mutex] *)

Lemma mutex_one_holder (s : M.t) (th u i : nat) :
  mutex_exclusive s -> holds s th i -> holds s u i -> th = u.
Proof.
  intros [H1 _] Ht Hu. apply H1 in Ht, Hu. congruence.
Qed.

Lemma mutex_try_lock_effect (s s' : M.t) (th : nat) (c : Z) (b : bool) :
  mutex_exclusive s -> M.try_lock s th c = Done (b, s') ->
  mutex_exclusive s'
  /\ (forall i, holds s th i -> holds s' th i)
  /\ (b = true -> holds s' th (Z.to_nat c))
  /\ (forall u, u <> th -> local_grid s' u = local_grid s u).
Proof.
  intros [H1 H2] H. unfold M.try_lock in H.
  apply bind_Done in H as (held & Hheld & H). destruct held.
  - apply Done_inj in H. inversion H; subst.
    apply array_get_Done in Hheld as [_ Hheld]. split_and!; auto. split; assumption.
  - apply bind_Done in H as (slot & Hslot & H).
    apply array_get_Done in Hheld as [H0 Hheld], Hslot as [_ Hslot].
    destruct slot as [|owner depth]; cbn in H.
    + apply bind_Done in H as (grid & Hg & H).
      apply bind_Done in H as (s1 & Hr & H). apply Done_inj in H. inversion H; subst.
      destruct (acquire_effect s s' th c _ grid Hg Hr)
        as (_ & Hlt & Hlt' & Hgrid & _ & Hl & Ho).
      assert (Hnobody : forall u, ~ holds s u (Z.to_nat c)).
      { intros u Hu. apply H1 in Hu. congruence. }
      split_and!.
      * split.
        -- intros u i Hu. unfold holds in Hu. rewrite Hgrid.
           destruct (decide (u = th)) as [->|Hne].
           ++ rewrite Hl in Hu. apply insert_true_back in Hu as [Hu| ->].
              ** destruct (decide (i = Z.to_nat c)) as [->|Hi];
                   [exfalso; exact (Hnobody th Hu)|].
                 rewrite list_lookup_insert_ne by congruence. apply H1. exact Hu.
              ** apply list_lookup_insert_eq. exact Hlt.
           ++ rewrite (Ho u Hne) in Hu.
              destruct (decide (i = Z.to_nat c)) as [->|Hi];
                [exfalso; exact (Hnobody u Hu)|].
              rewrite list_lookup_insert_ne by congruence. apply H1. exact Hu.
        -- intros i u depth Hs. rewrite Hgrid in Hs.
           destruct (decide (i = Z.to_nat c)) as [->|Hi].
           ++ rewrite list_lookup_insert_eq in Hs by exact Hlt.
              inversion Hs; subst. split; [reflexivity|].
              unfold holds. rewrite Hl. apply list_lookup_insert_eq. exact Hlt'.
           ++ rewrite list_lookup_insert_ne in Hs by congruence.
              destruct (H2 i u depth Hs) as [-> Hu]. split; [reflexivity|].
              unfold holds in *. destruct (decide (u = th)) as [->|Hne].
              ** rewrite Hl, list_lookup_insert_ne by congruence. exact Hu.
              ** rewrite (Ho u Hne). exact Hu.
      * intros i Hi. unfold holds in *. rewrite Hl.
        destruct (decide (i = Z.to_nat c)) as [->|Hne].
        -- apply list_lookup_insert_eq. exact Hlt'.
        -- rewrite list_lookup_insert_ne by congruence. exact Hi.
      * intros _. unfold holds. rewrite Hl. apply list_lookup_insert_eq. exact Hlt'.
      * exact Ho.
    + destruct (decide (owner = th)) as [->|Hne]; cbn in H.
      * exfalso. destruct (H2 _ _ _ Hslot) as [_ Hh]. unfold holds in Hh. congruence.
      * apply Done_inj in H. inversion H; subst.
        split_and!; auto; [split; assumption | discriminate].
Qed.

Lemma mutex_unlock_effect (s s' : M.t) (th : nat) (c : Z) :
  mutex_exclusive s -> M.unlock s th c = Done s' ->
  mutex_exclusive s' /\ holds s th (Z.to_nat c).
Proof.
  intros [H1 H2] H. unfold M.unlock in H.
  apply unlock_effect in H as (slot & slot' & Hslot & Hrel & H0 & Hgrid & _ & Hl & Ho).
  unfold M.release, M.mutex_unlock in Hrel.
  destruct slot as [|owner depth]; [discriminate|].
  destruct (decide (owner = th)) as [->|Hne]; [|discriminate].
  destruct (H2 _ _ _ Hslot) as [-> Hth]. apply Done_inj in Hrel. subst slot'.
  split; [|exact Hth]. split.
  - intros u i Hu. unfold holds in Hu. rewrite Hgrid.
    assert (Hback : holds s u i /\ i <> Z.to_nat c).
    { destruct (decide (u = th)) as [->|Hne].
      - rewrite Hl in Hu. apply insert_false_true in Hu. exact Hu.
      - rewrite (Ho u Hne) in Hu. split; [exact Hu|].
        intros ->. apply Hne. apply (mutex_one_holder s u th (Z.to_nat c));
          [split; assumption | exact Hu | exact Hth]. }
    destruct Hback as [Hs Hi].
    rewrite list_lookup_insert_ne by congruence. apply H1. exact Hs.
  - intros i u depth Hs. rewrite Hgrid in Hs.
    destruct (decide (i = Z.to_nat c)) as [->|Hi].
    + apply lookup_lt_Some in Hslot.
      rewrite list_lookup_insert_eq in Hs by exact Hslot. discriminate.
    + rewrite list_lookup_insert_ne in Hs by congruence.
      destruct (H2 i u depth Hs) as [-> Hu]. split; [reflexivity|].
      unfold holds in *. destruct (decide (u = th)) as [->|Hne].
      * rewrite Hl, list_lookup_insert_ne by congruence. exact Hu.
      * rewrite (Ho u Hne). exact Hu.
Qed.

Lemma mutex_exclusive_construct (bbox : Bbox_3) (n : Z) (s : M.t) :
  M.Simple_grid_locking_ds_with_mutex bbox n = Done s -> mutex_exclusive s.
Proof.
  intros [-> _]%construct_fields. unfold mutex_exclusive, holds, local_grid. cbn.
  split.
  - intros th i Hi. rewrite lookup_empty in Hi. cbn in Hi.
    apply lookup_replicate in Hi as [Hi _]. discriminate.
  - intros i th depth Hi. apply lookup_replicate in Hi as [Hi _]. discriminate.
Qed.

Lemma mutex_unlocks_own_cell (s s' : M.t) (th : nat) (c : call) (r : returned) :
  mutex_exclusive s -> M.do_call s th c = Done (r, s') -> unlocks_own_cell s th c.
Proof.
  intros Hi H. unfold M.do_call in H.
  destruct c as [ci|point lock_radius|ci|point| |]; cbn [do_call] in H; try exact I.
  - apply bind_Done in H as (s1 & Hu & _).
    apply (mutex_unlock_effect s s1 th ci Hi Hu).
  - apply bind_Done in H as (s1 & Hu & _).
    unfold unlock_point in Hu. apply bind_Done in Hu as (index & Hp & Hu).
    intros index' Hp'. rewrite Hp in Hp'. apply Done_inj in Hp'. subst index'.
    apply (mutex_unlock_effect s s1 th index Hi Hu).
Qed.

Lemma mutex_exclusive_run_threads (calls : list (nat * call)) : forall (s s' : M.t) rets,
  mutex_exclusive s ->
  run_threads M.release M.try_lock calls s = Done (rets, s') ->
  mutex_exclusive s'.
Proof.
  induction calls as [|[th c] rest IH]; intros s s' rets Hi H; cbn in H.
  - apply Done_inj in H. inversion H; subst. exact Hi.
  - apply bind_Done in H as ([r s1] & Hc & H).
    apply bind_Done in H as ([rs s2] & Hr & H).
    apply Done_inj in H. inversion H; subst.
    apply (IH s1 s' rs); [|exact Hr].
    apply (Inv_do_call M.release M.try_lock mutex_exclusive (fun _ => True))
      with (s := s) (th := th) (c := c) (r := r); auto.
    + intros s0 t u i H0 _. apply mutex_one_holder. exact H0.
    + intros s0 s0' t c0 b H0 Ht _. apply (mutex_try_lock_effect s0 s0' t c0 b H0 Ht).
    + intros s0 s0' t c0 H0 _ Hu _. apply (mutex_unlock_effect s0 s0' t c0 H0 Hu).
    + apply (mutex_unlocks_own_cell s s1 th c r Hi Hc).
Qed.

(** Mutual exclusion in the mutex class.  After any interleaving of calls
    of any threads on a constructed manager that returned, no cell is held
    by two threads, the mutex of a held cell is owned by its holder, and
    every owned mutex has been acquired exactly once by the thread whose
    bit is set: the bitmap answers a second [try_lock] of the holder, the
    recursion of the mutex is never used. *)
Theorem mutex_mutual_exclusion (bbox : Bbox_3) (n : Z) (s0 s : M.t)
    (calls : list (nat * call)) (rets : list returned) :
  M.Simple_grid_locking_ds_with_mutex bbox n = Done s0 ->
  run_threads M.release M.try_lock calls s0 = Done (rets, s) ->
  (forall th u i, holds s th i -> holds s u i -> th = u)
  /\ (forall th i, holds s th i -> m_grid s !! i = Some (M.Mutex_held th 1))
  /\ (forall i th depth, m_grid s !! i = Some (M.Mutex_held th depth) ->
        depth = 1%nat /\ holds s th i).
Proof.
  intros Hs0 Hrun.
  pose proof (mutex_exclusive_run_threads calls s0 s rets
                (mutex_exclusive_construct bbox n s0 Hs0) Hrun) as He.
  split; [|exact He].
  intros th u i. apply mutex_one_holder. exact He.
Qed.

Lemma mutex_mutual_exclusion_witness :
  (forall th u i,
     holds (state_after (run_threads M.release M.try_lock two_thread_calls fresh_mutex_10)
              fresh_mutex_10) th i ->
     holds (state_after (run_threads M.release M.try_lock two_thread_calls fresh_mutex_10)
              fresh_mutex_10) u i -> th = u)
  /\ (forall th i,
        holds (state_after (run_threads M.release M.try_lock two_thread_calls
                              fresh_mutex_10) fresh_mutex_10) th i ->
        m_grid (state_after (run_threads M.release M.try_lock two_thread_calls
                               fresh_mutex_10) fresh_mutex_10) !! i
        = Some (M.Mutex_held th 1))
  /\ (forall i th depth,
        m_grid (state_after (run_threads M.release M.try_lock two_thread_calls
                               fresh_mutex_10) fresh_mutex_10) !! i
        = Some (M.Mutex_held th depth) ->
        depth = 1%nat
        /\ holds (state_after (run_threads M.release M.try_lock two_thread_calls
                                 fresh_mutex_10) fresh_mutex_10) th i).
Proof.
  refine (mutex_mutual_exclusion box_10 10 fresh_mutex_10 _ two_thread_calls _ _ _).
  - vm_compute. reflexivity.
  - vm_compute. reflexivity.
Defined.

Lemma mutex_two_thread_calls_return :
  (r ← run_threads M.release M.try_lock two_thread_calls fresh_mutex_10; mret r.1)
  = Done [Ret_pair true 555; Ret_pair false 655; Ret_void; Ret_pair true 655;
          Ret_void; Ret_bool true].
Proof. vm_compute. reflexivity. Qed.

(** ** [Simple_grid_locking_ds_with_thread_ids] *)

(** A call that returned under the precondition of [unlock] unlocked a
    cell of its caller. *)
Lemma may_unlock_own {cell extra : Type}
    (release : nat -> cell -> result cell)
    (try_lock : locking_ds cell extra -> nat -> Z -> result (bool * locking_ds cell extra))
    (s s' : locking_ds cell extra) (th : nat) (c : call) (r : returned) :
  may_unlock s th c = true ->
  do_call release try_lock s th c = Done (r, s') ->
  unlocks_own_cell s th c.
Proof.
  assert (Hbit : forall ci s1, unlock release s th ci = Done s1 ->
            match array_get (local_grid s th) ci with Done false => false | _ => true end
            = true -> holds s th (Z.to_nat ci)).
  { intros ci s1 Hu Hm.
    pose proof Hu as (slot & _ & [H0 _]%array_get_Done & _ & Hlt & _)%unlock_Done.
    apply lookup_lt_is_Some_2 in Hlt as [bit Hbit].
    rewrite (proj2 (array_get_Done _ _ _) (conj H0 Hbit)) in Hm.
    unfold holds. destruct bit; [exact Hbit | discriminate]. }
  intros Hm H. destruct c as [ci|point lock_radius|ci|point| |];
    cbn [do_call] in H; cbn [may_unlock unlocks_own_cell] in *; try exact I.
  - apply bind_Done in H as (s1 & Hu & _). exact (Hbit ci s1 Hu Hm).
  - apply bind_Done in H as (s1 & Hu & _).
    unfold unlock_point in Hu. apply bind_Done in Hu as (index & Hp & Hu).
    intros index' Hp'. rewrite Hp in Hp'. apply Done_inj in Hp'. subst index'.
    rewrite Hp in Hm. exact (Hbit index s1 Hu Hm).
Qed.

Lemma ids_one_holder (base : Z) (s : I.t) (th u i : nat) :
  ids_exclusive base s -> holds s th i -> holds s u i -> th = u.
Proof.
  intros (_ & _ & _ & Hinj & Hh & _) Ht Hu.
  apply Hh in Ht as (id & Hid & Hs), Hu as (id' & Hid' & Hs').
  apply (Hinj th u id Hid). congruence.
Qed.

Lemma try_lock_loop_ids (th : nat) (c me : Z) (pending : list (list (nat * Z))) :
  forall (s s' : I.t) (b : bool),
  I.try_lock_loop pending s th c me = Done (b, s') ->
  I.m_tls_thread_ids (m_extra s') = I.m_tls_thread_ids (m_extra s).
Proof.
  induction pending as [|writes rest IH]; intros s s' b H; cbn in H;
    apply bind_Done in H as (old & Hold & H);
    destruct (old =? 0).
  - apply bind_Done in H as (grid & Hg & H).
    apply bind_Done in H as (s1 & Hr & H). apply Done_inj in H. inversion H; subst.
    destruct (acquire_effect s s' th c _ grid Hg Hr) as (_ & _ & _ & _ & -> & _).
    reflexivity.
  - destruct (old <? me); [discriminate|].
    apply Done_inj in H. inversion H; subst. reflexivity.
  - apply bind_Done in H as (grid & Hg & H).
    apply bind_Done in H as (s1 & Hr & H). apply Done_inj in H. inversion H; subst.
    destruct (acquire_effect s s' th c _ grid Hg Hr) as (_ & _ & _ & _ & -> & _).
    reflexivity.
  - destruct (old <? me).
    + apply IH in H. rewrite H. reflexivity.
    + apply Done_inj in H. inversion H; subst. reflexivity.
Qed.

Lemma local_thread_id_size (s s1 : I.t) (th : nat) (me : Z) :
  I.local_thread_id s th = (me, s1) ->
  (size (I.m_tls_thread_ids (m_extra s)) <= size (I.m_tls_thread_ids (m_extra s1)))%nat.
Proof.
  unfold I.local_thread_id. intros H.
  destruct (I.m_tls_thread_ids (m_extra s) !! th) as [id|] eqn:Hid.
  - inversion H; subst. lia.
  - inversion H; subst. cbn. rewrite map_size_insert_None by exact Hid. lia.
Qed.

Lemma ids_not_wrapped_try_lock (base : Z) (s s' : I.t) (th : nat) (c : Z) (b : bool) :
  I.try_lock s th c = Done (b, s') -> ids_not_wrapped base s' -> ids_not_wrapped base s.
Proof.
  unfold I.try_lock, ids_not_wrapped. intros H Hg.
  apply bind_Done in H as (held & _ & H). destruct held.
  - apply Done_inj in H. inversion H; subst. exact Hg.
  - destruct (I.local_thread_id s th) as [me s1] eqn:Hme.
    apply try_lock_loop_ids in H. rewrite H in Hg.
    apply local_thread_id_size in Hme. lia.
Qed.

Lemma ids_not_wrapped_unlock (base : Z) (s s' : I.t) (th : nat) (c : Z) :
  unlock I.release s th c = Done s' -> ids_not_wrapped base s' -> ids_not_wrapped base s.
Proof.
  intros (slot & slot' & _ & _ & _ & _ & He & _)%unlock_effect.
  unfold ids_not_wrapped. rewrite He. auto.
Qed.

(** The first [try_lock] of a thread gives it the next id. *)
Lemma ids_local_thread_id (base : Z) (s s1 : I.t) (th : nat) (me : Z) :
  0 <= base -> ids_exclusive base s ->
  I.local_thread_id s th = (me, s1) -> ids_not_wrapped base s1 ->
  ids_exclusive base s1
  /\ I.m_tls_thread_ids (m_extra s1) !! th = Some me
  /\ m_grid s1 = m_grid s
  /\ (forall u, local_grid s1 u = local_grid s u).
Proof.
  intros Hb (Hot & Hlast & Hrange & Hinj & Hh & Hs) H Hg.
  unfold I.local_thread_id in H.
  destruct (I.m_tls_thread_ids (m_extra s) !! th) as [id|] eqn:Hid.
  - inversion H; subst. split_and!; auto. split_and!; assumption.
  - inversion H; subst. clear H. unfold ids_not_wrapped in Hg. cbn in Hg.
    rewrite map_size_insert_None in Hg by exact Hid.
    assert (Hme : uint_incr (I.last_id (m_extra s))
                  = base + Z.of_nat (S (size (I.m_tls_thread_ids (m_extra s))))).
    { unfold uint_incr. rewrite Hlast. rewrite Z.mod_small by lia. lia. }
    split_and!; try reflexivity.
    + unfold ids_exclusive, holds. cbn.
      change (local_grid (set_extra s ?e)) with (local_grid s).
      rewrite map_size_insert_None by exact Hid.
      split_and!.
      * exact Hot.
      * exact Hme.
      * intros u id Hu. destruct (decide (u = th)) as [->|Hne].
        -- rewrite lookup_insert_eq in Hu. inversion Hu; subst. rewrite Hme. lia.
        -- rewrite lookup_insert_ne in Hu by congruence.
           apply Hrange in Hu. rewrite Hme. lia.
      * intros u v id Hu Hv.
        destruct (decide (u = th)) as [->|Hu'], (decide (v = th)) as [->|Hv'];
          try reflexivity.
        -- rewrite lookup_insert_eq in Hu. rewrite lookup_insert_ne in Hv by congruence.
           inversion Hu; subst. apply Hrange in Hv. lia.
        -- rewrite lookup_insert_eq in Hv. rewrite lookup_insert_ne in Hu by congruence.
           inversion Hv; subst. apply Hrange in Hu. lia.
        -- rewrite lookup_insert_ne in Hu, Hv by congruence. exact (Hinj u v id Hu Hv).
      * intros u i Hu. destruct (Hh u i Hu) as (id & Hi & Hsl).
        exists id. split; [|exact Hsl].
        rewrite lookup_insert_ne; [exact Hi|]. intros <-. congruence.
      * intros i id Hsl Hnz. destruct (Hs i id Hsl Hnz) as (u & Hi & Hu).
        exists u. split; [|exact Hu].
        rewrite lookup_insert_ne; [exact Hi|]. intros <-. congruence.
    + cbn. apply lookup_insert_eq.
Qed.

Lemma ids_try_lock_effect (base : Z) (s s' : I.t) (th : nat) (c : Z) (b : bool) :
  0 <= base -> ids_exclusive base s ->
  I.try_lock s th c = Done (b, s') -> ids_not_wrapped base s' ->
  ids_exclusive base s'
  /\ (forall i, holds s th i -> holds s' th i)
  /\ (b = true -> holds s' th (Z.to_nat c))
  /\ (forall u, u <> th -> local_grid s' u = local_grid s u).
Proof.
  intros Hb Hi H Hg. unfold I.try_lock in H.
  apply bind_Done in H as (held & Hheld & H). destruct held.
  - apply Done_inj in H. inversion H; subst.
    apply array_get_Done in Hheld as [_ Hheld]. split_and!; auto.
  - destruct (I.local_thread_id s th) as [me s1] eqn:Hme.
    assert (Hg1 : ids_not_wrapped base s1).
    { unfold ids_not_wrapped in *. rewrite <- (try_lock_loop_ids _ _ _ _ _ _ _ H).
      exact Hg. }
    destruct (ids_local_thread_id base s s1 th me Hb Hi Hme Hg1)
      as (Hi1 & Hid & Hgrid1 & Hl1).
    clear Hi Hme.
    destruct Hi1 as (Hot & Hlast & Hrange & Hinj & Hh & Hs).
    rewrite Hot in H. cbn in H.
    apply bind_Done in H as (old & Hold & H).
    apply array_get_Done in Hold as [H0 Hold].
    destruct (old =? 0) eqn:Hz.
    + apply Z.eqb_eq in Hz. subst old.
      apply bind_Done in H as (grid & Hgr & H).
      apply bind_Done in H as (s2 & Hr & H). apply Done_inj in H. inversion H; subst.
      destruct (acquire_effect s1 s' th c _ grid Hgr Hr)
        as (_ & Hlt & Hlt' & Hgrid & He & Hl & Ho).
      assert (Hnobody : forall u, ~ holds s1 u (Z.to_nat c)).
      { intros u Hu. apply Hh in Hu as (id & Hu & Hsl).
        apply Hrange in Hu. rewrite Hold in Hsl. inversion Hsl. lia. }
      split_and!.
      * unfold ids_exclusive. rewrite He. split_and!; try assumption.
        -- intros u i Hu. unfold holds in Hu. rewrite Hgrid.
           destruct (decide (u = th)) as [->|Hne].
           ++ rewrite Hl in Hu. apply insert_true_back in Hu as [Hu| ->].
              ** destruct (decide (i = Z.to_nat c)) as [->|Hic];
                   [exfalso; exact (Hnobody th Hu)|].
                 rewrite list_lookup_insert_ne by congruence. apply Hh. exact Hu.
              ** exists me. split; [exact Hid|]. apply list_lookup_insert_eq. exact Hlt.
           ++ rewrite (Ho u Hne) in Hu.
              destruct (decide (i = Z.to_nat c)) as [->|Hic];
                [exfalso; exact (Hnobody u Hu)|].
              rewrite list_lookup_insert_ne by congruence. apply Hh. exact Hu.
        -- intros i id Hsl Hnz. rewrite Hgrid in Hsl.
           destruct (decide (i = Z.to_nat c)) as [->|Hic].
           ++ rewrite list_lookup_insert_eq in Hsl by exact Hlt. inversion Hsl; subst.
              exists th. split; [exact Hid|].
              unfold holds. rewrite Hl. apply list_lookup_insert_eq. exact Hlt'.
           ++ rewrite list_lookup_insert_ne in Hsl by congruence.
              destruct (Hs i id Hsl Hnz) as (u & Hu & Hhu). exists u.
              split; [exact Hu|]. unfold holds in *.
              destruct (decide (u = th)) as [->|Hne].
              ** rewrite Hl, list_lookup_insert_ne by congruence. exact Hhu.
              ** rewrite (Ho u Hne). exact Hhu.
      * intros i Hit. unfold holds in *. rewrite Hl, Hl1.
        destruct (decide (i = Z.to_nat c)) as [->|Hne].
        -- apply list_lookup_insert_eq. rewrite <- Hl1. exact Hlt'.
        -- rewrite list_lookup_insert_ne by congruence. exact Hit.
      * intros _. unfold holds. rewrite Hl. apply list_lookup_insert_eq. exact Hlt'.
      * intros u Hne. rewrite (Ho u Hne). apply Hl1.
    + destruct (old <? me); [discriminate|].
      apply Done_inj in H. inversion H; subst.
      split_and!.
      * unfold ids_exclusive. split_and!; assumption.
      * intros i Hit. unfold holds in *. rewrite Hl1. exact Hit.
      * discriminate.
      * intros u _. apply Hl1.
Qed.

Lemma ids_unlock_effect (base : Z) (s s' : I.t) (th : nat) (c : Z) :
  ids_exclusive base s -> (forall u, u <> th -> ~ holds s u (Z.to_nat c)) ->
  unlock I.release s th c = Done s' -> ids_exclusive base s'.
Proof.
  intros (Hot & Hlast & Hrange & Hinj & Hh & Hs) Hnobody H.
  apply unlock_effect in H as (slot & slot' & Hslot & Hrel & H0 & Hgrid & He & Hl & Ho).
  apply Done_inj in Hrel. subst slot'.
  assert (Hback : forall u i, holds s' u i -> holds s u i /\ i <> Z.to_nat c).
  { intros u i Hu. unfold holds in *. destruct (decide (u = th)) as [->|Hne].
    - rewrite Hl in Hu. apply insert_false_true in Hu. exact Hu.
    - rewrite (Ho u Hne) in Hu. split; [exact Hu|].
      intros ->. exact (Hnobody u Hne Hu). }
  unfold ids_exclusive. rewrite He. split_and!; try assumption.
  - intros u i Hu. apply Hback in Hu as [Hu Hic].
    rewrite Hgrid, list_lookup_insert_ne by congruence. apply Hh. exact Hu.
  - intros i id Hsl Hnz. rewrite Hgrid in Hsl.
    destruct (decide (i = Z.to_nat c)) as [->|Hic].
    + apply lookup_lt_Some in Hslot.
      rewrite list_lookup_insert_eq in Hsl by exact Hslot. congruence.
    + rewrite list_lookup_insert_ne in Hsl by congruence.
      destruct (Hs i id Hsl Hnz) as (u & Hu & Hhu). exists u.
      split; [exact Hu|]. unfold holds in *.
      destruct (decide (u = th)) as [->|Hne].
      * rewrite Hl, list_lookup_insert_ne by congruence. exact Hhu.
      * rewrite (Ho u Hne). exact Hhu.
Qed.

Lemma ids_exclusive_construct (base : Z) (bbox : Bbox_3) (n : Z) (s : I.t) :
  I.Simple_grid_locking_ds_with_thread_ids base [] bbox n = Done s ->
  ids_exclusive base s.
Proof.
  intros [-> _]%construct_fields. unfold ids_exclusive, holds, local_grid. cbn.
  rewrite map_size_empty. split_and!; try reflexivity || lia.
  - intros th id H. rewrite lookup_empty in H. discriminate.
  - intros th u id H. rewrite lookup_empty in H. discriminate.
  - intros th i H. rewrite lookup_empty in H. cbn in H.
    apply lookup_replicate in H as [H _]. discriminate.
  - intros i id H Hnz. apply lookup_replicate in H as [H _]. congruence.
Qed.

Lemma ids_not_wrapped_run_threads (base : Z) (calls : list (nat * call)) :
  forall (s s' : I.t) rets,
  run_threads I.release I.try_lock calls s = Done (rets, s') ->
  ids_not_wrapped base s' -> ids_not_wrapped base s.
Proof.
  induction calls as [|[th c] rest IH]; intros s s' rets H Hg; cbn in H.
  - apply Done_inj in H. inversion H; subst. exact Hg.
  - apply bind_Done in H as ([r s1] & Hc & H).
    apply bind_Done in H as ([rs s2] & Hr & H).
    apply Done_inj in H. inversion H; subst.
    apply (G_do_call I.release I.try_lock (ids_not_wrapped base))
      with (s := s) (s' := s1) (th := th) (c := c) (r := r).
    + apply ids_not_wrapped_try_lock.
    + apply ids_not_wrapped_unlock.
    + intros s0 m H0. exact H0.
    + exact Hc.
    + apply (IH s1 s' rs Hr Hg).
Qed.

Lemma ids_exclusive_run_threads (base : Z) (calls : list (nat * call)) :
  forall (s s' : I.t) rets,
  0 <= base -> ids_exclusive base s ->
  unlock_held_only I.release I.try_lock calls s = true ->
  run_threads I.release I.try_lock calls s = Done (rets, s') ->
  ids_not_wrapped base s' ->
  ids_exclusive base s'.
Proof.
  induction calls as [|[th c] rest IH]; intros s s' rets Hb Hi Hc H Hg; cbn in H, Hc.
  - apply Done_inj in H. inversion H; subst. exact Hi.
  - apply bind_Done in H as ([r s1] & Hd & H).
    apply bind_Done in H as ([rs s2] & Hr & H).
    apply Done_inj in H. inversion H; subst.
    apply andb_prop in Hc as [Hm Hc].
    change (do_call I.release I.try_lock s th c) with (I.do_call s th c) in Hc.
    unfold I.do_call in Hc. rewrite Hd in Hc.
    apply (IH s1 s' rs Hb); [|exact Hc|exact Hr|exact Hg].
    apply (Inv_do_call I.release I.try_lock (ids_exclusive base) (ids_not_wrapped base))
      with (s := s) (th := th) (c := c) (r := r).
    + intros s0 t u i H0 _. apply (ids_one_holder base). exact H0.
    + intros s0 s0' t c0 b0. apply (ids_try_lock_effect base s0 s0' t c0 b0 Hb).
    + intros s0 s0' t c0 H0 Hn Hu _. apply (ids_unlock_effect base s0 s0' t c0 H0 Hn Hu).
    + intros s0 m H0. exact H0.
    + apply ids_not_wrapped_try_lock.
    + apply ids_not_wrapped_unlock.
    + intros s0 m H0. exact H0.
    + exact Hi.
    + apply (may_unlock_own I.release I.try_lock s s1 th c r Hm Hd).
    + exact Hd.
    + apply (ids_not_wrapped_run_threads base rest s1 s' rs Hr Hg).
Qed.

Lemma ids_thread_calls_return :
  (r ← run_threads I.release I.try_lock ids_thread_calls fresh_ids_10; mret r.1)
  = Done [Ret_bool true; Ret_pair true 555; Ret_pair false 655; Ret_void;
          Ret_pair true 655; Ret_void; Ret_bool true].
Proof. vm_compute. reflexivity. Qed.

(** With the two region calls in the other order the thread of the higher
    id meets a holder of a lower id and, with no other thread left to
    release the cell, never returns. *)
Lemma two_thread_calls_spin :
  run_threads I.release I.try_lock two_thread_calls fresh_ids_10 = Spins.
Proof. vm_compute. reflexivity. Qed.

(** ** Threads that wait *)

Lemma keeps_others_refl (th : nat) (s : I.t) : keeps_others th s s.
Proof. split; [reflexivity|]. reflexivity. Qed.

Lemma keeps_others_trans (th : nat) (s1 s2 s3 : I.t) :
  keeps_others th s1 s2 -> keeps_others th s2 s3 -> keeps_others th s1 s3.
Proof.
  intros [Hl Hi] [Hl' Hi']. split.
  - intros u Hne. rewrite (Hl' u Hne). apply Hl. exact Hne.
  - etransitivity; [exact Hi | exact Hi'].
Qed.

Lemma keeps_others_not_wrapped (base : Z) (th : nat) (s s' : I.t) :
  keeps_others th s s' -> ids_not_wrapped base s' -> ids_not_wrapped base s.
Proof.
  intros [_ Hi] Hg. unfold ids_not_wrapped in *.
  apply map_subseteq_size in Hi. lia.
Qed.

Lemma keeps_others_same_extra (th : nat) (s s' : I.t) :
  (forall u, u <> th -> local_grid s' u = local_grid s u) ->
  m_extra s' = m_extra s -> keeps_others th s s'.
Proof. intros Hl He. split; [exact Hl|]. rewrite He. reflexivity. Qed.

Lemma local_thread_id_keeps (s s1 : I.t) (th u : nat) (me : Z) :
  I.local_thread_id s th = (me, s1) -> keeps_others u s s1.
Proof.
  unfold I.local_thread_id. intros H.
  destruct (I.m_tls_thread_ids (m_extra s) !! th) as [id|] eqn:Hid.
  - inversion H; subst. apply keeps_others_refl.
  - inversion H; subst. split; [reflexivity|]. cbn.
    apply insert_subseteq. exact Hid.
Qed.

Lemma try_lock_pass_keeps (s s' : I.t) (th : nat) (c me : Z) (r : option Z) :
  try_lock_pass s th c me = Done (r, s') -> keeps_others th s s'.
Proof.
  unfold try_lock_pass. intros H.
  apply bind_Done in H as (old & _ & H). destruct (old =? 0).
  - apply bind_Done in H as (grid & Hg & H).
    apply bind_Done in H as (s1 & Hr & H). apply Done_inj in H. inversion H; subst.
    destruct (acquire_effect s s' th c _ grid Hg Hr) as (_ & _ & _ & _ & He & _ & Ho).
    apply keeps_others_same_extra; assumption.
  - apply Done_inj in H. inversion H; subst. apply keeps_others_refl.
Qed.

Lemma try_lock_enter_keeps (s s' : I.t) (th : nat) (c : Z) (r : option (Z * Z)) :
  try_lock_enter s th c = Done (r, s') -> keeps_others th s s'.
Proof.
  unfold try_lock_enter. intros H.
  apply bind_Done in H as (held & _ & H). destruct held.
  - apply Done_inj in H. inversion H; subst. apply keeps_others_refl.
  - destruct (I.local_thread_id s th) as [me s1] eqn:Hme.
    apply bind_Done in H as ([old s2] & Hp & H). apply Done_inj in H. inversion H; subst.
    eapply keeps_others_trans;
      [eapply local_thread_id_keeps; exact Hme | eapply try_lock_pass_keeps; exact Hp].
Qed.

Lemma unlock_keeps (s s' : I.t) (th : nat) (c : Z) :
  unlock I.release s th c = Done s' -> keeps_others th s s'.
Proof.
  intros (slot & slot' & _ & _ & _ & _ & He & _ & Ho)%unlock_effect.
  apply keeps_others_same_extra; assumption.
Qed.

Lemma unlock_each_keeps (cells : list Z) (th : nat) : forall s s' : I.t,
  unlock_each I.release cells s th = Done s' -> keeps_others th s s'.
Proof.
  induction cells as [|c rest IH]; intros s s' H; cbn in H.
  - apply Done_inj in H. subst. apply keeps_others_refl.
  - apply bind_Done in H as (s1 & Hu & H).
    eapply keeps_others_trans; [eapply unlock_keeps; exact Hu | apply IH; exact H].
Qed.

Lemma unlock_owned_keeps (cells : list Z) (th : nat) : forall s s' : I.t,
  unlock_owned I.release cells s th = Done s' -> keeps_others th s s'.
Proof.
  induction cells as [|c rest IH]; intros s s' H; cbn in H.
  - apply Done_inj in H. subst. apply keeps_others_refl.
  - apply bind_Done in H as (owned & _ & H).
    apply bind_Done in H as (s1 & Hu & H).
    eapply keeps_others_trans; [|apply IH; exact H].
    destruct owned.
    + eapply unlock_keeps; exact Hu.
    + apply Done_inj in Hu. subst. apply keeps_others_refl.
Qed.

Lemma lock_cells_from_keeps (th : nat) (index : Z) (cells : list Z) :
  forall tmp (s s' : I.t) o,
  lock_cells_from cells tmp index s th = Done (o, s') -> keeps_others th s s'.
Proof.
  induction cells as [|c rest IH]; intros tmp s s' o H; cbn in H.
  - apply Done_inj in H. inversion H; subst. apply keeps_others_refl.
  - apply bind_Done in H as ([r s1] & He & H).
    apply try_lock_enter_keeps in He.
    destruct r as [[me old]|].
    + apply Done_inj in H. inversion H; subst. exact He.
    + eapply keeps_others_trans; [exact He | eapply IH; exact H].
Qed.

Lemma try_lock_returns_keeps (b : bool) (from : caller) (c : Z) (s s' : I.t)
    (th : nat) (o : outcome) :
  try_lock_returns b from c s th = Done (o, s') -> keeps_others th s s'.
Proof.
  unfold try_lock_returns. intros H.
  destruct from as [|index|rest tmp index].
  - apply Done_inj in H. inversion H; subst. apply keeps_others_refl.
  - apply Done_inj in H. inversion H; subst. apply keeps_others_refl.
  - destruct b.
    + eapply lock_cells_from_keeps; exact H.
    + apply bind_Done in H as (s1 & Hu & H). apply Done_inj in H. inversion H; subst.
      eapply unlock_each_keeps; exact Hu.
Qed.

Lemma resume_keeps (s s' : I.t) (th : nat) (w : waiting) (o : outcome) :
  resume s th w = Done (o, s') -> keeps_others th s s'.
Proof.
  unfold resume. intros H. destruct (w_old_value w <? w_this_thread_id w).
  - apply bind_Done in H as ([old s1] & Hp & H).
    apply try_lock_pass_keeps in Hp. destruct old as [v|].
    + apply Done_inj in H. inversion H; subst. exact Hp.
    + eapply keeps_others_trans; [exact Hp | eapply try_lock_returns_keeps; exact H].
  - eapply try_lock_returns_keeps; exact H.
Qed.

Lemma begin_call_keeps (s s' : I.t) (th : nat) (c : call) (o : outcome) :
  begin_call s th c = Done (o, s') -> keeps_others th s s'.
Proof.
  intros H. destruct c as [ci|point lock_radius|ci|point| |];
    unfold begin_call, I.do_call in H; cbn [do_call] in H.
  - apply bind_Done in H as ([r s1] & He & H). apply Done_inj in H. inversion H; subst.
    eapply try_lock_enter_keeps; exact He.
  - apply bind_Done in H as ([[ix iy] iz] & _ & H).
    destruct (lock_radius =? 0).
    + apply bind_Done in H as ([r s1] & He & H). apply Done_inj in H. inversion H; subst.
      eapply try_lock_enter_keeps; exact He.
    + eapply lock_cells_from_keeps; exact H.
  - apply bind_Done in H as ([r s1] & H1 & H). apply Done_inj in H. inversion H; subst.
    apply bind_Done in H1 as (s2 & Hu & H1). apply Done_inj in H1. inversion H1; subst.
    eapply unlock_keeps; exact Hu.
  - apply bind_Done in H as ([r s1] & H1 & H). apply Done_inj in H. inversion H; subst.
    apply bind_Done in H1 as (s2 & Hu & H1). apply Done_inj in H1. inversion H1; subst.
    unfold unlock_point in Hu. apply bind_Done in Hu as (index & _ & Hu).
    eapply unlock_keeps; exact Hu.
  - apply bind_Done in H as ([r s1] & H1 & H). apply Done_inj in H. inversion H; subst.
    apply bind_Done in H1 as (s2 & Hu & H1). apply Done_inj in H1. inversion H1; subst.
    unfold unlock_all_tls_locked_cells in Hu.
    apply bind_Done in Hu as (s3 & Hu & H3). apply Done_inj in H3. subst.
    apply unlock_owned_keeps in Hu. destruct Hu as [Hl Hi]. split; assumption.
  - apply bind_Done in H as ([r s1] & H1 & H). apply Done_inj in H. inversion H; subst.
    apply bind_Done in H1 as (b & _ & H1). apply Done_inj in H1. inversion H1; subst.
    apply keeps_others_refl.
Qed.

Lemma ids_unlock_each_exclusive (base : Z) (cells : list Z) (th : nat) (s s' : I.t) :
  ids_exclusive base s ->
  (forall c, c ∈ cells -> holds s th (Z.to_nat c)) ->
  unlock_each I.release cells s th = Done s' -> ids_exclusive base s'.
Proof.
  intros Hi Hheld Hu.
  apply (Inv_unlock_each I.release (ids_exclusive base) (fun _ => True))
    with (cells := cells) (th := th) (s := s); auto.
  - intros s0 s0' t c H0 Hn H _. apply (ids_unlock_effect base s0 s0' t c H0 Hn H).
  - intros c u Hc Hne Hu'. apply Hne.
    apply (ids_one_holder base s u th (Z.to_nat c) Hi Hu'). apply Hheld. exact Hc.
Qed.

Lemma ids_do_call_exclusive (base : Z) (s s' : I.t) (th : nat) (c : call) (r : returned) :
  0 <= base -> ids_exclusive base s -> may_unlock s th c = true ->
  I.do_call s th c = Done (r, s') -> ids_not_wrapped base s' ->
  ids_exclusive base s'.
Proof.
  intros Hb Hi Hm Hd Hg.
  apply (Inv_do_call I.release I.try_lock (ids_exclusive base) (ids_not_wrapped base))
    with (s := s) (th := th) (c := c) (r := r).
  - intros s0 t u i H0 _. apply (ids_one_holder base). exact H0.
  - intros s0 s0' t c0 b0. apply (ids_try_lock_effect base s0 s0' t c0 b0 Hb).
  - intros s0 s0' t c0 H0 Hn Hu _. apply (ids_unlock_effect base s0 s0' t c0 H0 Hn Hu).
  - intros s0 m H0. exact H0.
  - apply ids_not_wrapped_try_lock.
  - apply ids_not_wrapped_unlock.
  - intros s0 m H0. exact H0.
  - exact Hi.
  - apply (may_unlock_own I.release I.try_lock s s' th c r Hm Hd).
  - exact Hd.
  - exact Hg.
Qed.

(** A pass through the loop body by a thread that has its id. *)
Lemma try_lock_pass_exclusive (base : Z) (s s' : I.t) (th : nat) (c me : Z)
    (r : option Z) :
  0 <= base -> ids_exclusive base s ->
  I.m_tls_thread_ids (m_extra s) !! th = Some me ->
  try_lock_pass s th c me = Done (r, s') ->
  ids_exclusive base s'
  /\ m_extra s' = m_extra s
  /\ (forall i, holds s th i -> holds s' th i)
  /\ (r = None -> holds s' th (Z.to_nat c)).
Proof.
  intros Hb (Hot & Hlast & Hrange & Hinj & Hh & Hs) Hid H.
  unfold try_lock_pass in H.
  apply bind_Done in H as (old & Hold & H).
  apply array_get_Done in Hold as [H0 Hold].
  destruct (old =? 0) eqn:Hz.
  - apply Z.eqb_eq in Hz. subst old.
    apply bind_Done in H as (grid & Hgr & H).
    apply bind_Done in H as (s2 & Hr & H). apply Done_inj in H. inversion H; subst.
    destruct (acquire_effect s s' th c _ grid Hgr Hr)
      as (_ & Hlt & Hlt' & Hgrid & He & Hl & Ho).
    assert (Hnobody : forall u, ~ holds s u (Z.to_nat c)).
    { intros u Hu. apply Hh in Hu as (id & Hu & Hsl).
      apply Hrange in Hu. rewrite Hold in Hsl. inversion Hsl. lia. }
    split_and!.
    + unfold ids_exclusive. rewrite He. split_and!; try assumption.
      * intros u i Hu. unfold holds in Hu. rewrite Hgrid.
        destruct (decide (u = th)) as [->|Hne].
        -- rewrite Hl in Hu. apply insert_true_back in Hu as [Hu| ->].
           ++ destruct (decide (i = Z.to_nat c)) as [->|Hic];
                [exfalso; exact (Hnobody th Hu)|].
              rewrite list_lookup_insert_ne by congruence. apply Hh. exact Hu.
           ++ exists me. split; [exact Hid|]. apply list_lookup_insert_eq. exact Hlt.
        -- rewrite (Ho u Hne) in Hu.
           destruct (decide (i = Z.to_nat c)) as [->|Hic];
             [exfalso; exact (Hnobody u Hu)|].
           rewrite list_lookup_insert_ne by congruence. apply Hh. exact Hu.
      * intros i id Hsl Hnz. rewrite Hgrid in Hsl.
        destruct (decide (i = Z.to_nat c)) as [->|Hic].
        -- rewrite list_lookup_insert_eq in Hsl by exact Hlt. inversion Hsl; subst.
           exists th. split; [exact Hid|].
           unfold holds. rewrite Hl. apply list_lookup_insert_eq. exact Hlt'.
        -- rewrite list_lookup_insert_ne in Hsl by congruence.
           destruct (Hs i id Hsl Hnz) as (u & Hu & Hhu). exists u.
           split; [exact Hu|]. unfold holds in *.
           destruct (decide (u = th)) as [->|Hne].
           ++ rewrite Hl, list_lookup_insert_ne by congruence. exact Hhu.
           ++ rewrite (Ho u Hne). exact Hhu.
    + exact He.
    + intros i Hit. unfold holds in *. rewrite Hl.
      destruct (decide (i = Z.to_nat c)) as [->|Hne].
      * apply list_lookup_insert_eq. exact Hlt'.
      * rewrite list_lookup_insert_ne by congruence. exact Hit.
    + intros _. unfold holds. rewrite Hl. apply list_lookup_insert_eq. exact Hlt'.
  - apply Done_inj in H. inversion H; subst.
    split_and!; auto; [|discriminate].
    unfold ids_exclusive. split_and!; assumption.
Qed.

Lemma try_lock_enter_exclusive (base : Z) (s s' : I.t) (th : nat) (c : Z)
    (r : option (Z * Z)) :
  0 <= base -> ids_exclusive base s ->
  try_lock_enter s th c = Done (r, s') -> ids_not_wrapped base s' ->
  ids_exclusive base s'
  /\ (forall i, holds s th i -> holds s' th i)
  /\ (r = None -> holds s' th (Z.to_nat c))
  /\ (forall me old, r = Some (me, old) ->
        I.m_tls_thread_ids (m_extra s') !! th = Some me).
Proof.
  intros Hb Hi H Hg. unfold try_lock_enter in H.
  apply bind_Done in H as (held & Hheld & H). destruct held.
  - apply Done_inj in H. inversion H; subst.
    apply array_get_Done in Hheld as [_ Hheld]. split_and!; auto. discriminate.
  - destruct (I.local_thread_id s th) as [me s1] eqn:Hme.
    apply bind_Done in H as ([old s2] & Hp & H). apply Done_inj in H. inversion H; subst.
    assert (Hg1 : ids_not_wrapped base s1).
    { apply (keeps_others_not_wrapped base th s1 s'); [|exact Hg].
      eapply try_lock_pass_keeps; exact Hp. }
    destruct (ids_local_thread_id base s s1 th me Hb Hi Hme Hg1)
      as (Hi1 & Hid & _ & Hl1).
    destruct (try_lock_pass_exclusive base s1 s' th c me old Hb Hi1 Hid Hp)
      as (Hi' & He & Hkeep & Hnew).
    split_and!.
    + exact Hi'.
    + intros i Hit. apply Hkeep. unfold holds in *. rewrite Hl1. exact Hit.
    + intros Hr. apply Hnew. destruct old; [discriminate | reflexivity].
    + intros me' old' Hr. destruct old as [v|]; [|discriminate].
      cbn in Hr. inversion Hr; subst. rewrite He. exact Hid.
Qed.

Lemma lock_cells_from_exclusive (base : Z) (th : nat) (index : Z) (cells : list Z) :
  forall tmp (s s' : I.t) o,
  0 <= base -> ids_exclusive base s ->
  (forall c, c ∈ tmp -> holds s th (Z.to_nat c)) ->
  lock_cells_from cells tmp index s th = Done (o, s') -> ids_not_wrapped base s' ->
  ids_exclusive base s' /\ (forall w, o = Yielded w -> waiting_ok s' th w).
Proof.
  induction cells as [|c rest IH]; intros tmp s s' o Hb Hi Htmp H Hg; cbn in H.
  - apply Done_inj in H. inversion H; subst. split; [exact Hi | discriminate].
  - apply bind_Done in H as ([r s1] & He & H).
    assert (Hg1 : ids_not_wrapped base s1).
    { destruct r as [[me old]|].
      - apply Done_inj in H. inversion H; subst. exact Hg.
      - apply (keeps_others_not_wrapped base th s1 s'); [|exact Hg].
        eapply lock_cells_from_keeps; exact H. }
    destruct (try_lock_enter_exclusive base s s1 th c r Hb Hi He Hg1)
      as (Hi1 & Hkeep & Hnew & Hid).
    destruct r as [[me old]|].
    + apply Done_inj in H. inversion H; subst. split; [exact Hi1|].
      intros w Hw. inversion Hw; subst. split; cbn.
      * apply (Hid me old). reflexivity.
      * intros c' Hc'. apply Hkeep. apply Htmp. exact Hc'.
    + apply (IH (tmp ++ [c]) s1 s' o Hb Hi1); [|exact H|exact Hg].
      intros c' [Hc'|Hc']%elem_of_app.
      * apply Hkeep. apply Htmp. exact Hc'.
      * apply list_elem_of_singleton in Hc'. subst c'. apply Hnew. reflexivity.
Qed.

Lemma try_lock_returns_exclusive (base : Z) (b : bool) (from : caller) (c : Z)
    (s s' : I.t) (th : nat) (o : outcome) :
  0 <= base -> ids_exclusive base s ->
  match from with
  | From_region _ tmp _ => forall c', c' ∈ tmp -> holds s th (Z.to_nat c')
  | _ => True
  end ->
  (b = true -> holds s th (Z.to_nat c)) ->
  try_lock_returns b from c s th = Done (o, s') -> ids_not_wrapped base s' ->
  ids_exclusive base s' /\ (forall w, o = Yielded w -> waiting_ok s' th w).
Proof.
  intros Hb Hi Htmp Hc H Hg. unfold try_lock_returns in H.
  destruct from as [|index|rest tmp index].
  - apply Done_inj in H. inversion H; subst. split; [exact Hi | discriminate].
  - apply Done_inj in H. inversion H; subst. split; [exact Hi | discriminate].
  - destruct b.
    + apply (lock_cells_from_exclusive base th index rest (tmp ++ [c]) s s' o Hb Hi);
        [|exact H|exact Hg].
      intros c' [Hc'|Hc']%elem_of_app.
      * apply Htmp. exact Hc'.
      * apply list_elem_of_singleton in Hc'. subst c'. apply Hc. reflexivity.
    + apply bind_Done in H as (s1 & Hu & H). apply Done_inj in H. inversion H; subst.
      split; [|discriminate].
      apply (ids_unlock_each_exclusive base tmp th s s' Hi Htmp Hu).
Qed.

Lemma resume_exclusive (base : Z) (s s' : I.t) (th : nat) (w : waiting) (o : outcome) :
  0 <= base -> ids_exclusive base s -> waiting_ok s th w ->
  resume s th w = Done (o, s') -> ids_not_wrapped base s' ->
  ids_exclusive base s' /\ (forall w', o = Yielded w' -> waiting_ok s' th w').
Proof.
  intros Hb Hi [Hid Htmp] H Hg. unfold resume in H.
  destruct (w_old_value w <? w_this_thread_id w).
  - apply bind_Done in H as ([old s1] & Hp & H).
    destruct (try_lock_pass_exclusive base s s1 th _ _ old Hb Hi Hid Hp)
      as (Hi1 & He & Hkeep & Hnew).
    destruct old as [v|].
    + apply Done_inj in H. inversion H; subst. split; [exact Hi1|].
      intros w' Hw. inversion Hw; subst. split; cbn.
      * rewrite He. exact Hid.
      * destruct (w_caller w); try exact I.
        intros c' Hc'. apply Hkeep. apply Htmp. exact Hc'.
    + apply (try_lock_returns_exclusive base true (w_caller w) (w_cell_index w)
               s1 s' th o Hb Hi1); [| |exact H|exact Hg].
      * destruct (w_caller w); try exact I.
        intros c' Hc'. apply Hkeep. apply Htmp. exact Hc'.
      * intros _. apply Hnew. reflexivity.
  - apply (try_lock_returns_exclusive base false (w_caller w) (w_cell_index w)
             s s' th o Hb Hi); [exact Htmp|discriminate|exact H|exact Hg].
Qed.

Lemma begin_call_exclusive (base : Z) (s s' : I.t) (th : nat) (c : call) (o : outcome) :
  0 <= base -> ids_exclusive base s -> may_unlock s th c = true ->
  begin_call s th c = Done (o, s') -> ids_not_wrapped base s' ->
  ids_exclusive base s' /\ (forall w, o = Yielded w -> waiting_ok s' th w).
Proof.
  intros Hb Hi Hm H Hg.
  assert (Hcall : forall r, I.do_call s th c = Done (r, s') -> ids_exclusive base s').
  { intros r Hd. apply (ids_do_call_exclusive base s s' th c r Hb Hi Hm Hd Hg). }
  destruct c as [ci|point lock_radius|ci|point| |]; unfold begin_call in H.
  - apply bind_Done in H as ([r s1] & He & H). apply Done_inj in H. inversion H; subst.
    destruct (try_lock_enter_exclusive base s s' th ci r Hb Hi He Hg)
      as (Hi1 & _ & _ & Hid).
    split; [exact Hi1|]. intros w Hw. destruct r as [[me old]|]; [|discriminate].
    inversion Hw; subst. split; cbn; [|exact I]. apply (Hid me old). reflexivity.
  - apply bind_Done in H as ([[ix iy] iz] & _ & H).
    destruct (lock_radius =? 0).
    + apply bind_Done in H as ([r s1] & He & H). apply Done_inj in H. inversion H; subst.
      destruct (try_lock_enter_exclusive base s s' th _ r Hb Hi He Hg)
        as (Hi1 & _ & _ & Hid).
      split; [exact Hi1|]. intros w Hw. destruct r as [[me old]|]; [|discriminate].
      inversion Hw; subst. split; cbn; [|exact I]. apply (Hid me old). reflexivity.
    + apply (lock_cells_from_exclusive base th
               (cell_index (m_num_grid_cells_per_axis s) ix iy iz)
               (region_cells (m_num_grid_cells_per_axis s) ix iy iz lock_radius)
               [] s s' o Hb Hi); [|exact H|exact Hg].
      intros c' Hc'. apply elem_of_nil in Hc'. destruct Hc'.
  - apply bind_Done in H as ([r s1] & H1 & H). apply Done_inj in H. inversion H; subst.
    split; [exact (Hcall r H1) | discriminate].
  - apply bind_Done in H as ([r s1] & H1 & H). apply Done_inj in H. inversion H; subst.
    split; [exact (Hcall r H1) | discriminate].
  - apply bind_Done in H as ([r s1] & H1 & H). apply Done_inj in H. inversion H; subst.
    split; [exact (Hcall r H1) | discriminate].
  - apply bind_Done in H as ([r s1] & H1 & H). apply Done_inj in H. inversion H; subst.
    split; [exact (Hcall r H1) | discriminate].
Qed.

Lemma waiting_ok_keeps (th u : nat) (s s' : I.t) (w : waiting) :
  u <> th -> keeps_others th s s' -> waiting_ok s u w -> waiting_ok s' u w.
Proof.
  intros Hne [Hl Hi] [Hid Htmp]. split.
  - apply (lookup_weaken _ _ _ _ Hid Hi).
  - destruct (w_caller w); try exact I.
    intros c Hc. unfold holds. rewrite (Hl u Hne). apply Htmp. exact Hc.
Qed.

Lemma settle_exclusive (base : Z) (th : nat) (o : outcome) (s s' : I.t)
    (wm : gmap nat waiting) (p : gmap nat (list call)) (r : list (nat * returned)) :
  ids_exclusive base s' -> keeps_others th s s' ->
  (forall w, o = Yielded w -> waiting_ok s' th w) ->
  (forall u w, wm !! u = Some w -> waiting_ok s u w) ->
  system_exclusive base (settle th o s' wm p r).
Proof.
  intros Hi Hk Ho Hw. destruct o as [v|y]; (split; [exact Hi|]); cbn; intros u w Hu.
  - apply lookup_delete_Some in Hu as [Hne Hu].
    apply (waiting_ok_keeps th u s s' w); auto.
  - destruct (decide (u = th)) as [->|Hne].
    + rewrite lookup_insert_eq in Hu. inversion Hu; subst. apply Ho. reflexivity.
    + rewrite lookup_insert_ne in Hu by congruence.
      apply (waiting_ok_keeps th u s s' w); auto.
Qed.

Lemma turn_keeps (th : nat) (sys sys' : system) :
  turn th sys = Done sys' -> keeps_others th (shared sys) (shared sys').
Proof.
  unfold turn. intros H. destruct (waiting_threads sys !! th) as [w|].
  - apply bind_Done in H as ([o s] & Hr & H). apply Done_inj in H. subst sys'.
    apply resume_keeps in Hr. destruct o; exact Hr.
  - destruct (programs sys !! th) as [[|c rest]|].
    + apply Done_inj in H. subst. apply keeps_others_refl.
    + apply bind_Done in H as ([o s] & Hb & H). apply Done_inj in H. subst sys'.
      apply begin_call_keeps in Hb. destruct o; exact Hb.
    + apply Done_inj in H. subst. apply keeps_others_refl.
Qed.

Lemma turn_exclusive (base : Z) (th : nat) (sys sys' : system) :
  0 <= base -> system_exclusive base sys -> turn_allowed th sys = true ->
  turn th sys = Done sys' -> ids_not_wrapped base (shared sys') ->
  system_exclusive base sys'.
Proof.
  intros Hb [Hi Hw] Ha H Hg. unfold turn in H. unfold turn_allowed in Ha.
  destruct (waiting_threads sys !! th) as [w|] eqn:Hth.
  - apply bind_Done in H as ([o s] & Hr & H). apply Done_inj in H. subst sys'.
    assert (Hg' : ids_not_wrapped base s) by (destruct o; exact Hg).
    destruct (resume_exclusive base (shared sys) s th w o Hb Hi (Hw th w Hth) Hr Hg')
      as [Hi' Ho].
    apply (settle_exclusive base th o (shared sys) s); auto.
    eapply resume_keeps; exact Hr.
  - destruct (programs sys !! th) as [[|c rest]|].
    + apply Done_inj in H. subst. split; assumption.
    + apply bind_Done in H as ([o s] & Hc & H). apply Done_inj in H. subst sys'.
      assert (Hg' : ids_not_wrapped base s) by (destruct o; exact Hg).
      destruct (begin_call_exclusive base (shared sys) s th c o Hb Hi Ha Hc Hg')
        as [Hi' Ho].
      apply (settle_exclusive base th o (shared sys) s); auto.
      eapply begin_call_keeps; exact Hc.
    + apply Done_inj in H. subst. split; assumption.
Qed.

Lemma run_schedule_not_wrapped (base : Z) (schedule : list nat) :
  forall sys sys',
  run_schedule schedule sys = Done sys' ->
  ids_not_wrapped base (shared sys') -> ids_not_wrapped base (shared sys).
Proof.
  induction schedule as [|th rest IH]; intros sys sys' H Hg; cbn in H.
  - apply Done_inj in H. subst. exact Hg.
  - apply bind_Done in H as (sys1 & Ht & H).
    apply (keeps_others_not_wrapped base th _ (shared sys1)).
    + apply turn_keeps. exact Ht.
    + apply (IH sys1 sys' H Hg).
Qed.

Lemma run_schedule_exclusive (base : Z) (schedule : list nat) :
  forall sys sys',
  0 <= base -> system_exclusive base sys ->
  schedule_unlocks_held schedule sys = true ->
  run_schedule schedule sys = Done sys' ->
  ids_not_wrapped base (shared sys') ->
  system_exclusive base sys'.
Proof.
  induction schedule as [|th rest IH]; intros sys sys' Hb Hi Hc H Hg; cbn in H, Hc.
  - apply Done_inj in H. subst. exact Hi.
  - apply bind_Done in H as (sys1 & Ht & H).
    apply andb_prop in Hc as [Ha Hc]. rewrite Ht in Hc.
    apply (IH sys1 sys' Hb); [|exact Hc|exact H|exact Hg].
    apply (turn_exclusive base th sys sys1 Hb Hi Ha Ht).
    apply (run_schedule_not_wrapped base rest sys1 sys' H Hg).
Qed.


(** In [waiting_schedule] thread 1 acquires nine cells and waits for cell
    444 while it holds them, still after thread 0 has unlocked another
    cell; it acquires the rest of its region after thread 0 has released
    everything, and all the calls return. *)
Lemma waiting_schedule_waits :
  (sys ← run_schedule [0; 1; 1; 0; 1]%nat (fresh_system fresh_ids_10 waiting_programs);
   mret (returns sys, waiting_threads sys !! 1%nat,
         local_locked_cells (shared sys) 1%nat))
  = Done ([(0%nat, Ret_pair true 555); (0%nat, Ret_void)],
          Some (Build_waiting 444 2 1
                  (From_region [544; 644; 454; 554; 654; 464; 564; 664; 445; 545; 645;
                                455; 555; 655; 465; 565; 665]
                     [443; 543; 643; 453; 553; 653; 463; 563; 663] 554)),
          [443; 543; 643; 453; 553; 653; 463; 563; 663])
  /\ (sys ← run_schedule waiting_schedule (fresh_system fresh_ids_10 waiting_programs);
      mret (returns sys, waiting_threads sys !! 1%nat,
            length (local_locked_cells (shared sys) 1%nat)))
     = Done ([(0%nat, Ret_pair true 555); (0%nat, Ret_void); (0%nat, Ret_void);
              (1%nat, Ret_pair true 554)],
             None, 27%nat).
Proof. split; vm_compute; reflexivity. Qed.


(** *** A thread on its own

    A call that returns when it is run as a whole, with no other thread
    to write the table, is the same call run by turns: it returns at once,
    or it yields once and returns [false] when the thread comes back. *)

Lemma try_lock_enter_alone (s s' : I.t) (th : nat) (c : Z) (b : bool) :
  I.other_threads (m_extra s) = [] ->
  I.try_lock s th c = Done (b, s') ->
  I.other_threads (m_extra s') = []
  /\ if b then try_lock_enter s th c = Done (None, s')
     else exists me old,
            try_lock_enter s th c = Done (Some (me, old), s') /\ (old <? me) = false.
Proof.
  intros Hot H. unfold I.try_lock in H. unfold try_lock_enter.
  apply bind_Done in H as (held & Hheld & H). rewrite Hheld. cbn.
  destruct held.
  - apply Done_inj in H. inversion H; subst. auto.
  - destruct (I.local_thread_id s th) as [me s1] eqn:Hme.
    destruct (local_thread_id_frame s s1 th me Hme) as (_ & Hot1 & _).
    rewrite Hot1, Hot in H. cbn in H. unfold try_lock_pass.
    apply bind_Done in H as (old & Hold & H). rewrite Hold. cbn.
    destruct (old =? 0).
    + apply bind_Done in H as (grid & Hg & H). rewrite Hg. cbn.
      apply bind_Done in H as (s2 & Hr & H). rewrite Hr. cbn.
      apply Done_inj in H. inversion H; subst. split; [|reflexivity].
      destruct (acquire_effect s1 s' th c _ grid Hg Hr) as (_ & _ & _ & _ & -> & _).
      congruence.
    + destruct (old <? me) eqn:Hlt; [discriminate|].
      apply Done_inj in H. inversion H; subst. split; [congruence|].
      exists me, old. auto.
Qed.

Lemma lock_cells_alone (th : nat) (index : Z) (cells : list Z) :
  forall tmp (s s' : I.t) (b : bool),
  I.other_threads (m_extra s) = [] ->
  lock_cells I.release I.try_lock cells tmp s th = Done (b, s') ->
  if b then lock_cells_from cells tmp index s th
            = Done (Returned (Ret_pair true index), s')
  else exists w s1,
         lock_cells_from cells tmp index s th = Done (Yielded w, s1)
         /\ resume s1 th w = Done (Returned (Ret_pair false index), s').
Proof.
  induction cells as [|c rest IH]; intros tmp s s' b Hot H; cbn in H |- *.
  - apply Done_inj in H. inversion H; subst. reflexivity.
  - apply bind_Done in H as ([locked s1] & Ht & H).
    destruct (try_lock_enter_alone s s1 th c locked Hot Ht) as [Hot1 He].
    destruct locked.
    + rewrite He. cbn. apply (IH _ s1 s' b Hot1 H).
    + destruct He as (me & old & He & Hlt). rewrite He. cbn.
      apply bind_Done in H as (s2 & Hu & H). apply Done_inj in H. inversion H; subst.
      eexists _, _. split; [reflexivity|].
      unfold resume. cbn. rewrite Hlt. cbn. rewrite Hu. reflexivity.
Qed.

Lemma whole_call_by_turns (s s' : I.t) (th : nat) (c : call) (r : returned) :
  I.other_threads (m_extra s) = [] ->
  I.do_call s th c = Done (r, s') ->
  begin_call s th c = Done (Returned r, s')
  \/ exists w s1,
       begin_call s th c = Done (Yielded w, s1)
       /\ resume s1 th w = Done (Returned r, s').
Proof.
  intros Hot H.
  destruct c as [ci|point lock_radius|ci|point| |];
    try (left; unfold begin_call; rewrite H; reflexivity);
    unfold I.do_call in H; cbn [do_call] in H; unfold begin_call.
  - apply bind_Done in H as ([b s1] & Ht & H). apply Done_inj in H. inversion H; subst.
    destruct (try_lock_enter_alone s s' th ci b Hot Ht) as [_ He]. destruct b.
    + left. rewrite He. reflexivity.
    + right. destruct He as (me & old & He & Hlt). rewrite He. cbn.
      eexists _, _. split; [reflexivity|].
      unfold resume. cbn. rewrite Hlt. reflexivity.
  - apply bind_Done in H as ([[b index] s1] & Ht & H).
    apply Done_inj in H. inversion H; subst. clear H.
    unfold try_lock_point in Ht.
    apply bind_Done in Ht as ([[ix iy] iz] & Hp & Ht). rewrite Hp. cbn.
    destruct (lock_radius =? 0).
    + apply bind_Done in Ht as ([locked s2] & Ht & H).
      apply Done_inj in H. inversion H; subst. clear H.
      destruct (try_lock_enter_alone s s' th _ b Hot Ht) as [_ He]. destruct b.
      * left. rewrite He. reflexivity.
      * right. destruct He as (me & old & He & Hlt). rewrite He. cbn.
        eexists _, _. split; [reflexivity|].
        unfold resume. cbn. rewrite Hlt. reflexivity.
    + apply bind_Done in Ht as ([locked s2] & Ht & H).
      apply Done_inj in H. inversion H; subst. clear H.
      pose proof (lock_cells_alone th
                    (cell_index (m_num_grid_cells_per_axis s) ix iy iz)
                    _ [] s s' b Hot Ht) as Hl.
      destruct b; [left; exact Hl | right; exact Hl].
Qed.
